(** * ghcache: the caching transport chain of ghproxy

    A shallow embedding of [ghproxy/ghcache/ghcache.go]: the response
    classifier, the throttling transport, the upstream policy transport,
    the partition metadata record and the pruner.

    Go values are rendered as follows.
    - [string] and [[]byte] are [string] (a list of bytes);
    - [int], [int64] and the Prometheus gauges are [Z];
    - [http.Header], a [map[string][]string], is a [gmap string (list string)];
    - a [(T, error)] result is a pair of options or a sum;
    - a method with effects is a function in the state monad [M] over the
      record of everything the method can touch;
    - goroutines inside the same method are a pool of program points, run
      one statement at a time in any order. *)

From Stdlib Require Import ZArith Lia Ascii String List Bool DecimalString.
From stdpp Require Import gmap strings sorting.

Local Open Scope string_scope.
Local Open Scope list_scope.
Local Open Scope Z_scope.

(** ** Part I: the embedding *)

(** *** Package [strings] *)

Module strings.

(** [strings.HasPrefix(s, prefix)]. *)
Definition HasPrefix (s prefix : string) : bool := String.prefix prefix s.

(** [strings.Contains(s, substr)]: [substr] starts at some offset of [s]. *)
Fixpoint Contains (s substr : string) : bool :=
  String.prefix substr s ||
  match s with
  | EmptyString => false
  | String _ s' => Contains s' substr
  end.

End strings.

(** *** Package [net/textproto] and [http.Header] *)

Module textproto.

Definition byte_in (lo hi c : ascii) : bool :=
  ((nat_of_ascii lo <=? nat_of_ascii c)%nat && (nat_of_ascii c <=? nat_of_ascii hi)%nat).

Definition isLower (c : ascii) : bool := byte_in "a" "z" c.
Definition isUpper (c : ascii) : bool := byte_in "A" "Z" c.
Definition isDigit (c : ascii) : bool := byte_in "0" "9" c.

(** The distance between the two cases, ['a' - 'A']. *)
Definition toLower : nat := 32.

Definition lower (c : ascii) : ascii := ascii_of_nat (nat_of_ascii c + toLower).
Definition upper (c : ascii) : ascii := ascii_of_nat (nat_of_ascii c - toLower).

(** [validHeaderFieldByte]: the token characters of RFC 7230. *)
Definition validHeaderFieldByte (c : ascii) : bool :=
  isLower c || isUpper c || isDigit c ||
  existsb (Ascii.eqb c)
    ["!"; "#"; "$"; "%"; "&"; "'"; "*"; "+"; "-"; "."; "^"; "_"; "`"; "|"; "~"]%char.

Fixpoint all_valid (s : string) : bool :=
  match s with
  | EmptyString => true
  | String c s' => validHeaderFieldByte c && all_valid s'
  end.

(** The loop of [canonicalMIMEHeaderKey]: upper case at the start and
    after each dash, lower case elsewhere. *)
Fixpoint canonicalize (up : bool) (s : string) : string :=
  match s with
  | EmptyString => EmptyString
  | String c s' =>
      let c' := if up && isLower c then upper c
                else if negb up && isUpper c then lower c
                else c in
      String c' (canonicalize (Ascii.eqb c' "-") s')
  end.

(** [textproto.CanonicalMIMEHeaderKey]: a key holding a byte that is not
    a token character is returned unchanged. *)
Definition CanonicalMIMEHeaderKey (s : string) : string :=
  if all_valid s then canonicalize true s else s.

End textproto.

Module http.

Abbreviation Header := (gmap string (list string)).

(** [Header.Get]: the first value stored under the canonical key, or
    the empty string. *)
Definition Get (h : Header) (key : string) : string :=
  match h !! textproto.CanonicalMIMEHeaderKey key with
  | Some (v :: _) => v
  | _ => ""
  end.

(** [Header.Set]: replaces whatever is stored under the canonical key. *)
Definition Set_ (h : Header) (key value : string) : Header :=
  <[ textproto.CanonicalMIMEHeaderKey key := [value] ]> h.

Definition StatusNotModified : Z := 304.
Definition MethodGet : string := "GET".

End http.

(** *** Package [strconv] *)

Module strconv.

(** [strconv.Itoa]: decimal digits, with a leading minus sign for a
    negative number. *)
Definition Itoa (i : Z) : string := NilZero.string_of_int (Z.to_int i).

End strconv.

(** *** Package [time] *)

Module time.

(** An instant: seconds since the Unix epoch and nanoseconds within the
    second.  The location a [time.Time] also carries only matters for
    printing and is left out. *)
Record Time := { sec : Z; nsec : Z }.

(** Nanoseconds; Go saturates a [Duration] at the bounds of [int64]. *)
Definition Duration := Z.

Definition maxDuration : Duration := 2 ^ 63 - 1.
Definition minDuration : Duration := - 2 ^ 63.

Definition Unix (t : Time) : Z := sec t.

(** [t.After(u)]. *)
Definition After (t u : Time) : bool :=
  (sec u <? sec t) || ((sec t =? sec u) && (nsec u <? nsec t)).

(** [t.Sub(u)], saturating. *)
Definition Sub (t u : Time) : Duration :=
  Z.max minDuration (Z.min maxDuration ((sec t - sec u) * 1000000000 + (nsec t - nsec u))).

(** The zero [Time]: January 1, year 1, 00:00:00 UTC. *)
Definition zero : Time := {| sec := -62135596800; nsec := 0 |}.

Definition IsZero (t : Time) : bool := (sec t =? sec zero) && (nsec t =? 0).

(** **** The calendar *)

Definition secondsPerDay : Z := 86400.
Definition daysPer400Years : Z := 146097.
Definition daysPer100Years : Z := 36524.
Definition daysPer4Years : Z := 1461.

(** Days from January 1 of year 1 to the Unix epoch. *)
Definition unixToInternalDays : Z := 719162.

Definition isLeap (year : Z) : bool :=
  (year mod 4 =? 0) && (negb (year mod 100 =? 0) || (year mod 400 =? 0)).

Definition monthLengths (leap : bool) : list Z :=
  [31; if leap then 29 else 28; 31; 30; 31; 30; 31; 31; 30; 31; 30; 31].

Definition daysIn (month year : Z) : Z :=
  nth (Z.to_nat (month - 1)) (monthLengths (isLeap year)) 0.

(** Days of the year before the first of [month]. *)
Definition daysBefore (month year : Z) : Z :=
  fold_right Z.add 0 (firstn (Z.to_nat (month - 1)) (monthLengths (isLeap year))).

(** The year within a cycle of 400 years, and the day within that year,
    of a day of the cycle: 100-year, 4-year and 1-year cycles are cut off in
    turn, the last of each kind being a day longer. *)
Definition cycleDate (d : Z) : Z * Z :=
  let n100 := d / daysPer100Years in
  let n100 := n100 - n100 / 4 in
  let d := d - daysPer100Years * n100 in
  let n4 := d / daysPer4Years in
  let d := d - daysPer4Years * n4 in
  let n1 := d / 365 in
  let n1 := n1 - n1 / 4 in
  let d := d - 365 * n1 in
  (100 * n100 + 4 * n4 + n1, d).

(** Year and day of the year (from 0) of a day counted from January 1 of
    year 1. *)
Definition yearDay (d : Z) : Z * Z :=
  let '(y, yday) := cycleDate (d mod daysPer400Years) in
  (1 + 400 * (d / daysPer400Years) + y, yday).

(** Month (from 1) and day of the month (from 1) of a day of the year. *)
Fixpoint monthDay (lengths : list Z) (month yday : Z) : Z * Z :=
  match lengths with
  | [] => (month, yday + 1)
  | l :: lengths' =>
      if yday <? l then (month, yday + 1) else monthDay lengths' (month + 1) (yday - l)
  end.

Record Civil := {
  Year : Z; Month : Z; Day : Z; Hour : Z; Minute : Z; Second : Z
}.

(** [t.UTC()] taken apart into date and clock. *)
Definition civil (t : Time) : Civil :=
  let '(year, yday) := yearDay (sec t / secondsPerDay + unixToInternalDays) in
  let '(month, day) := monthDay (monthLengths (isLeap year)) 1 yday in
  let s := sec t mod secondsPerDay in
  {| Year := year; Month := month; Day := day;
     Hour := s / 3600; Minute := s mod 3600 / 60; Second := s mod 60 |}.

(** Days from January 1 of year 1 to January 1 of [year]. *)
Definition daysSinceYear1 (year : Z) : Z :=
  let y := year - 1 in 365 * y + y / 4 - y / 100 + y / 400.

(** [time.Date(year, month, day, hour, min, sec, 0, time.UTC)] for fields
    in their ranges. *)
Definition Date (c : Civil) : Time :=
  let days := daysSinceYear1 (Year c) + daysBefore (Month c) (Year c) + (Day c - 1)
              - unixToInternalDays in
  {| sec := days * secondsPerDay + Hour c * 3600 + Minute c * 60 + Second c; nsec := 0 |}.

(** **** Layout RFC3339, ["2006-01-02T15:04:05Z07:00"] *)

Definition digit (n : Z) : ascii := ascii_of_nat (48 + Z.to_nat n).

Fixpoint zeros (n : nat) : string :=
  match n with
  | O => ""
  | S n' => String "0" (zeros n')
  end.

(** [appendInt]: a minus sign for a negative number, then its decimal
    digits with zeros in front up to [width] digits. *)
Definition appendInt (x : Z) (width : nat) : string :=
  let digits := NilZero.string_of_uint (N.to_uint (Z.to_N (Z.abs x))) in
  (if x <? 0 then "-" else "") +:+ zeros (width - String.length digits) +:+ digits.

(** [t.UTC().Format(time.RFC3339)]: the fraction of a second is dropped
    and the zone is spelled [Z]. *)
Definition Format (t : Time) : string :=
  let c := civil t in
  appendInt (Year c) 4 +:+ "-" +:+ appendInt (Month c) 2 +:+ "-" +:+ appendInt (Day c) 2
  +:+ "T" +:+ appendInt (Hour c) 2 +:+ ":" +:+ appendInt (Minute c) 2 +:+ ":"
  +:+ appendInt (Second c) 2 +:+ "Z".

Definition digitValue (c : ascii) : option Z :=
  let n := nat_of_ascii c in
  if ((48 <=? n)%nat && (n <=? 57)%nat) then Some (Z.of_nat n - 48) else None.

(** Exactly [k] decimal digits at the head of [s]. *)
Fixpoint number (k : nat) (acc : Z) (s : string) : option (Z * string) :=
  match k with
  | O => Some (acc, s)
  | S k' =>
      match s with
      | String c s' => d ← digitValue c; number k' (10 * acc + d) s'
      | EmptyString => None
      end
  end.

(** The literal byte [c] at the head of [s]. *)
Definition literal (c : ascii) (s : string) : option string :=
  match s with
  | String c' s' => if Ascii.eqb c c' then Some s' else None
  | EmptyString => None
  end.

Definition inRange (c : Civil) : bool :=
  (1 <=? Month c) && (Month c <=? 12)
  && (1 <=? Day c) && (Day c <=? daysIn (Month c) (Year c))
  && (Hour c <? 24) && (Minute c <? 60) && (Second c <? 60).

(** [time.Parse(time.RFC3339, s)] on the spelling [Format] writes: a year
    of four digits, two digits for every other field, zone [Z].  Go also
    reads an hour of one digit, a fraction of a second and a numeric zone
    offset; those spellings are rejected here.  A field out of range is an
    error, as in Go. *)
Definition Parse (s : string) : option Time :=
  '(year, s) ← number 4 0 s; s ← literal "-" s;
  '(month, s) ← number 2 0 s; s ← literal "-" s;
  '(day, s) ← number 2 0 s; s ← literal "T" s;
  '(hour, s) ← number 2 0 s; s ← literal ":" s;
  '(minute, s) ← number 2 0 s; s ← literal ":" s;
  '(second, s) ← number 2 0 s; s ← literal "Z" s;
  let c := {| Year := year; Month := month; Day := day;
              Hour := hour; Minute := minute; Second := second |} in
  if String.eqb s "" && inRange c then Some (Date c) else None.

End time.

(** *** Errors and contexts *)

(** An [error] is identified with its message. *)
Definition error := string.

Module context.

(** A context is the background context, which is never done, or one
    that can be cancelled and records whether its signal has fired. *)
Inductive Context :=
| Background
| WithCancel (cancelled : bool).

Definition Canceled : error := "context canceled".

(** Whether the channel of [ctx.Done()] is closed. *)
Definition Done (ctx : Context) : bool :=
  match ctx with
  | Background => false
  | WithCancel cancelled => cancelled
  end.

Definition Err (ctx : Context) : option error :=
  if Done ctx then Some Canceled else None.

End context.

(** *** Requests, responses and round trippers *)

Record URL := { Scheme : string; Host : string; Path : string; RawQuery : string }.

(** [URL.String()], for the plain case of an absolute URL without user
    info, fragment or characters to escape. *)
Definition URL_String (u : URL) : string :=
  Scheme u +:+ "://" +:+ Host u +:+ Path u +:+
  (if String.eqb (RawQuery u) "" then "" else "?" +:+ RawQuery u).

Record Request := {
  req_Method : string;
  req_URL : URL;
  req_Header : http.Header;
  req_Context : context.Context
}.

Record Response := {
  StatusCode : Z;
  resp_Header : http.Header;
  Body : string
}.

(** [resp.Header.Set(key, value)] on the response a pointer designates:
    the caller gets the same response back with the header replaced. *)
Definition Header_Set (resp : Response) (key value : string) : Response :=
  {| StatusCode := StatusCode resp;
     resp_Header := http.Set_ (resp_Header resp) key value;
     Body := Body resp |}.

(** What [RoundTrip] returns: a response pointer and an error, either of
    which can be nil. *)
Definition RoundTripResult : Type := option Response * option error.

(** The interface [http.RoundTripper] as far as a caller can tell: the
    answer to a request, which may differ from one call to the next (the
    second argument counts the calls made before). *)
Definition RoundTripper : Type := Request -> nat -> RoundTripResult.

(** *** The process: gauges, clock, logs, metrics *)

Record LogEntry := {
  level : string;
  message : string;
  fields : list (string * string);
  log_err : option error
}.

(** The calls into package [ghmetrics]. *)
Inductive Metric :=
| RequestTimeoutMetrics (tokenBudgetName path userAgent : string)
    (reqStartTime responseTime : time.Time)
| GitHubTokenMetrics (tokenBudgetName apiVersion : string) (headers : http.Header)
    (reqStartTime responseTime : time.Time)
| GitHubRequestMetrics (tokenBudgetName path status userAgent : string)
    (roundTripTime : time.Duration).

(** Everything global a round trip acts on.  [clock] lists what the
    successive calls of [time.Now] return and [ticks] counts the calls made;
    [calls] lists the requests handed to the delegate. *)
Record World := {
  clock : nat -> time.Time;
  ticks : nat;
  pendingOutboundConnectionsGauge : Z;
  outboundConcurrencyGauge : Z;
  logs : list LogEntry;
  metrics : list Metric;
  calls : list Request
}.

(** How a call goes for the goroutine that makes it: it returns, it
    blocks (the goroutine is parked, and goes on only when another goroutine
    lets it), or it panics. *)
Inductive Outcome (A : Type) :=
| Returns (a : A)
| Blocks
| Panics.

Arguments Returns {A} a.
Arguments Blocks {A}.
Arguments Panics {A}.

Definition M (A : Type) : Type := World -> Outcome A * World.

Definition ret {A} (a : A) : M A := fun w => (Returns a, w).

Definition bind {A B} (m : M A) (k : A -> M B) : M B :=
  fun w =>
    match m w with
    | (Returns a, w') => k a w'
    | (Blocks, w') => (Blocks, w')
    | (Panics, w') => (Panics, w')
    end.

Definition panic {A} : M A := fun w => (Panics, w).

Notation "x <- m ;; k" := (bind m (fun x => k))
  (at level 100, m at next level, right associativity).
Notation "m ;;; k" := (bind m (fun _ => k))
  (at level 100, right associativity).

Definition time_Now : M time.Time :=
  fun w => (Returns (clock w (ticks w)),
            {| clock := clock w; ticks := S (ticks w);
               pendingOutboundConnectionsGauge := pendingOutboundConnectionsGauge w;
               outboundConcurrencyGauge := outboundConcurrencyGauge w;
               logs := logs w; metrics := metrics w; calls := calls w |}).

(** [pendingOutboundConnectionsGauge.Add(d)]; [Inc] and [Dec] add 1 and -1. *)
Definition pending_Add (d : Z) : M unit :=
  fun w => (Returns tt,
            {| clock := clock w; ticks := ticks w;
               pendingOutboundConnectionsGauge := pendingOutboundConnectionsGauge w + d;
               outboundConcurrencyGauge := outboundConcurrencyGauge w;
               logs := logs w; metrics := metrics w; calls := calls w |}).

Definition outbound_Add (d : Z) : M unit :=
  fun w => (Returns tt,
            {| clock := clock w; ticks := ticks w;
               pendingOutboundConnectionsGauge := pendingOutboundConnectionsGauge w;
               outboundConcurrencyGauge := outboundConcurrencyGauge w + d;
               logs := logs w; metrics := metrics w; calls := calls w |}).

Definition logrus (e : LogEntry) : M unit :=
  fun w => (Returns tt,
            {| clock := clock w; ticks := ticks w;
               pendingOutboundConnectionsGauge := pendingOutboundConnectionsGauge w;
               outboundConcurrencyGauge := outboundConcurrencyGauge w;
               logs := logs w ++ [e]; metrics := metrics w; calls := calls w |}).

Definition ghmetrics (m : Metric) : M unit :=
  fun w => (Returns tt,
            {| clock := clock w; ticks := ticks w;
               pendingOutboundConnectionsGauge := pendingOutboundConnectionsGauge w;
               outboundConcurrencyGauge := outboundConcurrencyGauge w;
               logs := logs w; metrics := metrics w ++ [m]; calls := calls w |}).

(** [delegate.RoundTrip(req)]. *)
Definition invoke (delegate : RoundTripper) (req : Request) : M RoundTripResult :=
  fun w => (Returns (delegate req (length (calls w))),
            {| clock := clock w; ticks := ticks w;
               pendingOutboundConnectionsGauge := pendingOutboundConnectionsGauge w;
               outboundConcurrencyGauge := outboundConcurrencyGauge w;
               logs := logs w; metrics := metrics w; calls := calls w ++ [req] |}).

(** *** The semaphore *)

(** How [Acquire] goes for its caller: it returns nil, it returns an
    error, or the caller is parked inside it. *)
Inductive AcquireResult :=
| AcqNil
| AcqErr (err : error)
| AcqParked.

(** What the throttling transport asks of its semaphore.  [Release]
    answers [None] where the Go method panics. *)
Class Semaphore (S : Type) := {
  Acquire : context.Context -> Z -> S -> AcquireResult * S;
  Release : Z -> S -> option S
}.

Module semaphore.

(** [semaphore.Weighted] of golang.org/x/sync: the capacity, the weight
    handed out, and the weights of the callers queued for admission. *)
Record Weighted := { size : Z; cur : Z; waiters : list Z }.

Definition NewWeighted (n : Z) : Weighted := {| size := n; cur := 0; waiters := [] |}.

(** [Weighted.Acquire] up to the point where the caller returns or is
    parked: weight that is free and not queued for is taken at once;
    otherwise a caller whose context is done comes back with [ctx.Err()],
    and any other is parked, behind the waiters when the semaphore can hold
    its weight at all.  A parked caller goes on when [Weighted_Release]
    hands it its weight ([step] below has this) or when its context is done,
    which the background context never is. *)
Definition Weighted_Acquire (ctx : context.Context) (n : Z) (s : Weighted)
  : AcquireResult * Weighted :=
  if (n <=? size s - cur s) && (match waiters s with [] => true | _ => false end)
  then (AcqNil, {| size := size s; cur := cur s + n; waiters := waiters s |})
  else match context.Err ctx with
       | Some err => (AcqErr err, s)
       | None =>
           (AcqParked,
            if size s <? n then s
            else {| size := size s; cur := cur s; waiters := waiters s ++ [n] |})
       end.

(** [notifyWaiters]: admits queued callers from the front while their
    weight fits. *)
Fixpoint notifyWaiters (sz c : Z) (ws : list Z) : Z * list Z :=
  match ws with
  | [] => (c, [])
  | n :: ws' => if sz - c <? n then (c, ws) else notifyWaiters sz (c + n) ws'
  end.

(** [Weighted.Release]: panics when more is released than is held. *)
Definition Weighted_Release (n : Z) (s : Weighted) : option Weighted :=
  let c := cur s - n in
  if c <? 0 then None
  else let '(c', ws) := notifyWaiters (size s) c (waiters s) in
       Some {| size := size s; cur := c'; waiters := ws |}.

End semaphore.

#[export] Instance Weighted_Semaphore : Semaphore semaphore.Weighted := {
  Acquire := semaphore.Weighted_Acquire;
  Release := semaphore.Weighted_Release
}.

(** *** The throttling transport *)

(** [throttlingTransport] throttles outbound concurrency from the proxy. *)
Record throttlingTransport (S : Type) := {
  c_sem : S;
  c_delegate : RoundTripper
}.

Arguments c_sem {S} _.
Arguments c_delegate {S} _.

Definition newThrottlingTransport (maxConcurrency : Z) (delegate : RoundTripper)
  : throttlingTransport semaphore.Weighted :=
  {| c_sem := semaphore.NewWeighted maxConcurrency; c_delegate := delegate |}.

Definition with_sem {S} (c : throttlingTransport S) (s : S) : throttlingTransport S :=
  {| c_sem := s; c_delegate := c_delegate c |}.

(** [throttlingTransport.RoundTrip] as a goroutine lives it that has the
    transport to itself.  The semaphore lives behind a pointer, so the
    transport comes back with the semaphore as the call left it.  The two
    deferred calls run after the delegate has answered, last deferred first.
    [Blocks] is where the goroutine is parked in [Acquire]: what becomes of
    it when others release is told by [step] below. *)
Definition throttlingTransport_RoundTrip {S} `{Semaphore S}
    (c : throttlingTransport S) (req : Request) (w : World)
  : Outcome RoundTripResult * throttlingTransport S * World :=
  let '(_, w) := pending_Add 1 w in
  match Acquire context.Background 1 (c_sem c) with
  | (AcqErr err, s) =>
      let '(_, w) := logrus {| level := "error";
                               message := "Internal error acquiring semaphore.";
                               fields := [("cache-key", URL_String (req_URL req))];
                               log_err := Some err |} w in
      (Returns (None, Some err), with_sem c s, w)
  | (AcqParked, s) => (Blocks, with_sem c s, w)
  | (AcqNil, s) =>
      let '(_, w) := pending_Add (-1) w in
      let '(_, w) := outbound_Add 1 w in
      let '(r, w) := invoke (c_delegate c) req w in
      let '(_, w) := outbound_Add (-1) w in
      match Release 1 s with
      | Some s' => (r, with_sem c s', w)
      | None => (Panics, with_sem c s, w)
      end
  end.

(** Requests served one after the other by the same transport, each by a
    goroutine of its own: a caller left parked does not keep the next from
    calling. *)
Fixpoint serve {S} `{Semaphore S} (c : throttlingTransport S) (reqs : list Request)
    (w : World) : throttlingTransport S * World :=
  match reqs with
  | [] => (c, w)
  | req :: reqs' =>
      let '(_, c', w') := throttlingTransport_RoundTrip c req w in
      serve c' reqs' w'
  end.

(** The reading of "admission is cancelable through the caller's
    cancellation signal": a caller whose context is done and who has to
    wait for admission, the semaphore being used up, gets an error back and
    the delegate is not called. *)
Definition admission_cancelable : Prop :=
  forall (delegate : RoundTripper) (maxConcurrency : Z) (req : Request) (w : World),
    0 < maxConcurrency ->
    context.Done (req_Context req) = true ->
    let c := {| c_sem := {| semaphore.size := maxConcurrency;
                            semaphore.cur := maxConcurrency;
                            semaphore.waiters := [] |};
                c_delegate := delegate |} in
    exists err c' w',
      throttlingTransport_RoundTrip c req w = (Returns (None, Some err), c', w')
      /\ calls w' = calls w.

(** The request with another context, as [req.WithContext(ctx)] makes it. *)
Definition WithContext (req : Request) (ctx : context.Context) : Request :=
  {| req_Method := req_Method req; req_URL := req_URL req;
     req_Header := req_Header req; req_Context := ctx |}.

(** *** Round trips side by side *)

(** Where a goroutine stands in [throttlingTransport.RoundTrip]: at the
    statement it runs next, parked inside [Acquire], or out of the call. *)
Inductive Stage :=
| Entering                          (* pendingOutboundConnectionsGauge.Inc() *)
| Acquiring                         (* c.sem.Acquire(context.Background(), 1) *)
| Parked                            (* inside Acquire, waiting to be admitted *)
| Rejected (err : error)            (* logrus ... Error(...) *)
| Refused (err : error)             (* out: return nil, err *)
| Granted                          (* pendingOutboundConnectionsGauge.Dec() *)
| Counted                           (* outboundConcurrencyGauge.Inc() *)
| Calling                           (* c.delegate.RoundTrip(req) *)
| Answered (r : RoundTripResult)    (* deferred outboundConcurrencyGauge.Dec() *)
| Releasing (r : RoundTripResult)   (* deferred c.sem.Release(1) *)
| Returned (r : RoundTripResult)    (* out: the delegate's answer *)
| Panicked.

(** Goroutines inside [RoundTrip] of one transport: the transport with
    its semaphore, the process they share, each goroutine with its request
    and where it stands, and [p_queue], the goroutines parked behind the
    waiters of the semaphore, in the order of the waiters. *)
Record Pool := {
  p_transport : throttlingTransport semaphore.Weighted;
  p_queue : list nat;
  p_world : World;
  p_goroutines : list (Request * Stage)
}.

(** Goroutine [i] moved to [stage]. *)
Definition place (i : nat) (stage : Stage) (gs : list (Request * Stage))
  : list (Request * Stage) :=
  alter (fun g => (g.1, stage)) i gs.

(** The goroutines whose [ready] channel was closed come out of
    [Acquire] with nil. *)
Definition wake (woken : list nat) (gs : list (Request * Stage)) : list (Request * Stage) :=
  foldr (fun j gs => place j Granted gs) gs woken.

Definition moved (p : Pool) (i : nat) (stage : Stage) (w : World) : Pool :=
  {| p_transport := p_transport p; p_queue := p_queue p; p_world := w;
     p_goroutines := place i stage (p_goroutines p) |}.

(** Goroutine [i] runs its next statement; [None] when it has none to
    run: it is parked, or out of the call.  A parked goroutine goes on when
    a [Release] hands it the weight it waits for: [Acquire] was given the
    background context, whose [Done] channel never delivers. *)
Definition step (i : nat) (p : Pool) : option Pool :=
  let c := p_transport p in
  match p_goroutines p !! i with
  | None => None
  | Some (req, Entering) =>
      let '(_, w) := pending_Add 1 (p_world p) in
      Some (moved p i Acquiring w)
  | Some (req, Acquiring) =>
      match Acquire context.Background 1 (c_sem c) with
      | (AcqNil, s) =>
          Some {| p_transport := with_sem c s; p_queue := p_queue p; p_world := p_world p;
                  p_goroutines := place i Granted (p_goroutines p) |}
      | (AcqErr err, s) =>
          Some {| p_transport := with_sem c s; p_queue := p_queue p; p_world := p_world p;
                  p_goroutines := place i (Rejected err) (p_goroutines p) |}
      | (AcqParked, s) =>
          Some {| p_transport := with_sem c s;
                  p_queue := if (length (semaphore.waiters (c_sem c))
                                 <? length (semaphore.waiters s))%nat
                             then p_queue p ++ [i] else p_queue p;
                  p_world := p_world p;
                  p_goroutines := place i Parked (p_goroutines p) |}
      end
  | Some (req, Parked) => None
  | Some (req, Rejected err) =>
      let '(_, w) := logrus {| level := "error";
                               message := "Internal error acquiring semaphore.";
                               fields := [("cache-key", URL_String (req_URL req))];
                               log_err := Some err |} (p_world p) in
      Some (moved p i (Refused err) w)
  | Some (req, Refused _) => None
  | Some (req, Granted) =>
      let '(_, w) := pending_Add (-1) (p_world p) in
      Some (moved p i Counted w)
  | Some (req, Counted) =>
      let '(_, w) := outbound_Add 1 (p_world p) in
      Some (moved p i Calling w)
  | Some (req, Calling) =>
      match invoke (c_delegate c) req (p_world p) with
      | (Returns r, w) => Some (moved p i (Answered r) w)
      | (_, w) => Some (moved p i Panicked w)
      end
  | Some (req, Answered r) =>
      let '(_, w) := outbound_Add (-1) (p_world p) in
      Some (moved p i (Releasing r) w)
  | Some (req, Releasing r) =>
      match Release 1 (c_sem c) with
      | Some s =>
          let k := (length (p_queue p) - length (semaphore.waiters s))%nat in
          Some {| p_transport := with_sem c s;
                  p_queue := drop k (p_queue p);
                  p_world := p_world p;
                  p_goroutines := wake (take k (p_queue p))
                                    (place i (Returned r) (p_goroutines p)) |}
      | None => Some (moved p i Panicked (p_world p))
      end
  | Some (req, Returned _) => None
  | Some (req, Panicked) => None
  end.

(** What happens from outside and inside: a goroutine calls
    [RoundTrip(req)], or the scheduler lets goroutine [i] run its next
    statement (nothing happens if it has none). *)
Inductive Event :=
| Call (req : Request)
| Next (i : nat).

Definition happen (p : Pool) (e : Event) : Pool :=
  match e with
  | Call req =>
      {| p_transport := p_transport p; p_queue := p_queue p; p_world := p_world p;
         p_goroutines := p_goroutines p ++ [(req, Entering)] |}
  | Next i => default p (step i p)
  end.

Definition run (p : Pool) (events : list Event) : Pool := foldl happen p events.

(** A transport nobody has called yet. *)
Definition pool (c : throttlingTransport semaphore.Weighted) (w : World) : Pool :=
  {| p_transport := c; p_queue := []; p_world := w; p_goroutines := [] |}.

(** How the call has ended for a goroutine, if it has; a parked goroutine
    counts as blocked. *)
Definition outcome (stage : Stage) : option (Outcome RoundTripResult) :=
  match stage with
  | Returned r => Some (Returns r)
  | Refused err => Some (Returns (None, Some err))
  | Parked => Some Blocks
  | Panicked => Some Panics
  | _ => None
  end.

(** The number of goroutines at a stage of a kind. *)
Fixpoint standing (kind : Stage -> bool) (gs : list (Request * Stage)) : Z :=
  match gs with
  | [] => 0
  | g :: gs' => (if kind g.2 then 1 else 0) + standing kind gs'
  end.

(** Has added one to the pending gauge and not taken it off again. *)
Definition pending (stage : Stage) : bool :=
  match stage with
  | Acquiring | Parked | Rejected _ | Refused _ | Granted => true
  | _ => false
  end.

(** Holds weight of the semaphore: admitted and not yet released. *)
Definition holding (stage : Stage) : bool :=
  match stage with
  | Granted | Counted | Calling | Answered _ | Releasing _ => true
  | _ => false
  end.

(** Counted by the gauge of outbound calls. *)
Definition outbound (stage : Stage) : bool :=
  match stage with
  | Calling | Answered _ => true
  | _ => false
  end.

(** Has been answered by the delegate. *)
Definition answered (stage : Stage) : bool :=
  match stage with
  | Answered _ | Releasing _ | Returned _ => true
  | _ => false
  end.

(** Has taken the failure branch, or panicked. *)
Definition failed (stage : Stage) : bool :=
  match stage with
  | Rejected _ | Refused _ | Panicked => true
  | _ => false
  end.

(** Has not come past [Acquire]. *)
Definition outside (stage : Stage) : bool :=
  match stage with
  | Entering | Acquiring | Parked => true
  | _ => false
  end.

(** A pool whose semaphore has no weight to give and has given none:
    everybody is still outside. *)
Definition Shut (p : Pool) : Prop :=
  semaphore.size (c_sem (p_transport p)) <= 0
  /\ semaphore.cur (c_sem (p_transport p)) = 0
  /\ standing (fun stage => negb (outside stage)) (p_goroutines p) = 0.

(** The stage without the answer of the delegate. *)
Definition point (stage : Stage) : Stage :=
  match stage with
  | Answered _ => Answered (None, None)
  | Releasing _ => Releasing (None, None)
  | Returned _ => Returned (None, None)
  | _ => stage
  end.

(** The same events with other contexts on the requests. *)
Definition recontext (ctx : Request -> context.Context) (e : Event) : Event :=
  match e with
  | Call req => Call (WithContext req (ctx req))
  | Next i => Next i
  end.

(** What the transport itself has done: the semaphore and its queue, the
    gauges, the log, the number of calls of the delegate and where each
    goroutine stands. *)
Definition view (p : Pool)
  : semaphore.Weighted * list nat * Z * Z * list LogEntry * nat * list Stage :=
  (c_sem (p_transport p), p_queue p,
   pendingOutboundConnectionsGauge (p_world p), outboundConcurrencyGauge (p_world p),
   logs (p_world p), length (calls (p_world p)),
   map (fun g => point g.2) (p_goroutines p)).

(** What holds of the pools a transport made with [maxConcurrency]
    passes through, starting from the process [w0]. *)
Record Sound (maxConcurrency : Z) (delegate : RoundTripper) (w0 : World) (p : Pool)
  : Prop := {
  sound_delegate : c_delegate (p_transport p) = delegate;
  sound_size : semaphore.size (c_sem (p_transport p)) = maxConcurrency;
  sound_cur : semaphore.cur (c_sem (p_transport p)) = standing holding (p_goroutines p);
  sound_room : semaphore.cur (c_sem (p_transport p)) <= Z.max maxConcurrency 0;
  sound_waiters : semaphore.waiters (c_sem (p_transport p))
                  = replicate (length (p_queue p)) 1;
  sound_full : p_queue p <> [] -> maxConcurrency <= semaphore.cur (c_sem (p_transport p));
  sound_NoDup : NoDup (p_queue p);
  sound_queued : forall j, j ∈ p_queue p ->
                 exists req, p_goroutines p !! j = Some (req, Parked);
  sound_parked : 1 <= maxConcurrency ->
                 forall j req, p_goroutines p !! j = Some (req, Parked) -> j ∈ p_queue p;
  sound_failed : standing failed (p_goroutines p) = 0;
  sound_pending : pendingOutboundConnectionsGauge (p_world p)
                  = pendingOutboundConnectionsGauge w0 + standing pending (p_goroutines p);
  sound_outbound : outboundConcurrencyGauge (p_world p)
                   = outboundConcurrencyGauge w0 + standing outbound (p_goroutines p);
  sound_logs : logs (p_world p) = logs w0;
  sound_calls : Z.of_nat (length (calls (p_world p)))
                = Z.of_nat (length (calls w0)) + standing answered (p_goroutines p)
}.

(** Two processes that differ at most in the requests the delegate was
    handed, not in their number. *)
Definition same_but_calls (w w' : World) : Prop :=
  clock w' = clock w /\ ticks w' = ticks w
  /\ pendingOutboundConnectionsGauge w' = pendingOutboundConnectionsGauge w
  /\ outboundConcurrencyGauge w' = outboundConcurrencyGauge w
  /\ logs w' = logs w /\ metrics w' = metrics w
  /\ length (calls w') = length (calls w).

(** Two pools that differ at most in the contexts the requests carry and
    in what the delegate made of them. *)
Definition alike (p q : Pool) : Prop :=
  p_transport q = p_transport p
  /\ p_queue q = p_queue p
  /\ same_but_calls (p_world p) (p_world q)
  /\ Forall2 (fun g h => req_URL h.1 = req_URL g.1 /\ point h.2 = point g.2)
       (p_goroutines p) (p_goroutines q).

(** *** Cache response modes *)

Definition CacheResponseMode := string.

Definition CacheModeHeader := "X-Cache-Mode".
Definition ModeError : CacheResponseMode := "ERROR".
Definition ModeNoStore : CacheResponseMode := "NO-STORE".
Definition ModeMiss : CacheResponseMode := "MISS".
Definition ModeChanged : CacheResponseMode := "CHANGED".
Definition ModeCoalesced : CacheResponseMode := "COALESCED".
Definition ModeRevalidated : CacheResponseMode := "REVALIDATED".
Definition cacheEntryCreationDateHeader := "X-PROW-REQUEST-DATE".
Definition TokenBudgetIdentifierHeader := "X-PROW-GHCACHE-TOKEN-BUDGET-IDENTIFIER".
Definition TokenExpiryAtHeader := "X-PROW-TOKEN-EXPIRES-AT".

Definition CacheModeIsFree (mode : CacheResponseMode) : bool :=
if String.eqb mode ModeCoalesced then true
else if String.eqb mode ModeRevalidated then true
else if String.eqb mode ModeError then true
else false.

Definition cacheResponseMode (headers : http.Header) : CacheResponseMode :=
if strings.Contains (http.Get headers "Cache-Control") "no-store" then ModeNoStore
else if strings.Contains (http.Get headers "Status") "304 Not Modified" then ModeRevalidated
else if negb (String.eqb (http.Get headers "X-Conditional-Request") "") then ModeChanged
else ModeMiss.

(** *** The upstream policy transport *)

(** [upstreamTransport] changes response headers from upstream before
    they reach the cache layer in order to force the caching policy. *)
Record upstreamTransport := {
  u_delegate : RoundTripper;
  u_hasher : Request -> string
}.

(** The test on [req.URL.Path] that tells the v4 API from the v3 API. *)
Definition isGraphQL (req : Request) : bool :=
  strings.HasPrefix (Path (req_URL req)) "graphql"
  || strings.HasPrefix (Path (req_URL req)) "/graphql".

(** [upstreamTransport.RoundTrip].  A delegate that answers with neither a
    response nor an error makes the method dereference a nil pointer. *)
Definition upstreamTransport_RoundTrip (u : upstreamTransport) (req : Request)
  : M RoundTripResult :=
  let etag := http.Get (req_Header req) "if-none-match" in
  let tokenBudgetName :=
    let val := http.Get (req_Header req) TokenBudgetIdentifierHeader in
    if negb (String.eqb val "") then val else u_hasher u req in
  reqStartTime <- time_Now ;;
  r <- invoke (u_delegate u) req ;;
  match r with
  | (_, Some err) =>
      now <- time_Now ;;
      ghmetrics (RequestTimeoutMetrics tokenBudgetName (Path (req_URL req))
                   (http.Get (req_Header req) "User-Agent") reqStartTime now) ;;;
      logrus {| level := "warning";
                message := "Error from upstream (GitHub).";
                fields := [("cache-key", URL_String (req_URL req))];
                log_err := Some err |} ;;;
      ret (None, Some err)
  | (None, None) =>
      _ <- time_Now ;;
      panic
  | (Some resp, None) =>
      responseTime <- time_Now ;;
      let roundTripTime := time.Sub responseTime reqStartTime in
      resp <- (if 400 <=? StatusCode resp
               then ret (Header_Set resp "Cache-Control" "no-store")
               else
                 let resp := Header_Set resp "Cache-Control" "no-cache" in
                 if negb (StatusCode resp =? http.StatusNotModified)
                 then now <- time_Now ;;
                      ret (Header_Set resp cacheEntryCreationDateHeader
                             (strconv.Itoa (time.Unix now)))
                 else ret resp) ;;
      let resp := if negb (String.eqb etag "")
                  then Header_Set resp "X-Conditional-Request" etag
                  else resp in
      let resp := if isGraphQL req
                  then Header_Set resp "Cache-Control" "no-store"
                  else resp in
      let apiVersion := if isGraphQL req then "v4" else "v3" in
      ghmetrics (GitHubTokenMetrics tokenBudgetName apiVersion (resp_Header resp)
                   reqStartTime responseTime) ;;;
      ghmetrics (GitHubRequestMetrics tokenBudgetName (Path (req_URL req))
                   (strconv.Itoa (StatusCode resp))
                   (http.Get (req_Header req) "User-Agent") roundTripTime) ;;;
      ret (Some resp, None)
  end.

(** The response as [upstreamTransport.RoundTrip] hands it on: the header
    rewrites of the method, in its order, on the response [resp] of the
    delegate; [stamp] is the Unix time read for the creation date. *)
Definition leaving (req : Request) (stamp : Z) (resp : Response) : Response :=
  let etag := http.Get (req_Header req) "if-none-match" in
  let r1 := if 400 <=? StatusCode resp
            then Header_Set resp "Cache-Control" "no-store"
            else if negb (StatusCode resp =? http.StatusNotModified)
                 then Header_Set (Header_Set resp "Cache-Control" "no-cache")
                        cacheEntryCreationDateHeader (strconv.Itoa stamp)
                 else Header_Set resp "Cache-Control" "no-cache" in
  let r2 := if negb (String.eqb etag "")
            then Header_Set r1 "X-Conditional-Request" etag else r1 in
  if isGraphQL req then Header_Set r2 "Cache-Control" "no-store" else r2.

(** The name metrics are recorded under: the budget identifier of the
    request if it has one, the hash of the request otherwise. *)
Definition tokenBudgetName (u : upstreamTransport) (req : Request) : string :=
  let val := http.Get (req_Header req) TokenBudgetIdentifierHeader in
  if negb (String.eqb val "") then val else u_hasher u req.

(** The headers the policy is about, as the claims read them. *)
Definition cacheControl (resp : Response) : option (list string) :=
  resp_Header resp !! textproto.CanonicalMIMEHeaderKey "Cache-Control".

Definition creationDate (resp : Response) : option (list string) :=
  resp_Header resp !! textproto.CanonicalMIMEHeaderKey cacheEntryCreationDateHeader.

(** The policy as the claim words it, for requests off the graphql path:
    errors leave without the creation date, a 200 leaves with it, a 304
    without. *)
Definition policy_as_claimed : Prop :=
  forall (u : upstreamTransport) (req : Request) (w : World) (resp : Response),
    isGraphQL req = false ->
    u_delegate u req (length (calls w)) = (Some resp, None) ->
    exists resp' w',
      upstreamTransport_RoundTrip u req w = (Returns (Some resp', None), w')
      /\ (400 <= StatusCode resp ->
          cacheControl resp' = Some ["no-store"] /\ creationDate resp' = None)
      /\ (StatusCode resp = 200 ->
          cacheControl resp' = Some ["no-cache"] /\ is_Some (creationDate resp'))
      /\ (StatusCode resp = http.StatusNotModified ->
          cacheControl resp' = Some ["no-cache"] /\ creationDate resp' = None).

(** *** Partition metadata and its JSON form *)

Module json.

(** The double quote, byte 34. *)
Definition quote : ascii := ascii_of_nat 34.

Definition backslash : ascii := ascii_of_nat 92.

(** A byte that stands for itself inside a JSON string. *)
Definition plainByte (c : ascii) : bool :=
  negb (Ascii.eqb c quote) && negb (Ascii.eqb c backslash) && (32 <=? nat_of_ascii c)%nat.

Fixpoint plain (s : string) : bool :=
  match s with
  | EmptyString => true
  | String c s' => plainByte c && plain s'
  end.

(** A JSON string with its quotes. *)
Definition quoted (s : string) : string := String quote (s +:+ String quote "").

(** The bytes up to the closing quote, which must end the input. *)
Fixpoint unquoteBody (s : string) : option string :=
  match s with
  | EmptyString => None
  | String c s' =>
      if Ascii.eqb c quote then (if String.eqb s' "" then Some "" else None)
      else if plainByte c then String c <$> unquoteBody s'
      else None
  end.

(** Decoding a JSON string into a Go string, for strings without escape
    sequences; a string with a backslash, which Go would decode, is
    rejected here. *)
Definition unquote (s : string) : option string :=
  match s with
  | String c s' => if Ascii.eqb c quote then unquoteBody s' else None
  | EmptyString => None
  end.

(** [s] without its last byte, which must be the closing brace. *)
Fixpoint chopBrace (s : string) : option string :=
  match s with
  | EmptyString => None
  | String c EmptyString => if Ascii.eqb c "}" then Some "" else None
  | String c s' => String c <$> chopBrace s'
  end.

(** [s] without [prefix] at its head. *)
Fixpoint stripPrefix (prefix s : string) : option string :=
  match prefix, s with
  | EmptyString, _ => Some s
  | String c prefix', String c' s' =>
      if Ascii.eqb c c' then stripPrefix prefix' s' else None
  | String _ _, EmptyString => None
  end.

End json.

Module metav1.

(** [metav1.Time.MarshalJSON]: the zero time is [null], any other time
    its RFC3339 form in UTC between quotes. *)
Definition MarshalJSON (t : time.Time) : string :=
  if time.IsZero t then "null" else json.quoted (time.Format t).

(** [metav1.Time.UnmarshalJSON]; [pt.Local()] is the instant [pt]. *)
Definition UnmarshalJSON (b : string) : time.Time + error :=
  if String.eqb b "null" then inl time.zero
  else match json.unquote b with
       | None => inr "json: cannot unmarshal into Go value of type string"
       | Some str =>
           match time.Parse str with
           | Some pt => inl pt
           | None => inr ("parsing time " +:+ str)
           end
       end.

End metav1.

Definition cachePartitionMetadataFileName := ".cache_metadata.json".

Record cachePartitionMetadata := { ExpiresAt : time.Time }.

(** The member name with its quotes and colon. *)
Definition expires_at_member : string := json.quoted "expires_at" +:+ ":".

(** [json.Marshal(metadata)]: one member, named by the struct tag.
    [MarshalJSON] of [metav1.Time] has no error to report. *)
Definition json_Marshal (metadata : cachePartitionMetadata) : string :=
  "{" +:+ expires_at_member +:+ metav1.MarshalJSON (ExpiresAt metadata) +:+ "}".

(** [json.Unmarshal(raw, &metadata)] on the documents [json_Marshal]
    writes, and on the empty object, which leaves the zero value.  Package
    encoding/json reads more than that (blanks between tokens, members it
    does not know, member names in another case); such documents are
    reported as errors here. *)
Definition json_Unmarshal (raw : string) : cachePartitionMetadata + error :=
  if String.eqb raw "{}" then inl {| ExpiresAt := time.zero |}
  else match json.stripPrefix ("{" +:+ expires_at_member) raw ≫= json.chopBrace with
       | None => inr "invalid character"
       | Some value =>
           match metav1.UnmarshalJSON value with
           | inl t => inl {| ExpiresAt := t |}
           | inr err => inr err
           end
       end.

(** *** Package [path] *)

Module path.

(** The components of a slash-separated path. *)
Fixpoint split (s : string) : list string :=
  match s with
  | EmptyString => [""]
  | String c s' =>
      if Ascii.eqb c "/" then "" :: split s'
      else match split s' with
           | h :: t => String c h :: t
           | [] => [String c ""]
           end
  end.

(** [path.Clean], on the components of a rooted path: empty components
    and [.] go, [..] takes the component before it along (at the root there
    is none to take).  [seen] holds the components kept so far, last
    first. *)
Fixpoint clean (seen cs : list string) : list string :=
  match cs with
  | [] => rev seen
  | c :: cs' =>
      if String.eqb c "" || String.eqb c "." then clean seen cs'
      else if String.eqb c ".." then clean (tail seen) cs'
      else clean (c :: seen) cs'
  end.

Definition Clean (cs : list string) : list string := clean [] cs.

(** [path.Join(dir, elem...)] for a rooted [dir] given by its components:
    the elements are put together with slashes and the whole is cleaned. *)
Definition Join (dir : list string) (elem : list string) : list string :=
  Clean (dir ++ concat (map split elem)).

(** A string that is one component of a clean path: not empty, not [.]
    or [..], without a slash. *)
Definition component (s : string) : bool :=
  negb (String.eqb s "") && negb (String.eqb s ".") && negb (String.eqb s "..")
  && match split s with [_] => true | _ => false end.

End path.

(** *** The file system *)

Module os.

(** A path is the list of its components below the root, a relative path
    being taken from the working directory; [path.Join] of clean components
    puts them one after the other ([Join_components] below). *)
Abbreviation path := (list string).

(** A file with its content, or a directory with its named entries. *)
Inductive Node :=
| File (content : string)
| Dir (entries : list (string * Node)).

(** The entry called [name]. *)
Fixpoint find (name : string) (entries : list (string * Node)) : option Node :=
  match entries with
  | [] => None
  | (n, node) :: entries' => if String.eqb n name then Some node else find name entries'
  end.

(** The entries but the one called [name]. *)
Fixpoint without (name : string) (entries : list (string * Node)) : list (string * Node) :=
  match entries with
  | [] => []
  | (n, node) :: entries' =>
      if String.eqb n name then without name entries'
      else (n, node) :: without name entries'
  end.

(** The entries with [f] applied to the one called [name]. *)
Definition alter (name : string) (f : Node -> Node) (entries : list (string * Node))
  : list (string * Node) :=
  map (fun e => if String.eqb e.1 name then (e.1, f e.2) else e) entries.

(** The node a path leads to. *)
Fixpoint lookup (p : path) (n : Node) : option Node :=
  match p with
  | [] => Some n
  | c :: p' =>
      match n with
      | Dir entries =>
          match find c entries with
          | Some m => lookup p' m
          | None => None
          end
      | File _ => None
      end
  end.

(** The tree without what [p] leads to. *)
Fixpoint remove (p : path) (n : Node) : Node :=
  match p with
  | [] => n
  | c :: p' =>
      match n with
      | Dir entries =>
          match p' with
          | [] => Dir (without c entries)
          | _ :: _ => Dir (alter c (remove p') entries)
          end
      | File _ => n
      end
  end.

(** The tree with the directories along [p] made where they are missing;
    [None] where a file is in the way. *)
Fixpoint mkdirAll (p : path) (n : Node) : option Node :=
  match n with
  | File _ => None
  | Dir entries =>
      match p with
      | [] => Some n
      | c :: p' =>
          match find c entries with
          | Some m => m' ← mkdirAll p' m; Some (Dir (alter c (fun _ => m') entries))
          | None => m' ← mkdirAll p' (Dir []); Some (Dir (entries ++ [(c, m')]))
          end
      end
  end.

(** The tree with file [p] holding [data], created if need be in a
    directory that exists; [None] where that cannot be done. *)
Fixpoint writeFile (p : path) (data : string) (n : Node) : option Node :=
  match p, n with
  | [c], Dir entries =>
      match find c entries with
      | Some (Dir _) => None
      | Some (File _) => Some (Dir (alter c (fun _ => File data) entries))
      | None => Some (Dir (entries ++ [(c, File data)]))
      end
  | c :: p', Dir entries =>
      match find c entries with
      | Some m => m' ← writeFile p' data m; Some (Dir (alter c (fun _ => m') entries))
      | None => None
      end
  | _, _ => None
  end.

(** What [before] led to is still there in [after]: a file with its
    content, a directory as a directory. *)
Definition kept (before after : option Node) : Prop :=
  match before with
  | None => True
  | Some (File content) => after = Some (File content)
  | Some (Dir _) => exists entries, after = Some (Dir entries)
  end.

(** The disk: the tree, and the operations that fail for reasons of
    their own (permissions, input/output errors).  [readDirCut] says after
    how many entries the listing of a directory breaks off. *)
Record Disk := {
  root : Node;
  readFails : path -> bool;
  removeFails : path -> bool;
  writeFails : path -> bool;
  readDirCut : path -> option nat
}.

Definition with_root (d : Disk) (n : Node) : Disk :=
  {| root := n; readFails := readFails d; removeFails := removeFails d;
     writeFails := writeFails d; readDirCut := readDirCut d |}.

Record DirEntry := { Name : string; IsDir : bool }.

Definition dirEntry (e : string * Node) : DirEntry :=
  {| Name := e.1; IsDir := match e.2 with Dir _ => true | File _ => false end |}.

(** [os.ReadDir]: the entries sorted by name; with an error, what was
    read before it. *)
Definition ReadDir (name : path) (d : Disk) : list DirEntry * option error :=
  match lookup name (root d) with
  | Some (Dir entries) =>
      let listing := merge_sort (fun a b => String.leb (Name a) (Name b))
                       (map dirEntry entries) in
      match readDirCut d name with
      | None => (listing, None)
      | Some k => (take k listing, Some "input/output error")
      end
  | Some (File _) => ([], Some "not a directory")
  | None => ([], Some "no such file or directory")
  end.

(** [ioutil.ReadFile]. *)
Definition ReadFile (name : path) (d : Disk) : string + error :=
  if readFails d name then inr "permission denied"
  else match lookup name (root d) with
       | Some (File content) => inl content
       | Some (Dir _) => inr "is a directory"
       | None => inr "no such file or directory"
       end.

(** [os.RemoveAll]: no error when there is nothing to remove.  A removal
    that fails is taken to leave the tree as it was. *)
Definition RemoveAll (name : path) (d : Disk) : Disk * option error :=
  if removeFails d name then (d, Some "permission denied")
  else (with_root d (remove name (root d)), None).

(** [os.MkdirAll]. *)
Definition MkdirAll (name : path) (d : Disk) : Disk * option error :=
  if writeFails d name then (d, Some "permission denied")
  else match mkdirAll name (root d) with
       | Some n => (with_root d n, None)
       | None => (d, Some "not a directory")
       end.

(** [ioutil.WriteFile]. *)
Definition WriteFile (name : path) (data : string) (d : Disk) : Disk * option error :=
  if writeFails d name then (d, Some "permission denied")
  else match writeFile name data (root d) with
       | Some n => (with_root d n, None)
       | None => (d, Some "no such file or directory")
       end.

(** The faults of two disks are the same. *)
Definition sameFaults (d d' : Disk) : Prop :=
  readFails d' = readFails d
  /\ removeFails d' = removeFails d
  /\ readDirCut d' = readDirCut d.

(** A disk on which reading, listing and removing do not fail for
    reasons of their own. *)
Definition healthy (d : Disk) : Prop :=
  forall p, readFails d p = false /\ removeFails d p = false /\ readDirCut d p = None.

(** [filepath.Dir] of a path with a last component. *)
Definition filepath_Dir (p : path) : path := removelast p.

(** How a path is printed. *)
Definition path_String (p : path) : string :=
  fold_right (fun c rest => "/" +:+ c +:+ rest) "" p.

End os.

(** *** The pruner *)

(** What a sweep acts on: the disk, the clock handed to [Prune] (the
    count of the calls made of it) and the log. *)
Record Sweep := {
  disk : os.Disk;
  nowCalls : nat;
  sweepLog : list LogEntry
}.

Definition sweep_log (e : LogEntry) (st : Sweep) : Sweep :=
  {| disk := disk st; nowCalls := nowCalls st; sweepLog := sweepLog st ++ [e] |}.

Section Pruner.

(** [json.Unmarshal] into a [cachePartitionMetadata]: any decoder, which
    covers the documents [json_Unmarshal] above leaves out. *)
Variable Unmarshal : string -> cachePartitionMetadata + error.

(** The clock handed to [Prune]: what its successive calls return. *)
Variable now : nat -> time.Time.

(** The body of the inner loop of [Prune], for one entry of [base]. *)
Definition pruneCandidate (base : os.path) (st : Sweep) (cachePartitionCandidate : os.DirEntry)
  : Sweep :=
  if negb (os.IsDir cachePartitionCandidate) then st
  else
    let metadataPath :=
      base ++ [os.Name cachePartitionCandidate; cachePartitionMetadataFileName] in
    match os.ReadFile metadataPath (disk st) with
    | inr _ => st
    | inl raw =>
        match Unmarshal raw with
        | inr err =>
            sweep_log {| level := "error";
                         message := "failed to deserialize metadata file";
                         fields := [("filepath", os.path_String metadataPath)];
                         log_err := Some err |} st
        | inl metadata =>
            let t := now (nowCalls st) in
            let st := {| disk := disk st; nowCalls := S (nowCalls st);
                         sweepLog := sweepLog st |} in
            if time.After (ExpiresAt metadata) t then st
            else
              let paritionPath := os.filepath_Dir metadataPath in
              let st :=
                sweep_log {| level := "info";
                             message := "Cleaning up expired cache parition";
                             fields := [("path", os.path_String paritionPath);
                                        ("expiresAt", time.Format (ExpiresAt metadata))];
                             log_err := None |} st in
              match os.RemoveAll paritionPath (disk st) with
              | (d, None) =>
                  {| disk := d; nowCalls := nowCalls st; sweepLog := sweepLog st |}
              | (d, Some err) =>
                  sweep_log {| level := "error";
                               message := "failed to delete expired cache parition";
                               fields := [("path", os.path_String paritionPath)];
                               log_err := Some err |}
                    {| disk := d; nowCalls := nowCalls st; sweepLog := sweepLog st |}
              end
        end
    end.

(** The body of the outer loop: the directory is listed once, and what
    was listed is gone through even when the listing reported an error. *)
Definition pruneRoot (baseDir : os.path) (st : Sweep) (dir : string) : Sweep :=
  let base := baseDir ++ [dir] in
  let '(cachePartitionCandidates, err) := os.ReadDir base (disk st) in
  let st := match err with
            | Some err => sweep_log {| level := "warning"; message := "os.ReadDir failed";
                                       fields := []; log_err := Some err |} st
            | None => st
            end in
  foldl (pruneCandidate base) st cachePartitionCandidates.

Definition Prune (baseDir : os.path) (st : Sweep) : Sweep :=
  foldl (pruneRoot baseDir) st ["data"; "temp"].

(** The metadata at [metadataPath] reads and decodes, and its expiry is
    at or before whatever the clock says. *)
Definition expired (metadataPath : os.path) (d : os.Disk) : Prop :=
  exists raw metadata,
    os.ReadFile metadataPath d = inl raw
    /\ Unmarshal raw = inl metadata
    /\ forall k, time.After (ExpiresAt metadata) (now k) = false.

(** The metadata reads and decodes, and its expiry is after whatever the
    clock says. *)
Definition fresh (metadataPath : os.path) (d : os.Disk) : Prop :=
  exists raw metadata,
    os.ReadFile metadataPath d = inl raw
    /\ Unmarshal raw = inl metadata
    /\ forall k, time.After (ExpiresAt metadata) (now k) = true.

(** The metadata does not read. *)
Definition unreadable (metadataPath : os.path) (d : os.Disk) : Prop :=
  exists err, os.ReadFile metadataPath d = inr err.

(** The metadata reads and does not decode. *)
Definition undecodable (metadataPath : os.path) (d : os.Disk) : Prop :=
  exists raw err, os.ReadFile metadataPath d = inl raw /\ Unmarshal raw = inr err.

(** One of the three reasons to pass a partition over. *)
Definition spared (metadataPath : os.path) (d : os.Disk) : Prop :=
  fresh metadataPath d \/ unreadable metadataPath d \/ undecodable metadataPath d.

End Pruner.

(** [writecachePartitionMetadata]: nothing to write without an expiry;
    otherwise the document goes to both directories, and every step that
    fails adds to the errors returned (none stands for nil). *)
Definition writecachePartitionMetadata (basePath tempDir : os.path)
    (expiresAt : option time.Time) (d : os.Disk) : os.Disk * list error :=
  match expiresAt with
  | None => (d, [])
  | Some expiresAt =>
      let metadata := {| ExpiresAt := expiresAt |} in
      let serialized := json_Marshal metadata in
      foldl (fun '(d, errs) destBase =>
               let '(d, err) := os.MkdirAll destBase d in
               let errs := match err with
                           | Some err => errs ++ ["failed to create dir " +:+
                                                  os.path_String destBase +:+ ": " +:+ err]
                           | None => errs
                           end in
               let dest := destBase ++ [cachePartitionMetadataFileName] in
               let '(d, err) := os.WriteFile dest serialized d in
               let errs := match err with
                           | Some err => errs ++ ["failed to write " +:+
                                                  os.path_String dest +:+ ": " +:+ err]
                           | None => errs
                           end in
               (d, errs))
            (d, []) [basePath; tempDir]
  end.

(** The partition creator that [NewDiskCache] hands on, as far as the
    disk goes: the metadata is written for the directories of the partition
    under [data] and [temp].  The errors returned are what the creator logs
    as a warning; the disk cache it then opens is not part of this model.
    [partitionKey] is whatever string the caller hands over: [path.Join]
    takes it apart at its slashes. *)
Definition diskPartition (cacheDir : os.path) (partitionKey : string)
    (expiresAt : option time.Time) (d : os.Disk) : os.Disk * list error :=
  let basePath := path.Join cacheDir ["data"; partitionKey] in
  let tempDir := path.Join cacheDir ["temp"; partitionKey] in
  writecachePartitionMetadata basePath tempDir expiresAt d.

(** The round trip as the claim words it: every expiry comes back, to the
    second. *)
Definition metadata_roundtrip_as_claimed : Prop :=
  forall expiresAt : time.Time,
    exists metadata,
      json_Unmarshal (json_Marshal {| ExpiresAt := expiresAt |}) = inl metadata
      /\ time.Unix (ExpiresAt metadata) = time.Unix expiresAt.

(** *** Checks by evaluation *)

(** [p] holds of the [n] numbers from [z] on. *)
Fixpoint forallFrom (z : Z) (n : nat) (p : Z -> bool) : bool :=
  match n with
  | O => true
  | S n' => p z && forallFrom (z + 1) n' p
  end.

(** [p] holds of every number from 0 up to, not counting, [n]. *)
Definition forallBelow (n : nat) (p : Z -> bool) : bool := forallFrom 0 n p.

(** Day [r] of a cycle of 400 years: its date is a date, and counting the
    days up to that date gives [r] back. *)
Definition cycleDayOK (r : Z) : bool :=
  let '(y, yday) := time.cycleDate r in
  let year := 1 + y in
  let '(month, day) := time.monthDay (time.monthLengths (time.isLeap year)) 1 yday in
  (0 <=? y) && (y <? 400)
  && (1 <=? month) && (month <=? 12)
  && (1 <=? day) && (day <=? time.daysIn month year) && (day <=? 31)
  && (time.daysSinceYear1 year + time.daysBefore month year + (day - 1) =? r).

Definition digits2 (n : Z) : string :=
  String (time.digit (n / 10)) (String (time.digit (n mod 10)) "").

Definition digits4 (n : Z) : string :=
  String (time.digit (n / 1000)) (String (time.digit (n / 100 mod 10)) (digits2 (n mod 100))).

(** *** Sample values for the examples *)

Definition sample_world : World :=
  {| clock := fun n => {| time.sec := 1600000000 + Z.of_nat n; time.nsec := 0 |};
     ticks := 0;
     pendingOutboundConnectionsGauge := 0;
     outboundConcurrencyGauge := 0;
     logs := []; metrics := []; calls := [] |}.

Definition sample_request (p : string) (ctx : context.Context) : Request :=
  {| req_Method := "GET";
     req_URL := {| Scheme := "https"; Host := "api.github.com"; Path := p; RawQuery := "" |};
     req_Header := ∅;
     req_Context := ctx |}.

(** A response that already carries a creation date. *)
Definition sample_stale_404 : Response :=
  {| StatusCode := 404;
     resp_Header := <["X-Prow-Request-Date" := ["1600000000"]]> ∅;
     Body := "Not Found" |}.

Definition sample_response (status : Z) : Response :=
  {| StatusCode := status;
     resp_Header := <["Cache-Control" := ["private, max-age=60, s-maxage=60"]]> ∅;
     Body := "{}" |}.

(** A transport whose delegate answers every request the same way. *)
Definition sample_upstream (answer : RoundTripResult) : upstreamTransport :=
  {| u_delegate := fun _ _ => answer; u_hasher := fun _ => "hash" |}.

(** The first instant of year 10000. *)
Definition year10000 : time.Time := {| time.sec := 253402300800; time.nsec := 0 |}.

Definition sample_expiry : time.Time := {| time.sec := 1600000000; time.nsec := 123456789 |}.

Definition at_second (s : Z) : time.Time := {| time.sec := s; time.nsec := 0 |}.

(** A clock stopped at 2020-09-13T12:26:40Z. *)
Definition sample_now : nat -> time.Time := fun _ => at_second 1600000000.

Definition expired_document : string := json_Marshal {| ExpiresAt := at_second 1500000000 |}.
Definition fresh_document : string := json_Marshal {| ExpiresAt := at_second 1700000000 |}.

(** A cache directory with five partitions under [data]: one expired
    that cannot be removed, one whose metadata is no JSON, one not yet
    expired, one expired, and one without metadata; the expired one is
    under [temp] as well. *)
Definition sample_tree : os.Node :=
  os.Dir [("cache", os.Dir [
    ("data", os.Dir [
       ("pat", os.Dir [("blob", os.File "body")]);
       ("old", os.Dir [(cachePartitionMetadataFileName, os.File expired_document);
                       ("blob", os.File "body")]);
       ("new", os.Dir [(cachePartitionMetadataFileName, os.File fresh_document)]);
       ("bad", os.Dir [(cachePartitionMetadataFileName, os.File "expires_at")]);
       ("a-stuck", os.Dir [(cachePartitionMetadataFileName, os.File expired_document)]);
       ("README", os.File "not a partition")]);
    ("temp", os.Dir [
       ("old", os.Dir [(cachePartitionMetadataFileName, os.File expired_document)])])])].

Definition sample_disk : os.Disk :=
  {| os.root := sample_tree;
     os.readFails := fun _ => false;
     os.removeFails := fun p => bool_decide (p = ["cache"; "data"; "a-stuck"]);
     os.writeFails := fun _ => false;
     os.readDirCut := fun _ => None |}.

Definition sample_sweep : Sweep := {| disk := sample_disk; nowCalls := 0; sweepLog := [] |}.

(** A conditional request that names its token budget. *)
Definition sample_conditional_request : Request :=
  {| req_Method := "GET";
     req_URL := {| Scheme := "https"; Host := "api.github.com";
                   Path := "/repos/o/r/pulls"; RawQuery := "" |};
     req_Header := <["If-None-Match" := ["W/etag"]]>
                     (<["X-Prow-Ghcache-Token-Budget-Identifier" := ["bot"]]> ∅);
     req_Context := context.Background |}.

(** A disk with nothing on it and nothing that fails. *)
Definition empty_disk : os.Disk :=
  {| os.root := os.Dir [];
     os.readFails := fun _ => false;
     os.removeFails := fun _ => false;
     os.writeFails := fun _ => false;
     os.readDirCut := fun _ => None |}.

(** A cache directory with one partition whose metadata is the empty
    object. *)
Definition sample_null_sweep : Sweep :=
  {| disk := os.with_root empty_disk
       (os.Dir [("cache", os.Dir [("data", os.Dir [
          ("p", os.Dir [(cachePartitionMetadataFileName, os.File "{}")])])])]);
     nowCalls := 0; sweepLog := [] |}.

(** The disk after a partition has been made on the empty disk. *)
Definition sample_partition_disk : os.Disk :=
  (diskPartition ["cache"] "k" (Some sample_expiry) empty_disk).1.

(** A delegate that refuses every request. *)
Definition sample_delegate : RoundTripper := fun _ _ => (None, Some "refused").

(** Two callers of a transport with room for one call: the first runs up
    to its deferred [Release], the second, whose context is cancelled, up to
    where it is parked. *)
Definition sample_events : list Event :=
  [Call (sample_request "/user" context.Background);
   Call (sample_request "/repos" (context.WithCancel true))]
  ++ replicate 6 (Next 0%nat) ++ replicate 2 (Next 1%nat).

(** ** Part II: the properties *)

Section Classifier.

Example canonical_creation_date :
  textproto.CanonicalMIMEHeaderKey cacheEntryCreationDateHeader = "X-Prow-Request-Date".
Proof. reflexivity. Qed.

Example canonical_if_none_match :
  textproto.CanonicalMIMEHeaderKey "if-none-match" = "If-None-Match".
Proof. reflexivity. Qed.

Example classify_precedence_sample :
  cacheResponseMode
    (<["Cache-Control" := ["private, no-store"]]>
      (<["Status" := ["304 Not Modified"]]>
        (<["X-Conditional-Request" := ["abc"]]> ∅))) = "NO-STORE".
Proof. reflexivity. Qed.

(** C4. For every header map the classifier answers by the first rule
    that applies, in the order: [Cache-Control] contains [no-store]
    gives NO-STORE; a [Status] that says [304 Not Modified] gives
    REVALIDATED; a conditional-request marker gives CHANGED; otherwise
    MISS.  The answer is therefore one of these four, pairwise distinct,
    modes and is never ERROR.  The classifier is a function of the
    header map alone: it reads the map and has nothing else to act on. *)
Theorem cacheResponseMode_precedence (headers : http.Header) :
  let noStore := strings.Contains (http.Get headers "Cache-Control") "no-store" in
  let notModified := strings.Contains (http.Get headers "Status") "304 Not Modified" in
  let marker := negb (String.eqb (http.Get headers "X-Conditional-Request") "") in
  cacheResponseMode headers =
    (if noStore then ModeNoStore
     else if notModified then ModeRevalidated
     else if marker then ModeChanged
     else ModeMiss)
  /\ In (cacheResponseMode headers) [ModeNoStore; ModeRevalidated; ModeChanged; ModeMiss]
  /\ NoDup [ModeNoStore; ModeRevalidated; ModeChanged; ModeMiss]
  /\ cacheResponseMode headers <> ModeError.
Proof.
  cbv zeta. unfold cacheResponseMode.
  split; [reflexivity|].
  split; [|split].
  - repeat case_match; simpl; tauto.
  - apply (bool_decide_unpack _). vm_compute. exact I.
  - repeat case_match; discriminate.
Qed.

End Classifier.

Section Throttling.

Context {S : Type} `{Semaphore S}.

Implicit Types (c : throttlingTransport S) (req : Request) (w : World).

(** What one round trip does to the pending gauge: nothing when the
    caller was admitted, one more otherwise. *)
Lemma pending_gauge_delta c req w :
  pendingOutboundConnectionsGauge (throttlingTransport_RoundTrip c req w).2 =
  pendingOutboundConnectionsGauge w +
  match (Acquire context.Background 1 (c_sem c)).1 with AcqNil => 0 | _ => 1 end.
Proof.
  unfold throttlingTransport_RoundTrip. simpl.
  destruct (Acquire context.Background 1 (c_sem c)) as [[| err |] s]; simpl.
  - destruct (Release 1 s); simpl; lia.
  - reflexivity.
  - reflexivity.
Qed.

(** The admitted path: both gauges are back where they were and the
    delegate got the request, once. *)
Lemma admitted_round_trip c req w s :
  Acquire context.Background 1 (c_sem c) = (AcqNil, s) ->
  let w' := (throttlingTransport_RoundTrip c req w).2 in
  pendingOutboundConnectionsGauge w' = pendingOutboundConnectionsGauge w
  /\ outboundConcurrencyGauge w' = outboundConcurrencyGauge w
  /\ calls w' = calls w ++ [req].
Proof.
  intros Hacq. unfold throttlingTransport_RoundTrip. simpl. rewrite Hacq. simpl.
  destruct (Release 1 s); simpl; repeat split; lia.
Qed.

End Throttling.

Section ThrottlingWeighted.

(** Under the background context the semaphore of x/sync never reports
    an error: the caller is admitted or waits. *)
Lemma Weighted_Acquire_Background n s err :
  (semaphore.Weighted_Acquire context.Background n s).1 <> AcqErr err.
Proof.
  unfold semaphore.Weighted_Acquire. simpl.
  case_match; simpl; discriminate.
Qed.

(** C2, counterexample. One slot, taken; the caller's context is already
    cancelled.  The round trip does not come back with an error: the
    caller stays parked in [Acquire], which was given the background
    context. *)
Lemma admission_not_cancelable : ~ admission_cancelable.
Proof.
  intros Hc.
  destruct (Hc (fun _ _ => (None, None)) 1
               (sample_request "/repos" (context.WithCancel true)) sample_world)
    as (err & c' & w' & Hrt & _); [lia | reflexivity |].
  unfold throttlingTransport_RoundTrip in Hrt. simpl in Hrt. discriminate Hrt.
Qed.

End ThrottlingWeighted.

Section Goroutines.

Implicit Types (p : Pool) (gs : list (Request * Stage)) (stage : Stage) (req : Request).

Lemma standing_nonneg kind gs : 0 <= standing kind gs.
Proof. induction gs as [| g gs IH]; simpl; [lia|]. destruct (kind g.2); lia. Qed.

Lemma standing_app kind gs gs' :
  standing kind (gs ++ gs') = standing kind gs + standing kind gs'.
Proof. induction gs as [| g gs IH]; simpl; [reflexivity|]. rewrite IH. lia. Qed.

Lemma standing_place kind i stage' gs req stage :
  gs !! i = Some (req, stage) ->
  standing kind (place i stage' gs)
  = standing kind gs - (if kind stage then 1 else 0) + (if kind stage' then 1 else 0).
Proof.
  unfold place. revert i. induction gs as [| g gs IH]; intros [| i] Hi; try discriminate.
  - injection Hi as ->. simpl. lia.
  - simpl in Hi. cbn [alter list_alter standing].
    fold (alter (fun g : Request * Stage => (g.1, stage')) i gs).
    rewrite (IH i Hi). lia.
Qed.

Lemma standing_at kind i gs req stage :
  gs !! i = Some (req, stage) -> kind stage = true -> 1 <= standing kind gs.
Proof.
  revert i. induction gs as [| g gs IH]; intros [| i] Hi Hk; try discriminate.
  - injection Hi as ->. simpl. rewrite Hk. pose proof (standing_nonneg kind gs). lia.
  - simpl in *. specialize (IH i Hi Hk). destruct (kind g.2); lia.
Qed.

Lemma standing_none kind i gs req stage :
  standing kind gs = 0 -> gs !! i = Some (req, stage) -> kind stage = false.
Proof.
  intros H0 Hi. destruct (kind stage) eqn:Hk; [|reflexivity].
  pose proof (standing_at kind i gs req stage Hi Hk). lia.
Qed.

Lemma standing_some kind gs :
  1 <= standing kind gs -> exists i req stage, gs !! i = Some (req, stage) /\ kind stage = true.
Proof.
  induction gs as [| [req stage] gs IH]; simpl; [lia|].
  destruct (kind stage) eqn:Hk.
  - intros _. exists 0%nat, req, stage. split; [reflexivity | exact Hk].
  - intros H1. destruct IH as (i & req' & stage' & Hi & Hk'); [lia|].
    exists (S i), req', stage'. split; assumption.
Qed.

Lemma standing_le kind kind' gs :
  (forall stage, kind stage = true -> kind' stage = true) ->
  standing kind gs <= standing kind' gs.
Proof.
  intros Himp. induction gs as [| g gs IH]; simpl; [lia|].
  destruct (kind g.2) eqn:Hk; [rewrite (Himp _ Hk)|destruct (kind' g.2)]; lia.
Qed.

Lemma lookup_place_eq i stage' gs req stage :
  gs !! i = Some (req, stage) -> place i stage' gs !! i = Some (req, stage').
Proof. intros Hi. unfold place. rewrite list_lookup_alter_eq, Hi. reflexivity. Qed.

Lemma lookup_place_ne i j stage' gs : i <> j -> place i stage' gs !! j = gs !! j.
Proof. intros Hne. unfold place. apply list_lookup_alter_ne. exact Hne. Qed.

(** A goroutine found at a stage after another was moved. *)
Lemma lookup_place_inv i j stage' gs req stage :
  place i stage' gs !! j = Some (req, stage) ->
  (j = i /\ stage = stage') \/ (j <> i /\ gs !! j = Some (req, stage)).
Proof.
  intros Hj. destruct (decide (j = i)) as [-> | Hne].
  - left. split; [reflexivity|]. unfold place in Hj. rewrite list_lookup_alter_eq in Hj.
    destruct (gs !! i) as [[req0 stage0]|]; simpl in Hj; congruence.
  - right. split; [exact Hne|]. rewrite lookup_place_ne in Hj by congruence. exact Hj.
Qed.

Lemma notifyWaiters_full sz c ws :
  sz - c < 1 -> (forall n, In n ws -> 1 <= n) -> semaphore.notifyWaiters sz c ws = (c, ws).
Proof.
  intros Hfull Hws. destruct ws as [| n ws]; [reflexivity|]. simpl.
  assert (Hn : 1 <= n) by (apply Hws; left; reflexivity).
  assert (H1 : (sz - c <? n) = true) by (apply Z.ltb_lt; lia).
  rewrite H1. reflexivity.
Qed.

Lemma In_replicate (n : Z) m x : In x (replicate m n) -> x = n.
Proof. induction m as [| m IH]; simpl; [tauto|]. intros [<- | H]; auto. Qed.

End Goroutines.

Section Soundness.

Variable maxConcurrency : Z.
Variable delegate : RoundTripper.
Variable w0 : World.

Implicit Types (p : Pool) (gs : list (Request * Stage)) (stage : Stage) (req : Request).

Lemma pool_Sound :
  Sound maxConcurrency delegate w0 (pool (newThrottlingTransport maxConcurrency delegate) w0).
Proof.
  constructor; simpl; try reflexivity; try lia.
  - congruence.
  - constructor.
  - intros j Hj. inversion Hj.
  - intros _ j req Hj. discriminate.
Qed.

Lemma Call_Sound p req :
  Sound maxConcurrency delegate w0 p ->
  Sound maxConcurrency delegate w0 (happen p (Call req)).
Proof.
  intros [Hdel Hsize Hcur Hroom Hws Hfull Hnd Hq Hp Hf Hpend Hout Hlogs Hcalls].
  constructor; simpl; rewrite ?standing_app; simpl; try assumption; try lia.
  - intros j Hj. destruct (Hq j Hj) as (req' & Hl). exists req'.
    apply lookup_app_l_Some. exact Hl.
  - intros Hmax j req' Hj. apply (Hp Hmax j req').
    destruct (decide (j < length (p_goroutines p))%nat) as [Hlt | Hge].
    + rewrite lookup_app_l in Hj by exact Hlt. exact Hj.
    + rewrite lookup_app_r in Hj by lia.
      destruct (j - length (p_goroutines p))%nat; simpl in Hj; [congruence | discriminate].
Qed.

(** A goroutine that moves between stages other than [Parked], the
    semaphore and its queue left alone. *)
Lemma moved_Sound p i req stage stage' w :
  Sound maxConcurrency delegate w0 p ->
  p_goroutines p !! i = Some (req, stage) ->
  stage <> Parked -> stage' <> Parked ->
  holding stage' = holding stage ->
  failed stage' = false ->
  pendingOutboundConnectionsGauge w
  = pendingOutboundConnectionsGauge (p_world p)
    - (if pending stage then 1 else 0) + (if pending stage' then 1 else 0) ->
  outboundConcurrencyGauge w
  = outboundConcurrencyGauge (p_world p)
    - (if outbound stage then 1 else 0) + (if outbound stage' then 1 else 0) ->
  logs w = logs (p_world p) ->
  Z.of_nat (length (calls w))
  = Z.of_nat (length (calls (p_world p)))
    - (if answered stage then 1 else 0) + (if answered stage' then 1 else 0) ->
  Sound maxConcurrency delegate w0 (moved p i stage' w).
Proof.
  intros [Hdel Hsize Hcur Hroom Hws Hfull Hnd Hq Hp Hf Hpend Hout Hlogs Hcalls]
         Hi Hnp Hnp' Hh Hfl Hpw How Hlw Hcw.
  pose proof (standing_none failed i _ _ _ Hf Hi) as Hfs.
  constructor; simpl; rewrite ?(standing_place _ i stage' _ req stage Hi);
    rewrite ?Hh, ?Hfl, ?Hfs; try assumption; try lia; try congruence.
  - intros j Hj. destruct (Hq j Hj) as (req' & Hl). exists req'.
    rewrite lookup_place_ne; [exact Hl|]. intros ->. congruence.
  - intros Hmax j req' Hj.
    destruct (lookup_place_inv _ _ _ _ _ _ Hj) as [[_ Heq] | [_ Hl]]; [congruence|].
    exact (Hp Hmax j req' Hl).
Qed.

Lemma step_Sound p i p' :
  Sound maxConcurrency delegate w0 p -> step i p = Some p' ->
  Sound maxConcurrency delegate w0 p'.
Proof.
  intros HS Hstep. unfold step in Hstep.
  destruct (p_goroutines p !! i) as [[req stage]|] eqn:Hi; [|discriminate].
  pose proof HS as [Hdel Hsize Hcur Hroom Hws Hfull Hnd Hq Hp Hf Hpend Hout Hlogs Hcalls].
  pose proof (standing_none failed i _ _ _ Hf Hi) as Hfs.
  destruct stage; try discriminate.
  - (* Entering *)
    injection Hstep as <-.
    apply (moved_Sound p i req Entering); try assumption; try discriminate;
      try reflexivity; simpl; lia.
  - (* Acquiring *)
    cbn [Acquire Weighted_Semaphore] in Hstep.
    unfold semaphore.Weighted_Acquire in Hstep. cbn [context.Err context.Done] in Hstep.
    destruct (p_transport p) as [[size cur waiters] delegate'] eqn:Hc.
    cbn [c_sem c_delegate semaphore.size semaphore.cur semaphore.waiters] in *.
    destruct ((1 <=? size - cur) && match waiters with [] => true | _ :: _ => false end)
      eqn:Hfree.
    + (* admitted at once *)
      injection Hstep as <-.
      apply andb_true_iff in Hfree as [Hroom1 Hnone]. apply Z.leb_le in Hroom1.
      assert (Hq0 : p_queue p = []).
      { destruct (p_queue p); [reflexivity|]. rewrite Hws in Hnone. discriminate. }
      constructor; cbn [p_transport p_queue p_world p_goroutines with_sem c_sem c_delegate
                        semaphore.size semaphore.cur semaphore.waiters];
        rewrite ?(standing_place _ i Granted _ req Acquiring Hi); simpl;
        try assumption; try lia.
      * rewrite Hq0. congruence.
      * intros j Hj. rewrite Hq0 in Hj. inversion Hj.
      * intros Hmax j req' Hj.
        destruct (lookup_place_inv _ _ _ _ _ _ Hj) as [[_ Heq] | [_ Hl]]; [discriminate|].
        exact (Hp Hmax j req' Hl).
    + (* parked *)
      injection Hstep as <-.
      assert (Hfull' : p_queue p <> [] \/ size - cur < 1).
      { apply andb_false_iff in Hfree as [Hlt | Hsome].
        - right. apply Z.leb_gt in Hlt. lia.
        - left. intros Hq0. rewrite Hq0 in Hws. rewrite Hws in Hsome. discriminate. }
      assert (Hni : i ∉ p_queue p).
      { intros Hin. destruct (Hq i Hin) as (req' & Hl). congruence. }
      destruct (size <? 1) eqn:Hsz.
      * (* more than the semaphore holds: not queued *)
        apply Z.ltb_lt in Hsz.
        rewrite Nat.ltb_irrefl.
        constructor; cbn [p_transport p_queue p_world p_goroutines with_sem c_sem c_delegate
                          semaphore.size semaphore.cur semaphore.waiters];
          rewrite ?(standing_place _ i Parked _ req Acquiring Hi); simpl;
          try assumption; try lia.
        intros j Hj. destruct (Hq j Hj) as (req' & Hl). exists req'.
        rewrite lookup_place_ne; [exact Hl|]. intros ->. congruence.
      * (* queued *)
        apply Z.ltb_ge in Hsz.
        cbn [semaphore.waiters]. rewrite length_app. simpl length.
        assert (Hlt : (length waiters <? length waiters + 1)%nat = true)
          by (apply Nat.ltb_lt; lia).
        rewrite Hlt.
        constructor; cbn [p_transport p_queue p_world p_goroutines with_sem c_sem c_delegate
                          semaphore.size semaphore.cur semaphore.waiters];
          rewrite ?(standing_place _ i Parked _ req Acquiring Hi); simpl;
          try assumption; try lia.
        -- rewrite Hws, length_app. simpl length.
           rewrite replicate_add. reflexivity.
        -- intros _. destruct Hfull' as [Hne | Hlt']; [apply Hfull; exact Hne | lia].
        -- apply NoDup_app. split; [exact Hnd|]. split; [|apply NoDup_singleton].
           intros j Hj Hji. apply list_elem_of_singleton in Hji. subst j. exact (Hni Hj).
        -- intros j Hj. apply elem_of_app in Hj as [Hj | Hj].
           ++ destruct (Hq j Hj) as (req' & Hl). exists req'.
              rewrite lookup_place_ne; [exact Hl|]. intros ->. congruence.
           ++ apply list_elem_of_singleton in Hj. subst j. exists req.
              apply (lookup_place_eq _ _ _ _ _ Hi).
        -- intros Hmax j req' Hj. apply elem_of_app.
           destruct (lookup_place_inv _ _ _ _ _ _ Hj) as [[-> _] | [_ Hl]].
           ++ right. apply list_elem_of_singleton. reflexivity.
           ++ left. exact (Hp Hmax j req' Hl).
  - (* Granted *)
    injection Hstep as <-.
    apply (moved_Sound p i req Granted); try assumption; try discriminate;
      try reflexivity; simpl; lia.
  - (* Counted *)
    injection Hstep as <-.
    apply (moved_Sound p i req Counted); try assumption; try discriminate;
      try reflexivity; simpl; lia.
  - (* Calling *)
    unfold invoke in Hstep. injection Hstep as <-.
    apply (moved_Sound p i req Calling); try assumption; try discriminate;
      try reflexivity; simpl; try lia.
    rewrite length_app. simpl. lia.
  - (* Answered *)
    injection Hstep as <-.
    apply (moved_Sound p i req (Answered r)); try assumption; try discriminate;
      try reflexivity; simpl; lia.
  - (* Releasing *)
    cbn [Release Weighted_Semaphore] in Hstep. unfold semaphore.Weighted_Release in Hstep.
    destruct (p_transport p) as [[size cur waiters] delegate'] eqn:Hc.
    cbn [c_sem c_delegate semaphore.size semaphore.cur semaphore.waiters] in *.
    pose proof (standing_at holding i _ _ _ Hi eq_refl) as Hone.
    assert (Hneg : (cur - 1 <? 0) = false) by (apply Z.ltb_ge; lia).
    rewrite Hneg in Hstep.
    assert (Hmax : 1 <= maxConcurrency) by lia.
    destruct (p_queue p) as [| j rest] eqn:Hqueue.
    + (* nobody waits *)
      simpl in Hws. rewrite Hws in Hstep. simpl in Hstep. injection Hstep as <-.
      constructor; cbn [p_transport p_queue p_world p_goroutines with_sem c_sem c_delegate
                        semaphore.size semaphore.cur semaphore.waiters wake foldr];
        rewrite ?(standing_place _ i (Returned r) _ req (Releasing r) Hi); simpl;
        try assumption; try lia; try congruence.
      { intros j Hj. inversion Hj. }
      intros _ j req' Hj.
      destruct (lookup_place_inv _ _ _ _ _ _ Hj) as [[_ Heq] | [_ Hl]]; [discriminate|].
      exact (Hp Hmax j req' Hl).
    + (* the head of the queue is admitted *)
      assert (Hcur' : cur = size) by (specialize (Hfull ltac:(congruence)); lia).
      simpl in Hws. rewrite Hws in Hstep. cbn [semaphore.notifyWaiters] in Hstep.
      assert (Hfit : (size - (cur - 1) <? 1) = false) by (apply Z.ltb_ge; lia).
      rewrite Hfit in Hstep.
      rewrite notifyWaiters_full in Hstep;
        [| lia | intros n Hn; apply In_replicate in Hn; lia].
      cbn [semaphore.waiters] in Hstep. rewrite length_replicate in Hstep.
      replace (length (j :: rest) - length rest)%nat with 1%nat in Hstep by (simpl; lia).
      cbn [take drop wake foldr] in Hstep. rewrite drop_0 in Hstep. injection Hstep as <-.
      apply NoDup_cons in Hnd as [Hjr Hnd].
      destruct (Hq j ltac:(left)) as (reqj & Hj).
      assert (Hij : i <> j) by (intros ->; congruence).
      assert (Hj' : place i (Returned r) (p_goroutines p) !! j = Some (reqj, Parked))
        by (rewrite lookup_place_ne by exact Hij; exact Hj).
      constructor; cbn [p_transport p_queue p_world p_goroutines with_sem c_sem c_delegate
                        semaphore.size semaphore.cur semaphore.waiters];
        rewrite ?(standing_place _ j Granted _ reqj Parked Hj');
        rewrite ?(standing_place _ i (Returned r) _ req (Releasing r) Hi); simpl;
        try assumption; try lia; try reflexivity.
      * intros k Hk. destruct (Hq k ltac:(right; exact Hk)) as (reqk & Hl). exists reqk.
        rewrite !lookup_place_ne; [exact Hl | |].
        -- intros ->. congruence.
        -- intros ->. exact (Hjr Hk).
      * intros _ k reqk Hk.
        destruct (lookup_place_inv _ _ _ _ _ _ Hk) as [[_ Heq] | [Hkj Hl]]; [discriminate|].
        destruct (lookup_place_inv _ _ _ _ _ _ Hl) as [[_ Heq] | [_ Hl']]; [discriminate|].
        specialize (Hp Hmax k reqk Hl'). apply elem_of_cons in Hp as [-> | Hp]; [congruence|].
        exact Hp.
Qed.

Lemma happen_Sound p e :
  Sound maxConcurrency delegate w0 p -> Sound maxConcurrency delegate w0 (happen p e).
Proof.
  intros HS. destruct e as [req | i]; [apply Call_Sound; exact HS|].
  simpl. destruct (step i p) as [p'|] eqn:Hstep; simpl; [|exact HS].
  exact (step_Sound _ _ _ HS Hstep).
Qed.

Lemma run_Sound events : forall p,
  Sound maxConcurrency delegate w0 p -> Sound maxConcurrency delegate w0 (run p events).
Proof.
  induction events as [| e events IH]; intros p HS; simpl; [exact HS|].
  apply IH, happen_Sound, HS.
Qed.

End Soundness.

Lemma fresh_Sound maxConcurrency delegate w events :
  Sound maxConcurrency delegate w
    (run (pool (newThrottlingTransport maxConcurrency delegate) w) events).
Proof. apply run_Sound, pool_Sound. Qed.

Section Alone.

Lemma run_Next i p p' events :
  step i p = Some p' -> run p (Next i :: events) = run p' events.
Proof. intros Hs. simpl. rewrite Hs. reflexivity. Qed.

Lemma run_Call req p events :
  run p (Call req :: events) = run (happen p (Call req)) events.
Proof. reflexivity. Qed.

Lemma run_stuck i p events :
  step i p = None -> run p (Next i :: events) = run p events.
Proof. intros Hs. simpl. rewrite Hs. reflexivity. Qed.

(** A goroutine that is alone with the transport lives the round trip
    that [throttlingTransport_RoundTrip] describes: seven statements from
    the call on, it is out of the call with the same answer, or parked where
    the function says [Blocks], and the semaphore and the process are as the
    function leaves them. *)
Lemma alone (c : throttlingTransport semaphore.Weighted) (req : Request) (w : World) :
  let p := run (pool c w) (Call req :: replicate 7 (Next 0%nat)) in
  exists stage o,
    p_goroutines p = [(req, stage)]
    /\ outcome stage = Some o
    /\ throttlingTransport_RoundTrip c req w = (o, p_transport p, p_world p).
Proof.
  destruct c as [[size cur waiters] delegate].
  unfold throttlingTransport_RoundTrip.
  cbn [replicate]. rewrite run_Call.
  cbn [happen pool p_goroutines p_transport p_queue p_world app].
  erewrite run_Next by reflexivity.
  cbn [Acquire Weighted_Semaphore c_sem].
  destruct (semaphore.Weighted_Acquire context.Background 1
              {| semaphore.size := size; semaphore.cur := cur; semaphore.waiters := waiters |})
    as [[| err |] s] eqn:Hacq.
  - erewrite run_Next
      by (unfold step; cbn [moved p_goroutines p_transport p_queue p_world c_sem place
                            lookup list_lookup alter list_alter fst snd
                            Acquire Weighted_Semaphore];
          rewrite Hacq; reflexivity).
    do 4 (erewrite run_Next by reflexivity).
    cbn [with_sem c_sem c_delegate Release Weighted_Semaphore].
    destruct (semaphore.Weighted_Release 1 s) as [s'|] eqn:Hrel.
    + erewrite run_Next
        by (unfold step; cbn [moved p_goroutines p_transport p_queue p_world c_sem place
                              lookup list_lookup alter list_alter fst snd with_sem
                              Release Weighted_Semaphore];
            rewrite Hrel; reflexivity).
      cbn. eexists _, _. repeat split; reflexivity.
    + erewrite run_Next
        by (unfold step; cbn [moved p_goroutines p_transport p_queue p_world c_sem place
                              lookup list_lookup alter list_alter fst snd with_sem
                              Release Weighted_Semaphore];
            rewrite Hrel; reflexivity).
      cbn. eexists _, _. repeat split; reflexivity.
  - erewrite run_Next
      by (unfold step; cbn [moved p_goroutines p_transport p_queue p_world c_sem place
                            lookup list_lookup alter list_alter fst snd
                            Acquire Weighted_Semaphore];
          rewrite Hacq; reflexivity).
    erewrite run_Next by reflexivity.
    do 4 (erewrite run_stuck by reflexivity).
    cbn. eexists _, _. repeat split; reflexivity.
  - erewrite run_Next
      by (unfold step; cbn [moved p_goroutines p_transport p_queue p_world c_sem place
                            lookup list_lookup alter list_alter fst snd
                            Acquire Weighted_Semaphore];
          rewrite Hacq; reflexivity).
    do 5 (erewrite run_stuck by reflexivity).
    cbn. eexists _, _. repeat split; reflexivity.
Qed.

End Alone.

Section Alike.

Implicit Types (p q : Pool) (gs hs : list (Request * Stage)).

Lemma alike_view p q : alike p q -> view q = view p.
Proof.
  intros (Ht & Hq & (_ & _ & Hp & Ho & Hl & _ & Hc) & Hg). unfold view.
  rewrite Ht, Hq, Hp, Ho, Hl, Hc. f_equal.
  induction Hg as [| g h gs hs [_ Hpt] _ IH]; simpl; [reflexivity|].
  rewrite Hpt, IH. reflexivity.
Qed.

Lemma alike_place i stage stage' gs hs :
  point stage' = point stage ->
  Forall2 (fun g h => req_URL h.1 = req_URL g.1 /\ point h.2 = point g.2) gs hs ->
  Forall2 (fun g h => req_URL h.1 = req_URL g.1 /\ point h.2 = point g.2)
    (place i stage gs) (place i stage' hs).
Proof.
  intros Hpt Hg. unfold place. apply Forall2_alter; [exact Hg|].
  intros g h _ _ [Hu _]. simpl. split; assumption.
Qed.

Lemma alike_wake woken gs hs :
  Forall2 (fun g h => req_URL h.1 = req_URL g.1 /\ point h.2 = point g.2) gs hs ->
  Forall2 (fun g h => req_URL h.1 = req_URL g.1 /\ point h.2 = point g.2)
    (wake woken gs) (wake woken hs).
Proof.
  intros Hg. induction woken as [| j woken IH]; simpl; [exact Hg|].
  apply alike_place; [reflexivity | exact IH].
Qed.

Lemma step_alike i p q :
  alike p q ->
  match step i p, step i q with
  | Some p', Some q' => alike p' q'
  | None, None => True
  | _, _ => False
  end.
Proof.
  intros (Ht & Hq & Hw & Hg). unfold step. rewrite Ht, Hq.
  destruct (p_goroutines p !! i) as [[req stage]|] eqn:Hi.
  - destruct (Forall2_lookup_l _ _ _ _ _ Hg Hi) as ([req' stage'] & -> & Hu & Hpt).
    simpl in Hu, Hpt.
    destruct Hw as (Hw1 & Hw2 & Hw3 & Hw4 & Hw5 & Hw6 & Hw7).
    destruct stage; destruct stage'; try discriminate Hpt; try exact I;
      try injection Hpt as ->;
      try match goal with
          | |- context [semaphore.Weighted_Acquire ?ctx ?n ?s] =>
              destruct (semaphore.Weighted_Acquire ctx n s) as [[| err |] s']
          | |- context [Acquire ?ctx ?n ?s] => destruct (Acquire ctx n s) as [[| err |] s']
          | |- context [semaphore.Weighted_Release ?n ?s] =>
              destruct (semaphore.Weighted_Release n s) as [s'|]
          | |- context [Release ?n ?s] => destruct (Release n s) as [s'|]
          end;
      repeat split; cbn; rewrite ?length_app; cbn [length];
      try assumption; try congruence;
      try apply alike_wake; apply alike_place; solve [reflexivity | exact Hg].
  - assert (Hnone : p_goroutines q !! i = None).
    { apply lookup_ge_None. rewrite <- (Forall2_length _ _ _ Hg).
      apply lookup_ge_None. exact Hi. }
    rewrite Hnone. exact I.
Qed.

Lemma happen_alike ctx p q e :
  alike p q -> alike (happen p e) (happen q (recontext ctx e)).
Proof.
  intros Ha. destruct e as [req | i]; simpl.
  - destruct Ha as (Ht & Hq & Hw & Hg). repeat split; cbn; try assumption; try apply Hw.
    apply Forall2_app; [exact Hg|]. constructor; [|constructor]. split; reflexivity.
  - pose proof (step_alike i p q Ha) as Hs.
    destruct (step i p), (step i q); simpl; try contradiction; assumption.
Qed.

Lemma run_alike ctx events : forall p q,
  alike p q -> alike (run p events) (run q (map (recontext ctx) events)).
Proof.
  induction events as [| e events IH]; intros p q Ha; simpl; [exact Ha|].
  apply IH, happen_alike, Ha.
Qed.

Lemma alike_refl p : alike p p.
Proof.
  repeat split. induction (p_goroutines p); constructor; [split; reflexivity | assumption].
Qed.

End Alike.

Section SideBySide.

Implicit Types (p : Pool) (gs : list (Request * Stage)) (stage : Stage) (req : Request).

(** The statements after admission, one by one. *)
Lemma step_Granted p i req :
  p_goroutines p !! i = Some (req, Granted) ->
  step i p = Some (moved p i Counted (pending_Add (-1) (p_world p)).2).
Proof. intros Hi. unfold step. rewrite Hi. reflexivity. Qed.

Lemma step_Counted p i req :
  p_goroutines p !! i = Some (req, Counted) ->
  step i p = Some (moved p i Calling (outbound_Add 1 (p_world p)).2).
Proof. intros Hi. unfold step. rewrite Hi. reflexivity. Qed.

Lemma step_Calling p i req :
  p_goroutines p !! i = Some (req, Calling) ->
  step i p
  = Some (moved p i (Answered (c_delegate (p_transport p) req (length (calls (p_world p)))))
            (invoke (c_delegate (p_transport p)) req (p_world p)).2).
Proof. intros Hi. unfold step. rewrite Hi. reflexivity. Qed.

(** The deferred [Release(1)] of a caller when others are queued: the
    weight goes to the head of the queue. *)
Lemma step_Releasing maxConcurrency delegate w0 p i req r j rest :
  Sound maxConcurrency delegate w0 p ->
  p_goroutines p !! i = Some (req, Releasing r) ->
  p_queue p = j :: rest ->
  step i p
  = Some {| p_transport := with_sem (p_transport p)
                             {| semaphore.size := maxConcurrency;
                                semaphore.cur := maxConcurrency;
                                semaphore.waiters := replicate (length rest) 1 |};
            p_queue := rest;
            p_world := p_world p;
            p_goroutines := place j Granted (place i (Returned r) (p_goroutines p)) |}.
Proof.
  intros [Hdel Hsize Hcur Hroom Hws Hfull Hnd Hq Hp Hf Hpend Hout Hlogs Hcalls] Hi Hqueue.
  unfold step. rewrite Hi.
  cbn [Release Weighted_Semaphore]. unfold semaphore.Weighted_Release.
  destruct (p_transport p) as [[size cur waiters] delegate'] eqn:Hc.
  cbn [c_sem c_delegate semaphore.size semaphore.cur semaphore.waiters] in *.
  pose proof (standing_at holding i _ _ _ Hi eq_refl) as Hone.
  assert (Hneg : (cur - 1 <? 0) = false) by (apply Z.ltb_ge; lia).
  rewrite Hneg, Hqueue in *.
  assert (Hcur' : cur = size) by (specialize (Hfull ltac:(congruence)); lia).
  simpl in Hws. rewrite Hws. cbn [semaphore.notifyWaiters].
  assert (Hfit : (size - (cur - 1) <? 1) = false) by (apply Z.ltb_ge; lia).
  rewrite Hfit.
  rewrite notifyWaiters_full; [| lia | intros n Hn; apply In_replicate in Hn; lia].
  cbn [semaphore.waiters]. rewrite length_replicate.
  replace (length (j :: rest) - length rest)%nat with 1%nat by (simpl; lia).
  cbn [take drop wake foldr]. rewrite drop_0.
  replace (cur - 1 + 1) with maxConcurrency by lia. rewrite Hsize. reflexivity.
Qed.

(** A parked caller has no statement of its own to run, and nothing
    that happens moves it but the [Release] of another caller. *)
Lemma parked_until_release p i req e :
  p_goroutines p !! i = Some (req, Parked) ->
  p_goroutines (happen p e) !! i = Some (req, Parked)
  \/ exists k reqk r, e = Next k /\ p_goroutines p !! k = Some (reqk, Releasing r).
Proof.
  intros Hi. destruct e as [req' | k]; simpl.
  - left. apply lookup_app_l_Some. exact Hi.
  - unfold step.
    destruct (p_goroutines p !! k) as [[reqk stage]|] eqn:Hk; [|left; exact Hi].
    assert (Hother : stage <> Parked -> forall stage',
              place k stage' (p_goroutines p) !! i = Some (req, Parked)).
    { intros Hne stage'. rewrite lookup_place_ne; [exact Hi|]. intros ->. congruence. }
    destruct stage; try (left; exact Hi);
      try (left; simpl; apply Hother; discriminate).
    + (* Acquiring *)
      left. destruct (Acquire context.Background 1 (c_sem (p_transport p))) as [[| err |] s];
        simpl; apply Hother; discriminate.
    + (* Releasing *)
      right. exists k, reqk, r. split; [reflexivity | exact Hk].
Qed.

End SideBySide.

Section SideBySideClaims.

(** C2, as amended. Admission is asked for under the background context,
    so the signal of the caller is not consulted: in every run of round trips
    side by side, the semaphore with its queue, the gauges, the log, the
    number of calls of the delegate and the stage of every caller are the
    same whatever contexts the requests carry, and a parked caller stays
    parked through everything that happens but the [Release] of another.
    Under that context the acquisition does not fail: no caller ever takes
    the failure branch and nothing is logged; and the delegate has been
    called once for each caller that got past admission to the call, and for
    no other. *)
Theorem admission_under_background maxConcurrency delegate w events ctx :
  let fresh := pool (newThrottlingTransport maxConcurrency delegate) w in
  let p := run fresh events in
  view (run fresh (map (recontext ctx) events)) = view p
  /\ (forall i req stage,
        p_goroutines p !! i = Some (req, stage) ->
        forall err, stage <> Rejected err /\ stage <> Refused err)
  /\ logs (p_world p) = logs w
  /\ Z.of_nat (length (calls (p_world p)))
     = Z.of_nat (length (calls w)) + standing answered (p_goroutines p)
  /\ (forall i req e,
        p_goroutines p !! i = Some (req, Parked) ->
        p_goroutines (happen p e) !! i = Some (req, Parked)
        \/ exists k reqk r, e = Next k /\ p_goroutines p !! k = Some (reqk, Releasing r)).
Proof.
  intros fresh p.
  destruct (fresh_Sound maxConcurrency delegate w events)
    as [Hdel Hsize Hcur Hroom Hws Hfull Hnd Hq Hp Hf Hpend Hout Hlogs Hcalls].
  fold fresh in Hf, Hlogs, Hcalls. fold p in Hf, Hlogs, Hcalls.
  split; [|split; [|split; [|split]]].
  - apply alike_view, run_alike, alike_refl.
  - intros i req stage Hi err.
    pose proof (standing_none failed i _ _ _ Hf Hi) as Hno.
    split; intros ->; discriminate Hno.
  - exact Hlogs.
  - exact Hcalls.
  - intros i req e Hi. apply parked_until_release, Hi.
Qed.

End SideBySideClaims.

Lemma canonical_Cache_Control :
  textproto.CanonicalMIMEHeaderKey "Cache-Control" = "Cache-Control".
Proof. reflexivity. Qed.

Lemma canonical_Conditional_Request :
  textproto.CanonicalMIMEHeaderKey "X-Conditional-Request" = "X-Conditional-Request".
Proof. reflexivity. Qed.

Lemma canonical_Request_Date :
  textproto.CanonicalMIMEHeaderKey cacheEntryCreationDateHeader = "X-Prow-Request-Date".
Proof. reflexivity. Qed.

Ltac header_lookup :=
  unfold cacheControl, creationDate, Header_Set, http.Set_; simpl resp_Header;
  rewrite ?canonical_Cache_Control, ?canonical_Conditional_Request, ?canonical_Request_Date;
  repeat first [ rewrite lookup_insert_eq | rewrite lookup_insert_ne by discriminate ].

Section Upstream.

Implicit Types (u : upstreamTransport) (req : Request) (w : World) (resp : Response).

(** The response that leaves the transport, from the one that came in:
    the headers the policy rewrites, in the order it rewrites them. *)
Lemma upstream_response u req w resp :
  u_delegate u req (length (calls w)) = (Some resp, None) ->
  exists w',
    upstreamTransport_RoundTrip u req w =
      (Returns (Some
         (let etag := http.Get (req_Header req) "if-none-match" in
          let r1 := if 400 <=? StatusCode resp
                    then Header_Set resp "Cache-Control" "no-store"
                    else if negb (StatusCode resp =? http.StatusNotModified)
                         then Header_Set (Header_Set resp "Cache-Control" "no-cache")
                                cacheEntryCreationDateHeader
                                (strconv.Itoa (time.Unix (clock w (2 + ticks w)%nat)))
                         else Header_Set resp "Cache-Control" "no-cache" in
          let r2 := if negb (String.eqb etag "")
                    then Header_Set r1 "X-Conditional-Request" etag else r1 in
          if isGraphQL req then Header_Set r2 "Cache-Control" "no-store" else r2),
         None), w')
    /\ calls w' = calls w ++ [req]
    /\ logs w' = logs w.
Proof.
  intros Hd. unfold upstreamTransport_RoundTrip, bind, time_Now, invoke. simpl.
  rewrite Hd. simpl.
  destruct (400 <=? StatusCode resp); simpl.
  - eexists. split; [reflexivity|]. split; reflexivity.
  - destruct (StatusCode resp =? http.StatusNotModified); simpl.
    + eexists. split; [reflexivity|]. split; reflexivity.
    + eexists. split; [reflexivity|]. split; reflexivity.
Qed.

Lemma Header_Set_StatusCode resp k v : StatusCode (Header_Set resp k v) = StatusCode resp.
Proof. reflexivity. Qed.

(** C3, as amended. Off the graphql path: a status of 400 or more leaves
    with [Cache-Control: no-store] and a 304 with [Cache-Control: no-cache],
    both with the creation date header as the delegate delivered it (none
    where it delivered none); a 200 leaves with [Cache-Control: no-cache]
    and the creation date set to the Unix seconds of the clock. *)
Theorem policy_headers_off_graphql u req w resp :
  isGraphQL req = false ->
  u_delegate u req (length (calls w)) = (Some resp, None) ->
  exists resp' w',
    upstreamTransport_RoundTrip u req w = (Returns (Some resp', None), w')
    /\ (400 <= StatusCode resp ->
        cacheControl resp' = Some ["no-store"] /\ creationDate resp' = creationDate resp)
    /\ (StatusCode resp = 200 ->
        cacheControl resp' = Some ["no-cache"]
        /\ creationDate resp' =
           Some [strconv.Itoa (time.Unix (clock w (2 + ticks w)%nat))])
    /\ (StatusCode resp = http.StatusNotModified ->
        cacheControl resp' = Some ["no-cache"] /\ creationDate resp' = creationDate resp).
Proof.
  intros Hg Hd. destruct (upstream_response u req w resp Hd) as (w' & Hrt & _).
  rewrite Hg in Hrt. eexists _, w'. split; [exact Hrt|]. clear Hrt. cbv zeta.
  split; [|split].
  - intros Hs. apply Z.leb_le in Hs. rewrite Hs.
    destruct (negb (String.eqb _ _)); header_lookup; split; reflexivity.
  - intros Hs. rewrite Hs. simpl (400 <=? 200). simpl (negb (_ =? _)).
    destruct (negb (String.eqb _ _)); header_lookup; split; reflexivity.
  - intros Hs. rewrite Hs. simpl (400 <=? _). simpl (negb (_ =? _)).
    destruct (negb (String.eqb _ _)); header_lookup; split; reflexivity.
Qed.

(** C6. On the graphql path the response leaves with
    [Cache-Control: no-store], whatever its status. *)
Theorem graphql_marked_no_store u req w resp :
  isGraphQL req = true ->
  u_delegate u req (length (calls w)) = (Some resp, None) ->
  exists resp' w',
    upstreamTransport_RoundTrip u req w = (Returns (Some resp', None), w')
    /\ StatusCode resp' = StatusCode resp
    /\ cacheControl resp' = Some ["no-store"]
    /\ http.Get (resp_Header resp') "Cache-Control" = "no-store".
Proof.
  intros Hg Hd. destruct (upstream_response u req w resp Hd) as (w' & Hrt & _).
  rewrite Hg in Hrt. eexists _, w'. split; [exact Hrt|]. clear Hrt. cbv zeta.
  split; [|split].
  - rewrite Header_Set_StatusCode.
    destruct (negb (String.eqb _ _)); rewrite ?Header_Set_StatusCode;
      destruct (400 <=? _); rewrite ?Header_Set_StatusCode; [reflexivity| |reflexivity|];
      destruct (negb (_ =? _)); reflexivity.
  - header_lookup. reflexivity.
  - unfold http.Get. header_lookup. reflexivity.
Qed.

(** C10. On the graphql path a status below 400 other than 304 leaves
    with [Cache-Control: no-store] and with the creation date header: the
    date is stamped on the success branch and the graphql override
    replaces [Cache-Control] only. *)
Theorem graphql_success_keeps_creation_date u req w resp :
  isGraphQL req = true ->
  StatusCode resp < 400 ->
  StatusCode resp <> http.StatusNotModified ->
  u_delegate u req (length (calls w)) = (Some resp, None) ->
  exists resp' w',
    upstreamTransport_RoundTrip u req w = (Returns (Some resp', None), w')
    /\ cacheControl resp' = Some ["no-store"]
    /\ creationDate resp' =
       Some [strconv.Itoa (time.Unix (clock w (2 + ticks w)%nat))].
Proof.
  intros Hg Hlt Hne Hd. destruct (upstream_response u req w resp Hd) as (w' & Hrt & _).
  rewrite Hg in Hrt. eexists _, w'. split; [exact Hrt|]. clear Hrt. cbv zeta.
  assert (H400 : (400 <=? StatusCode resp) = false) by (apply Z.leb_gt; lia).
  assert (H304 : (StatusCode resp =? http.StatusNotModified) = false) by (apply Z.eqb_neq; lia).
  rewrite H400, H304. simpl (negb false).
  destruct (negb (String.eqb _ _)); header_lookup; split; reflexivity.
Qed.

(** C7. When the delegate answers with an error, the transport reports
    the request to the timeout metric, logs a warning, and returns no
    response and that very error; the delegate has been called once. *)
Theorem upstream_failure_propagates u req w (r : option Response) err :
  u_delegate u req (length (calls w)) = (r, Some err) ->
  exists w',
    upstreamTransport_RoundTrip u req w = (Returns (None, Some err), w')
    /\ calls w' = calls w ++ [req]
    /\ (exists tokenBudgetName,
          metrics w' = metrics w ++
            [RequestTimeoutMetrics tokenBudgetName (Path (req_URL req))
               (http.Get (req_Header req) "User-Agent")
               (clock w (ticks w)) (clock w (S (ticks w)))])
    /\ (exists entry, logs w' = logs w ++ [entry] /\ log_err entry = Some err).
Proof.
  intros Hd. unfold upstreamTransport_RoundTrip, bind, time_Now, invoke. simpl.
  rewrite Hd. destruct r; simpl; eexists; (split; [reflexivity|]); simpl;
    (split; [reflexivity|]); (split; eexists; [reflexivity|]); split; reflexivity.
Qed.

End Upstream.

Section UpstreamExamples.

(** C3, counterexample. The delegate answers 404 with a creation date
    header of its own, as a proxy of the same kind further upstream would;
    the response leaves the transport still carrying it. *)
Lemma policy_not_as_claimed : ~ policy_as_claimed.
Proof.
  intros Hp.
  destruct (Hp {| u_delegate := fun _ _ => (Some sample_stale_404, None);
                  u_hasher := fun _ => "hash" |}
               (sample_request "/repos" context.Background) sample_world sample_stale_404)
    as (resp' & w' & Hrt & H400 & _); [reflexivity | reflexivity |].
  unfold upstreamTransport_RoundTrip, bind, time_Now, invoke in Hrt. simpl in Hrt.
  injection Hrt as Hresp _. subst resp'.
  destruct H400 as [_ Hdate]; [simpl; lia|].
  revert Hdate.
  assert (Hetag : http.Get (∅ : http.Header) "if-none-match" = "") by reflexivity.
  simpl. rewrite Hetag. simpl.
  header_lookup. discriminate.
Qed.

Lemma policy_headers_off_graphql_witness :
  isGraphQL (sample_request "/repos/o/r/pulls" context.Background) = false
  /\ exists resp' w',
    upstreamTransport_RoundTrip (sample_upstream (Some (sample_response 200), None))
      (sample_request "/repos/o/r/pulls" context.Background) sample_world
    = (Returns (Some resp', None), w')
    /\ (400 <= StatusCode (sample_response 200) ->
        cacheControl resp' = Some ["no-store"]
        /\ creationDate resp' = creationDate (sample_response 200))
    /\ (StatusCode (sample_response 200) = 200 ->
        cacheControl resp' = Some ["no-cache"]
        /\ creationDate resp' =
           Some [strconv.Itoa (time.Unix (clock sample_world (2 + ticks sample_world)%nat))])
    /\ (StatusCode (sample_response 200) = http.StatusNotModified ->
        cacheControl resp' = Some ["no-cache"]
        /\ creationDate resp' = creationDate (sample_response 200)).
Proof.
  split; [reflexivity|].
  apply (policy_headers_off_graphql (sample_upstream (Some (sample_response 200), None))
           (sample_request "/repos/o/r/pulls" context.Background) sample_world
           (sample_response 200)); reflexivity.
Defined.

Lemma graphql_marked_no_store_witness :
  isGraphQL (sample_request "/graphql" context.Background) = true
  /\ exists resp' w',
    upstreamTransport_RoundTrip (sample_upstream (Some (sample_response 502), None))
      (sample_request "/graphql" context.Background) sample_world
    = (Returns (Some resp', None), w')
    /\ StatusCode resp' = StatusCode (sample_response 502)
    /\ cacheControl resp' = Some ["no-store"]
    /\ http.Get (resp_Header resp') "Cache-Control" = "no-store".
Proof.
  split; [reflexivity|].
  apply (graphql_marked_no_store (sample_upstream (Some (sample_response 502), None))
           (sample_request "/graphql" context.Background) sample_world
           (sample_response 502)); reflexivity.
Defined.

Lemma graphql_success_keeps_creation_date_witness :
  isGraphQL (sample_request "/graphql" context.Background) = true
  /\ StatusCode (sample_response 200) < 400
  /\ exists resp' w',
    upstreamTransport_RoundTrip (sample_upstream (Some (sample_response 200), None))
      (sample_request "/graphql" context.Background) sample_world
    = (Returns (Some resp', None), w')
    /\ cacheControl resp' = Some ["no-store"]
    /\ creationDate resp' =
       Some [strconv.Itoa (time.Unix (clock sample_world (2 + ticks sample_world)%nat))].
Proof.
  split; [reflexivity|]. split; [simpl; lia|].
  apply (graphql_success_keeps_creation_date
           (sample_upstream (Some (sample_response 200), None))
           (sample_request "/graphql" context.Background) sample_world
           (sample_response 200));
    [reflexivity | simpl; lia | discriminate | reflexivity].
Defined.

Lemma upstream_failure_propagates_witness :
  exists w',
    upstreamTransport_RoundTrip (sample_upstream (None, Some "connection refused"))
      (sample_request "/repos" context.Background) sample_world
    = (Returns (None, Some "connection refused"), w')
    /\ calls w' = calls sample_world ++ [sample_request "/repos" context.Background]
    /\ (exists tokenBudgetName,
          metrics w' = metrics sample_world ++
            [RequestTimeoutMetrics tokenBudgetName
               (Path (req_URL (sample_request "/repos" context.Background)))
               (http.Get (req_Header (sample_request "/repos" context.Background)) "User-Agent")
               (clock sample_world (ticks sample_world))
               (clock sample_world (S (ticks sample_world)))])
    /\ (exists entry, logs w' = logs sample_world ++ [entry]
                      /\ log_err entry = Some "connection refused").
Proof.
  apply (upstream_failure_propagates (sample_upstream (None, Some "connection refused"))
           (sample_request "/repos" context.Background) sample_world None
           "connection refused").
  reflexivity.
Defined.

Example graphql_200_headers :
  match (upstreamTransport_RoundTrip (sample_upstream (Some (sample_response 200), None))
           (sample_request "/graphql" context.Background) sample_world).1 with
  | Returns (Some resp', None) =>
      (resp_Header resp' !! "Cache-Control", resp_Header resp' !! "X-Prow-Request-Date")
      = (Some ["no-store"], Some ["1600000002"])
  | _ => False
  end.
Proof. vm_compute. reflexivity. Qed.

End UpstreamExamples.

Section Calendar.

Lemma forallFrom_spec (p : Z -> bool) : forall n z,
  forallFrom z n p = true -> forall x, z <= x < z + Z.of_nat n -> p x = true.
Proof.
  induction n as [| n IH]; simpl forallFrom; intros z Hall x Hx; [lia|].
  apply andb_true_iff in Hall as [Hz Hrest].
  destruct (decide (x = z)) as [-> | Hne]; [assumption|].
  apply (IH (z + 1)); [assumption | lia].
Qed.

Lemma forallBelow_spec (p : Z -> bool) (n : Z) :
  forallBelow (Z.to_nat n) p = true -> forall z, 0 <= z < n -> p z = true.
Proof. intros Hall z Hz. apply (forallFrom_spec p (Z.to_nat n) 0 Hall). lia. Qed.

(** Every day of the 400-year cycle has a well-formed date that counts
    back to it; checked day by day. *)
Lemma cycle_days_ok r : 0 <= r < time.daysPer400Years -> cycleDayOK r = true.
Proof.
  intros Hr. apply (forallBelow_spec cycleDayOK time.daysPer400Years); [|exact Hr].
  vm_compute. reflexivity.
Qed.

Lemma appendInt_2 n : 0 <= n < 100 -> time.appendInt n 2 = digits2 n.
Proof.
  intros Hn.
  apply String.eqb_eq.
  apply (forallBelow_spec (fun n => String.eqb (time.appendInt n 2) (digits2 n)) 100);
    [vm_compute; reflexivity | exact Hn].
Qed.

Lemma appendInt_4 n : 0 <= n < 10000 -> time.appendInt n 4 = digits4 n.
Proof.
  intros Hn.
  apply String.eqb_eq.
  apply (forallBelow_spec (fun n => String.eqb (time.appendInt n 4) (digits4 n)) 10000);
    [vm_compute; reflexivity | exact Hn].
Qed.

Lemma isLeap_cycle q y : time.isLeap (1 + 400 * q + y) = time.isLeap (1 + y).
Proof.
  unfold time.isLeap.
  replace ((1 + 400 * q + y) mod 4) with ((1 + y) mod 4)
    by (Z.div_mod_to_equations; lia).
  replace ((1 + 400 * q + y) mod 100) with ((1 + y) mod 100)
    by (Z.div_mod_to_equations; lia).
  replace ((1 + 400 * q + y) mod 400) with ((1 + y) mod 400)
    by (Z.div_mod_to_equations; lia).
  reflexivity.
Qed.

Lemma daysSinceYear1_cycle q y :
  time.daysSinceYear1 (1 + 400 * q + y) =
  time.daysPer400Years * q + time.daysSinceYear1 (1 + y).
Proof.
  unfold time.daysSinceYear1, time.daysPer400Years. cbv zeta.
  replace (1 + 400 * q + y - 1) with (y + q * 400) by lia.
  replace (1 + y - 1) with y by lia.
  replace ((y + q * 400) / 4) with (y / 4 + q * 100)
    by (Z.div_mod_to_equations; lia).
  replace ((y + q * 400) / 100) with (y / 100 + q * 4)
    by (Z.div_mod_to_equations; lia).
  replace ((y + q * 400) / 400) with (y / 400 + q)
    by (Z.div_mod_to_equations; lia).
  lia.
Qed.

(** The date of an instant is a date, and [Date] leads back to the
    instant, at the start of its second. *)
Lemma Date_civil t :
  let c := time.civil t in
  time.Date c = {| time.sec := time.sec t; time.nsec := 0 |}
  /\ time.inRange c = true
  /\ 1 <= time.Month c <= 12 /\ 1 <= time.Day c <= 31
  /\ 0 <= time.Hour c < 24 /\ 0 <= time.Minute c < 60 /\ 0 <= time.Second c < 60.
Proof.
  unfold time.civil, time.yearDay.
  set (d := time.sec t / time.secondsPerDay + time.unixToInternalDays).
  assert (Hr : 0 <= d mod time.daysPer400Years < time.daysPer400Years)
    by (apply Z.mod_pos_bound; reflexivity).
  pose proof (cycle_days_ok _ Hr) as Hok. unfold cycleDayOK in Hok.
  destruct (time.cycleDate (d mod time.daysPer400Years)) as [y yday].
  rewrite isLeap_cycle.
  destruct (time.monthDay (time.monthLengths (time.isLeap (1 + y))) 1 yday) as [month day].
  repeat (apply andb_true_iff in Hok as [Hok ?]).
  cbv zeta. unfold time.Date, time.inRange. simpl.
  unfold time.daysIn, time.daysBefore in *. rewrite isLeap_cycle, daysSinceYear1_cycle.
  set (s := time.sec t mod time.secondsPerDay).
  assert (Hs : 0 <= s < time.secondsPerDay) by (apply Z.mod_pos_bound; reflexivity).
  unfold time.secondsPerDay in *.
  assert (Hd : time.daysPer400Years * (d / time.daysPer400Years) + d mod time.daysPer400Years = d)
    by (symmetry; apply Z.div_mod; discriminate).
  split; [|split].
  - f_equal.
    assert (Hsec : time.sec t = 86400 * (time.sec t / 86400) + s)
      by (apply Z.div_mod; discriminate).
    subst d. Z.div_mod_to_equations. lia.
  - repeat (apply andb_true_iff; split); try assumption;
      try (apply Z.ltb_lt; Z.div_mod_to_equations; lia).
  - repeat split; try (Z.div_mod_to_equations; lia).
Qed.

End Calendar.

Section Layout.

Lemma digitValue_digit n : 0 <= n <= 9 -> time.digitValue (time.digit n) = Some n.
Proof.
  intros Hn.
  assert (Hall : forallBelow 10
            (fun d => match time.digitValue (time.digit d) with
                      | Some v => v =? d
                      | None => false
                      end) = true) by (vm_compute; reflexivity).
  pose proof (forallBelow_spec _ 10 Hall n ltac:(lia)) as Hd. cbv beta in Hd.
  destruct (time.digitValue (time.digit n)) as [v|]; [|discriminate].
  apply Z.eqb_eq in Hd. congruence.
Qed.

Lemma plainByte_digit n : 0 <= n <= 9 -> json.plainByte (time.digit n) = true.
Proof.
  intros Hn.
  apply (forallBelow_spec (fun d => json.plainByte (time.digit d)) 10);
    [vm_compute; reflexivity | lia].
Qed.

Opaque time.digit.

Lemma append_String c a b : String c a +:+ b = String c (a +:+ b).
Proof. reflexivity. Qed.

Lemma append_Empty b : "" +:+ b = b.
Proof. reflexivity. Qed.

Lemma number_step k acc n s : 0 <= n <= 9 ->
  time.number (S k) acc (String (time.digit n) s) = time.number k (10 * acc + n) s.
Proof. intros Hn. cbn [time.number]. rewrite digitValue_digit by assumption. reflexivity. Qed.

Lemma number_digits2 acc n s : 0 <= n < 100 ->
  time.number 2 acc (digits2 n +:+ s) = Some (100 * acc + n, s).
Proof.
  intros Hn. unfold digits2. rewrite !append_String, append_Empty.
  rewrite !number_step by (Z.div_mod_to_equations; lia).
  cbn [time.number]. do 2 f_equal. Z.div_mod_to_equations. lia.
Qed.

Lemma number_digits4 n s : 0 <= n < 10000 ->
  time.number 4 0 (digits4 n +:+ s) = Some (n, s).
Proof.
  intros Hn. unfold digits4. rewrite !append_String.
  rewrite !number_step by (Z.div_mod_to_equations; lia).
  rewrite number_digits2 by (Z.div_mod_to_equations; lia).
  do 2 f_equal. Z.div_mod_to_equations. lia.
Qed.

Lemma plain_digits2 n s : 0 <= n < 100 -> json.plain (digits2 n +:+ s) = json.plain s.
Proof.
  intros Hn. unfold digits2. rewrite !append_String, append_Empty. cbn [json.plain].
  rewrite !plainByte_digit by (Z.div_mod_to_equations; lia). reflexivity.
Qed.

Lemma plain_digits4 n s : 0 <= n < 10000 -> json.plain (digits4 n +:+ s) = json.plain s.
Proof.
  intros Hn. unfold digits4. rewrite !append_String. cbn [json.plain].
  rewrite !plainByte_digit by (Z.div_mod_to_equations; lia).
  apply plain_digits2. Z.div_mod_to_equations. lia.
Qed.

(** What [Format] writes for a year of four digits. *)
Lemma Format_digits t :
  0 <= time.Year (time.civil t) <= 9999 ->
  let c := time.civil t in
  time.Format t =
    digits4 (time.Year c) +:+ "-" +:+ digits2 (time.Month c) +:+ "-" +:+ digits2 (time.Day c)
    +:+ "T" +:+ digits2 (time.Hour c) +:+ ":" +:+ digits2 (time.Minute c) +:+ ":"
    +:+ digits2 (time.Second c) +:+ "Z".
Proof.
  intros Hy. destruct (Date_civil t) as (_ & _ & Hmo & Hd & Hh & Hmi & Hs).
  cbv zeta in *. unfold time.Format.
  rewrite appendInt_4 by lia. rewrite !appendInt_2 by lia. reflexivity.
Qed.

(** Reading back what [Format] wrote gives the instant, at the start of
    its second. *)
Lemma literal_append c rest : time.literal c (String c "" +:+ rest) = Some rest.
Proof.
  rewrite append_String, append_Empty. unfold time.literal.
  rewrite (proj2 (Ascii.eqb_eq c c) eq_refl). reflexivity.
Qed.

Lemma Parse_Format t :
  0 <= time.Year (time.civil t) <= 9999 ->
  time.Parse (time.Format t) = Some {| time.sec := time.sec t; time.nsec := 0 |}.
Proof.
  intros Hy. rewrite Format_digits by assumption.
  destruct (Date_civil t) as (HD & Hr & Hmo & Hd & Hh & Hmi & Hs).
  cbv zeta in *. unfold time.Parse.
  rewrite number_digits4 by lia. cbn [mbind option_bind].
  do 5 (rewrite literal_append; cbn [mbind option_bind];
        rewrite number_digits2 by lia; cbn [mbind option_bind]).
  rewrite !Z.mul_0_r, !Z.add_0_l.
  change (time.literal "Z" "Z") with (Some ""). cbn [mbind option_bind].
  change (String.eqb "" "") with true. cbn [andb].
  destruct (time.civil t) as [year month day hour minute second].
  cbn [time.Year time.Month time.Day time.Hour time.Minute time.Second] in *.
  rewrite Hr, HD. reflexivity.
Qed.

Lemma plain_literal c rest :
  json.plainByte c = true -> json.plain (String c "" +:+ rest) = json.plain rest.
Proof.
  intros Hc. rewrite append_String, append_Empty. cbn [json.plain]. rewrite Hc. reflexivity.
Qed.

Lemma plain_Format t :
  0 <= time.Year (time.civil t) <= 9999 -> json.plain (time.Format t) = true.
Proof.
  intros Hy. rewrite Format_digits by assumption.
  destruct (Date_civil t) as (_ & _ & Hmo & Hd & Hh & Hmi & Hs). cbv zeta in *.
  rewrite plain_digits4 by lia.
  do 5 (rewrite plain_literal by reflexivity; rewrite plain_digits2 by lia).
  reflexivity.
Qed.

Lemma unquoteBody_plain s :
  json.plain s = true -> json.unquoteBody (s +:+ String json.quote "") = Some s.
Proof.
  induction s as [| c s IH]; intros Hp; [reflexivity|].
  cbn [json.plain] in Hp. apply andb_true_iff in Hp as [Hc Hs].
  rewrite append_String. cbn [json.unquoteBody]. rewrite Hc.
  assert (Hq : Ascii.eqb c json.quote = false).
  { unfold json.plainByte in Hc. destruct (Ascii.eqb c json.quote); [discriminate|reflexivity]. }
  rewrite Hq, IH by assumption. reflexivity.
Qed.

Lemma unquote_quoted s : json.plain s = true -> json.unquote (json.quoted s) = Some s.
Proof.
  intros Hp. unfold json.quoted, json.unquote.
  rewrite (proj2 (Ascii.eqb_eq json.quote json.quote) eq_refl).
  apply unquoteBody_plain, Hp.
Qed.

Lemma chopBrace_app v : json.chopBrace (v +:+ "}") = Some v.
Proof.
  induction v as [| c v IH]; [reflexivity|].
  rewrite append_String. cbn [json.chopBrace]. rewrite IH.
  destruct v; reflexivity.
Qed.

Transparent time.digit.

End Layout.

Section Metadata.

Example Marshal_sample :
  json_Marshal {| ExpiresAt := sample_expiry |} =
  "{" +:+ json.quoted "expires_at" +:+ ":" +:+ json.quoted "2020-09-13T12:26:40Z" +:+ "}".
Proof. vm_compute. reflexivity. Qed.

Example Marshal_zero :
  json_Marshal {| ExpiresAt := time.zero |} = "{" +:+ json.quoted "expires_at" +:+ ":null}".
Proof. vm_compute. reflexivity. Qed.

Example Marshal_year10000 :
  json_Marshal {| ExpiresAt := year10000 |} =
  "{" +:+ json.quoted "expires_at" +:+ ":" +:+ json.quoted "10000-01-01T00:00:00Z" +:+ "}".
Proof. vm_compute. reflexivity. Qed.

(** The year is read as four digits, so the fifth digit of year 10000
    stands where the dash is expected. *)
Example Parse_year10000 : time.Parse "10000-01-01T00:00:00Z" = None.
Proof. vm_compute. reflexivity. Qed.

(** Decoding the document written for [value], a JSON value that is not
    the empty string. *)
Lemma Unmarshal_member value :
  json_Unmarshal ("{" +:+ expires_at_member +:+ value +:+ "}") =
  match metav1.UnmarshalJSON value with
  | inl t => inl {| ExpiresAt := t |}
  | inr err => inr err
  end.
Proof.
  unfold json_Unmarshal.
  change (String.eqb ("{" +:+ expires_at_member +:+ value +:+ "}") "{}") with false.
  replace (json.stripPrefix ("{" +:+ expires_at_member)
             ("{" +:+ expires_at_member +:+ value +:+ "}"))
    with (Some (value +:+ "}")) by reflexivity.
  simpl. rewrite chopBrace_app. reflexivity.
Qed.

(** C8, as amended. For every expiry whose year in UTC has at most four
    digits (0 to 9999), the document written for it decodes, and to the
    same second; the fraction of the second is dropped. *)
Theorem metadata_roundtrip (expiresAt : time.Time) :
  0 <= time.Year (time.civil expiresAt) <= 9999 ->
  exists metadata,
    json_Unmarshal (json_Marshal {| ExpiresAt := expiresAt |}) = inl metadata
    /\ time.Unix (ExpiresAt metadata) = time.Unix expiresAt
    /\ time.nsec (ExpiresAt metadata) = 0.
Proof.
  intros Hy. unfold json_Marshal. rewrite Unmarshal_member. simpl ExpiresAt.
  unfold metav1.MarshalJSON. destruct (time.IsZero expiresAt) eqn:Hz.
  - exists {| ExpiresAt := time.zero |}. split; [reflexivity|].
    unfold time.IsZero in Hz. apply andb_true_iff in Hz as [Hs _].
    apply Z.eqb_eq in Hs. split; [symmetry; exact Hs | reflexivity].
  - unfold metav1.UnmarshalJSON.
    change (String.eqb (json.quoted (time.Format expiresAt)) "null") with false.
    rewrite unquote_quoted by (apply plain_Format, Hy).
    rewrite Parse_Format by assumption.
    eexists. split; [reflexivity|]. split; reflexivity.
Qed.

(** C8, counterexample. The first instant of year 10000 is written with
    a year of five digits, which the decoder refuses. *)
Lemma metadata_roundtrip_fails_year10000 : ~ metadata_roundtrip_as_claimed.
Proof.
  intros Hc. destruct (Hc year10000) as (metadata & Hdec & _).
  assert (Herr : json_Unmarshal (json_Marshal {| ExpiresAt := year10000 |})
                 = inr "parsing time 10000-01-01T00:00:00Z")
    by (vm_compute; reflexivity).
  rewrite Herr in Hdec. discriminate Hdec.
Qed.

Lemma metadata_roundtrip_witness :
  0 <= time.Year (time.civil sample_expiry) <= 9999
  /\ exists metadata,
    json_Unmarshal (json_Marshal {| ExpiresAt := sample_expiry |}) = inl metadata
    /\ time.Unix (ExpiresAt metadata) = time.Unix sample_expiry
    /\ time.nsec (ExpiresAt metadata) = 0.
Proof.
  assert (Hy : 0 <= time.Year (time.civil sample_expiry) <= 9999)
    by (vm_compute; split; discriminate).
  split; [exact Hy|]. apply (metadata_roundtrip sample_expiry Hy).
Defined.

End Metadata.

Section FileSystem.

Implicit Types (p q : os.path) (n : os.Node) (entries : list (string * os.Node)).

Lemma find_without_eq c entries : os.find c (os.without c entries) = None.
Proof.
  induction entries as [| [k m] entries IH]; [reflexivity|].
  simpl. destruct (String.eqb k c) eqn:Hk; [exact IH|].
  simpl. rewrite Hk. exact IH.
Qed.

Lemma find_without_ne c c' entries :
  c <> c' -> os.find c' (os.without c entries) = os.find c' entries.
Proof.
  intros Hne. induction entries as [| [k m] entries IH]; [reflexivity|].
  simpl. destruct (String.eqb k c) eqn:Hk.
  - apply String.eqb_eq in Hk. subst k.
    apply String.eqb_neq in Hne. rewrite Hne. exact IH.
  - simpl. destruct (String.eqb k c'); [reflexivity | exact IH].
Qed.

Lemma find_alter_eq c f entries :
  os.find c (os.alter c f entries) = f <$> os.find c entries.
Proof.
  induction entries as [| [k m] entries IH]; [reflexivity|].
  simpl. destruct (String.eqb k c) eqn:Hk; simpl; rewrite Hk; [reflexivity | exact IH].
Qed.

Lemma find_alter_ne c c' f entries :
  c <> c' -> os.find c' (os.alter c f entries) = os.find c' entries.
Proof.
  intros Hne. induction entries as [| [k m] entries IH]; [reflexivity|].
  simpl. destruct (String.eqb k c) eqn:Hk; simpl.
  - apply String.eqb_eq in Hk. subst k.
    apply String.eqb_neq in Hne. rewrite Hne. exact IH.
  - destruct (String.eqb k c'); [reflexivity | exact IH].
Qed.

Lemma lookup_app p q n : os.lookup (p ++ q) n = os.lookup p n ≫= os.lookup q.
Proof.
  revert n. induction p as [| c p IH]; intros n; [reflexivity|].
  simpl. destruct n as [content | entries]; [reflexivity|].
  destruct (os.find c entries); [apply IH | reflexivity].
Qed.

Lemma lookup_cons c p n :
  os.lookup (c :: p) n =
  match n with
  | os.Dir entries =>
      match os.find c entries with
      | Some m => os.lookup p m
      | None => None
      end
  | os.File _ => None
  end.
Proof. reflexivity. Qed.

Lemma remove_single c n :
  os.remove [c] n =
  match n with
  | os.Dir entries => os.Dir (os.without c entries)
  | os.File _ => n
  end.
Proof. destruct n; reflexivity. Qed.

Lemma remove_deeper c c' p n :
  os.remove (c :: c' :: p) n =
  match n with
  | os.Dir entries => os.Dir (os.alter c (os.remove (c' :: p)) entries)
  | os.File _ => n
  end.
Proof. destruct n; reflexivity. Qed.

(** What is removed is gone, with everything below it. *)
Lemma lookup_remove_under p : forall q n,
  p <> [] -> p `prefix_of` q -> os.lookup q (os.remove p n) = None.
Proof.
  induction p as [| c p IH]; intros q n Hne [rest ->]; [congruence|].
  rewrite <- app_comm_cons, lookup_cons.
  destruct p as [| c' p'].
  - rewrite remove_single. destruct n as [content | entries]; [reflexivity|].
    rewrite find_without_eq. reflexivity.
  - rewrite remove_deeper. destruct n as [content | entries]; [reflexivity|].
    rewrite find_alter_eq.
    destruct (os.find c entries) as [m|]; [|reflexivity].
    cbn [fmap option_fmap option_map].
    apply IH; [discriminate | eexists; reflexivity].
Qed.

(** Removing at [p] changes nothing at a path that branches off [p]. *)
Lemma lookup_remove_apart p : forall q n,
  ~ p `prefix_of` q -> ~ q `prefix_of` p ->
  os.lookup q (os.remove p n) = os.lookup q n.
Proof.
  induction p as [| c p IH]; intros q n Hpq Hqp; [reflexivity|].
  destruct q as [| c' q]; [exfalso; apply Hqp, prefix_nil|].
  rewrite !lookup_cons.
  destruct (decide (c = c')) as [<- | Hne].
  - assert (Hp : ~ p `prefix_of` q) by (intros H; apply Hpq, prefix_cons, H).
    assert (Hq : ~ q `prefix_of` p) by (intros H; apply Hqp, prefix_cons, H).
    destruct p as [| c' p']; [exfalso; apply Hp, prefix_nil|].
    rewrite remove_deeper. destruct n as [content | entries]; [reflexivity|].
    rewrite find_alter_eq.
    destruct (os.find c entries) as [m|]; [|reflexivity].
    cbn [fmap option_fmap option_map].
    apply IH; assumption.
  - destruct p as [| c'' p''].
    + rewrite remove_single. destruct n as [content | entries]; [reflexivity|].
      rewrite find_without_ne by assumption. reflexivity.
    + rewrite remove_deeper. destruct n as [content | entries]; [reflexivity|].
      rewrite find_alter_ne by assumption. reflexivity.
Qed.

(** Two different paths of the same length branch off each other. *)
Lemma lookup_remove_sibling p q n :
  length p = length q -> p <> q -> os.lookup q (os.remove p n) = os.lookup q n.
Proof.
  intros Hlen Hne. apply lookup_remove_apart; intros Hpre.
  - apply Hne, (prefix_length_eq _ _ Hpre). lia.
  - apply Hne. symmetry. apply (prefix_length_eq _ _ Hpre). lia.
Qed.

Lemma filepath_Dir_Join base name file :
  os.filepath_Dir (base ++ [name; file]) = base ++ [name].
Proof.
  unfold os.filepath_Dir.
  change (base ++ [name; file]) with (base ++ [name] ++ [file]).
  rewrite app_assoc. apply removelast_last.
Qed.

End FileSystem.

Section PruneSweep.

Variable Unmarshal : string -> cachePartitionMetadata + error.
Variable now : nat -> time.Time.

Implicit Types (st : Sweep) (base baseDir part : os.path) (c : os.DirEntry).

Lemma metadataPath_part base name :
  base ++ [name; cachePartitionMetadataFileName]
  = (base ++ [name]) ++ [cachePartitionMetadataFileName].
Proof. rewrite <- app_assoc. reflexivity. Qed.

(** Reading a file of a partition depends on the partition alone. *)
Lemma ReadFile_part part file (d d' : os.Disk) :
  os.lookup part (os.root d') = os.lookup part (os.root d) ->
  os.readFails d' = os.readFails d ->
  os.ReadFile (part ++ [file]) d' = os.ReadFile (part ++ [file]) d.
Proof.
  intros Hl Hf. unfold os.ReadFile. rewrite Hf, !lookup_app, Hl. reflexivity.
Qed.

(** A candidate leaves the faults of the disk alone. *)
Lemma pruneCandidate_faults base st c :
  let st' := pruneCandidate Unmarshal now base st c in
  os.readFails (disk st') = os.readFails (disk st)
  /\ os.removeFails (disk st') = os.removeFails (disk st)
  /\ os.readDirCut (disk st') = os.readDirCut (disk st).
Proof.
  unfold pruneCandidate. cbv zeta.
  destruct (os.IsDir c); simpl; [|auto].
  destruct (os.ReadFile _ _) as [raw | err]; [|auto].
  destruct (Unmarshal raw) as [metadata | err]; [|auto].
  destruct (time.After _ _); [auto|].
  unfold os.RemoveAll. simpl.
  destruct (os.removeFails _ _); simpl; auto.
Qed.

(** A candidate leaves the tree as it is or removes its own directory. *)
Lemma pruneCandidate_root base st c :
  let st' := pruneCandidate Unmarshal now base st c in
  os.root (disk st') = os.root (disk st)
  \/ os.root (disk st') = os.remove (base ++ [os.Name c]) (os.root (disk st)).
Proof.
  unfold pruneCandidate. cbv zeta.
  destruct (os.IsDir c); simpl; [|auto].
  destruct (os.ReadFile _ _) as [raw | err]; [|auto].
  destruct (Unmarshal raw) as [metadata | err]; [|auto].
  destruct (time.After _ _); [auto|].
  rewrite filepath_Dir_Join. unfold os.RemoveAll. simpl.
  destruct (os.removeFails _ _); simpl; auto.
Qed.

(** A spared candidate leaves the tree as it is. *)
Lemma pruneCandidate_spared base st c :
  spared Unmarshal now (base ++ [os.Name c; cachePartitionMetadataFileName]) (disk st) ->
  os.root (disk (pruneCandidate Unmarshal now base st c)) = os.root (disk st).
Proof.
  unfold pruneCandidate. cbv zeta.
  destruct (os.IsDir c); simpl; [|auto].
  intros [(raw & metadata & Hr & Hu & Hafter) | [(err & Hr) | (raw & err & Hr & Hu)]];
    rewrite Hr; [|reflexivity|]; rewrite Hu; [|reflexivity].
  rewrite Hafter. reflexivity.
Qed.

(** An expired directory that can be removed is removed. *)
Lemma pruneCandidate_expired base st c :
  os.IsDir c = true ->
  expired Unmarshal now (base ++ [os.Name c; cachePartitionMetadataFileName]) (disk st) ->
  os.removeFails (disk st) (base ++ [os.Name c]) = false ->
  os.root (disk (pruneCandidate Unmarshal now base st c))
  = os.remove (base ++ [os.Name c]) (os.root (disk st)).
Proof.
  intros Hdir (raw & metadata & Hr & Hu & Hafter) Hrm.
  unfold pruneCandidate. cbv zeta. rewrite Hdir. simpl.
  rewrite Hr, Hu, Hafter, filepath_Dir_Join. unfold os.RemoveAll. simpl.
  rewrite Hrm. reflexivity.
Qed.

Lemma candidates_faults base cands : forall st,
  os.sameFaults (disk st) (disk (foldl (pruneCandidate Unmarshal now base) st cands)).
Proof.
  induction cands as [| c cands IH]; intros st; simpl; [repeat split|].
  destruct (IH (pruneCandidate Unmarshal now base st c)) as (H1 & H2 & H3).
  destruct (pruneCandidate_faults base st c) as (G1 & G2 & G3).
  repeat split; congruence.
Qed.

Lemma pruneRoot_disk baseDir st dir :
  pruneRoot Unmarshal now baseDir st dir =
  foldl (pruneCandidate Unmarshal now (baseDir ++ [dir]))
    (match (os.ReadDir (baseDir ++ [dir]) (disk st)).2 with
     | Some err => sweep_log {| level := "warning"; message := "os.ReadDir failed";
                                fields := []; log_err := Some err |} st
     | None => st
     end)
    (os.ReadDir (baseDir ++ [dir]) (disk st)).1.
Proof. unfold pruneRoot. destruct (os.ReadDir _ _) as [cands err]. reflexivity. Qed.

Lemma pruneRoot_faults baseDir st dir :
  os.sameFaults (disk st) (disk (pruneRoot Unmarshal now baseDir st dir)).
Proof.
  rewrite pruneRoot_disk.
  match goal with |- context [foldl _ ?s ?l] =>
    pose proof (candidates_faults (baseDir ++ [dir]) l s) as Hf end.
  destruct (os.ReadDir _ _).2; exact Hf.
Qed.

(** The candidates of one root leave the other root alone. *)
Lemma candidates_other_root baseDir dir dir' q cands :
  dir <> dir' -> baseDir ++ [dir] `prefix_of` q ->
  forall st,
    os.lookup q (os.root (disk (foldl (pruneCandidate Unmarshal now (baseDir ++ [dir'])) st cands)))
    = os.lookup q (os.root (disk st)).
Proof.
  intros Hne Hq. induction cands as [| c cands IH]; intros st; simpl; [reflexivity|].
  rewrite IH.
  destruct (pruneCandidate_root (baseDir ++ [dir']) st c) as [-> | ->]; [reflexivity|].
  assert (Hapart : ~ baseDir ++ [dir] `prefix_of` (baseDir ++ [dir']) ++ [os.Name c]).
  { rewrite <- app_assoc. intros Hp. apply prefix_app_inv in Hp.
    apply prefix_cons_inv_1 in Hp. contradiction. }
  apply lookup_remove_apart.
  - intros Hp. destruct (prefix_weak_total _ _ _ Hp Hq) as [H1 | H1].
    + apply prefix_length in H1. rewrite !length_app in H1. simpl in H1. lia.
    + contradiction.
  - intros Hp. apply Hapart. etrans; eassumption.
Qed.

Lemma pruneRoot_other_root baseDir dir dir' q st :
  dir <> dir' -> baseDir ++ [dir] `prefix_of` q ->
  os.lookup q (os.root (disk (pruneRoot Unmarshal now baseDir st dir')))
  = os.lookup q (os.root (disk st)).
Proof.
  intros Hne Hq. rewrite pruneRoot_disk, (candidates_other_root baseDir dir dir') by assumption.
  destruct (os.ReadDir _ _).2; reflexivity.
Qed.

(** What is gone stays gone. *)
Lemma candidates_gone base part cands :
  length part = Datatypes.S (length base) ->
  forall st,
    os.lookup part (os.root (disk st)) = None ->
    os.lookup part (os.root (disk (foldl (pruneCandidate Unmarshal now base) st cands))) = None.
Proof.
  intros Hlen. induction cands as [| c cands IH]; intros st Hgone; simpl; [exact Hgone|].
  apply IH.
  destruct (pruneCandidate_root base st c) as [-> | ->]; [exact Hgone|].
  destruct (decide (base ++ [os.Name c] = part)) as [<- | Hne].
  - apply lookup_remove_under; [|reflexivity]. intros H. apply app_eq_nil in H as [_ H]. discriminate.
  - rewrite lookup_remove_sibling; [exact Hgone | | exact Hne].
    rewrite length_app. simpl. lia.
Qed.

Lemma pruneRoot_gone baseDir dir part st :
  length part = Datatypes.S (Datatypes.S (length baseDir)) ->
  os.lookup part (os.root (disk st)) = None ->
  os.lookup part (os.root (disk (pruneRoot Unmarshal now baseDir st dir))) = None.
Proof.
  intros Hlen Hgone. rewrite pruneRoot_disk. apply candidates_gone.
  - rewrite length_app. simpl. lia.
  - destruct (os.ReadDir _ _).2; exact Hgone.
Qed.

(** A spared partition comes through the candidates of its root as it
    was. *)
Lemma candidates_spared base name (d0 : os.Disk) cands :
  spared Unmarshal now (base ++ [name; cachePartitionMetadataFileName]) d0 ->
  forall st,
    os.lookup (base ++ [name]) (os.root (disk st)) = os.lookup (base ++ [name]) (os.root d0) ->
    os.readFails (disk st) = os.readFails d0 ->
    os.lookup (base ++ [name])
      (os.root (disk (foldl (pruneCandidate Unmarshal now base) st cands)))
    = os.lookup (base ++ [name]) (os.root d0).
Proof.
  intros Hsp. induction cands as [| c cands IH]; intros st Hl Hf; simpl; [exact Hl|].
  apply IH.
  - destruct (decide (os.Name c = name)) as [Hn | Hn].
    + rewrite pruneCandidate_spared; [exact Hl|]. rewrite Hn.
      unfold spared, fresh, unreadable, undecodable in *.
      rewrite metadataPath_part in *.
      rewrite (ReadFile_part _ _ d0 (disk st) Hl Hf). exact Hsp.
    + destruct (pruneCandidate_root base st c) as [-> | ->]; [exact Hl|].
      rewrite lookup_remove_sibling; [exact Hl | |].
      * rewrite !length_app. reflexivity.
      * intros H. apply app_inj_tail in H as [_ H]. contradiction.
  - destruct (pruneCandidate_faults base st c) as (-> & _). exact Hf.
Qed.

(** An expired partition that can be removed is gone once the candidates
    of its root have been gone through, if it was among them. *)
Lemma candidates_expired base name (d0 : os.Disk) cands :
  expired Unmarshal now (base ++ [name; cachePartitionMetadataFileName]) d0 ->
  os.removeFails d0 (base ++ [name]) = false ->
  forall st,
    os.sameFaults d0 (disk st) ->
    os.lookup (base ++ [name]) (os.root (disk st)) = os.lookup (base ++ [name]) (os.root d0) ->
    In {| os.Name := name; os.IsDir := true |} cands ->
    os.lookup (base ++ [name])
      (os.root (disk (foldl (pruneCandidate Unmarshal now base) st cands))) = None.
Proof.
  intros Hex Hrm. induction cands as [| c cands IH]; intros st Hf Hl Hin; [destruct Hin|].
  simpl. destruct Hf as (Hf1 & Hf2 & Hf3).
  destruct Hin as [-> | Hin].
  - apply candidates_gone; [rewrite !length_app; simpl; lia|].
    rewrite pruneCandidate_expired; simpl.
    + apply lookup_remove_under; [|reflexivity].
      intros H. apply app_eq_nil in H as [_ H]. discriminate.
    + reflexivity.
    + unfold expired in *. rewrite metadataPath_part in *.
      rewrite (ReadFile_part _ _ d0 (disk st) Hl Hf1). exact Hex.
    + rewrite Hf2. exact Hrm.
  - destruct (pruneCandidate_faults base st c) as (G1 & G2 & G3).
    assert (Hfaults : os.sameFaults d0 (disk (pruneCandidate Unmarshal now base st c)))
      by (repeat split; congruence).
    destruct (pruneCandidate_root base st c) as [Hroot | Hroot].
    + apply IH; [exact Hfaults | rewrite Hroot; exact Hl | exact Hin].
    + destruct (decide (os.Name c = name)) as [Hn | Hn].
      * apply candidates_gone; [rewrite !length_app; simpl; lia|].
        rewrite Hroot, Hn. apply lookup_remove_under; [|reflexivity].
        intros H. apply app_eq_nil in H as [_ H]. discriminate.
      * apply IH; [exact Hfaults | | exact Hin].
        rewrite Hroot, lookup_remove_sibling; [exact Hl | |].
        -- rewrite !length_app. reflexivity.
        -- intros H. apply app_inj_tail in H as [_ H]. contradiction.
Qed.

Lemma ReadDir_base base (d d' : os.Disk) :
  os.lookup base (os.root d') = os.lookup base (os.root d) ->
  os.readDirCut d' = os.readDirCut d ->
  os.ReadDir base d' = os.ReadDir base d.
Proof. intros Hl Hc. unfold os.ReadDir. rewrite Hl, Hc. reflexivity. Qed.

Lemma Prune_roots baseDir st :
  Prune Unmarshal now baseDir st =
  pruneRoot Unmarshal now baseDir (pruneRoot Unmarshal now baseDir st "data") "temp".
Proof. reflexivity. Qed.

Lemma partition_path baseDir dir name :
  baseDir ++ [dir; name] = (baseDir ++ [dir]) ++ [name].
Proof. rewrite <- app_assoc. reflexivity. Qed.

Lemma partition_metadataPath baseDir dir name :
  baseDir ++ [dir; name; cachePartitionMetadataFileName]
  = (baseDir ++ [dir]) ++ [name; cachePartitionMetadataFileName].
Proof. rewrite <- app_assoc. reflexivity. Qed.

(** The sweep removes an expired partition of either root. *)
Lemma Prune_expired baseDir st dir name :
  dir = "data" \/ dir = "temp" ->
  expired Unmarshal now (baseDir ++ [dir; name; cachePartitionMetadataFileName]) (disk st) ->
  In {| os.Name := name; os.IsDir := true |} (os.ReadDir (baseDir ++ [dir]) (disk st)).1 ->
  os.removeFails (disk st) (baseDir ++ [dir; name]) = false ->
  os.lookup (baseDir ++ [dir; name]) (os.root (disk (Prune Unmarshal now baseDir st))) = None.
Proof.
  intros Hdir Hex Hin Hrm.
  rewrite Prune_roots. rewrite partition_path in *. rewrite partition_metadataPath in Hex.
  destruct Hdir as [-> | ->].
  - apply pruneRoot_gone; [rewrite !length_app; simpl; lia|].
    rewrite pruneRoot_disk.
    apply (candidates_expired _ _ (disk st)); try assumption.
    + destruct (os.ReadDir _ _).2; repeat split.
    + destruct (os.ReadDir _ _).2; reflexivity.
  - set (st1 := pruneRoot Unmarshal now baseDir st "data").
    assert (Hother : forall q, baseDir ++ ["temp"] `prefix_of` q ->
              os.lookup q (os.root (disk st1)) = os.lookup q (os.root (disk st)))
      by (intros q Hq; apply (pruneRoot_other_root baseDir "temp" "data");
          [discriminate | exact Hq]).
    pose proof (pruneRoot_faults baseDir st "data") as Hf. fold st1 in Hf.
    rewrite pruneRoot_disk.
    assert (Hrd : os.ReadDir (baseDir ++ ["temp"]) (disk st1)
                  = os.ReadDir (baseDir ++ ["temp"]) (disk st)).
    { apply ReadDir_base; [apply Hother; reflexivity | apply Hf]. }
    rewrite Hrd.
    apply (candidates_expired _ _ (disk st)); try assumption.
    + destruct (os.ReadDir _ _).2; exact Hf.
    + destruct (os.ReadDir _ _).2; apply Hother, prefix_app_r; reflexivity.
Qed.

(** The sweep leaves a spared partition of either root as it was. *)
Lemma Prune_spared baseDir st dir name :
  dir = "data" \/ dir = "temp" ->
  spared Unmarshal now (baseDir ++ [dir; name; cachePartitionMetadataFileName]) (disk st) ->
  os.lookup (baseDir ++ [dir; name]) (os.root (disk (Prune Unmarshal now baseDir st)))
  = os.lookup (baseDir ++ [dir; name]) (os.root (disk st)).
Proof.
  intros Hdir Hsp.
  rewrite Prune_roots. rewrite partition_path. rewrite partition_metadataPath in Hsp.
  destruct Hdir as [-> | ->].
  - rewrite (pruneRoot_other_root baseDir "data" "temp");
      [| discriminate | apply prefix_app_r; reflexivity].
    rewrite pruneRoot_disk.
    apply (candidates_spared _ _ (disk st)); [assumption | |];
      destruct (os.ReadDir _ _).2; reflexivity.
  - set (st1 := pruneRoot Unmarshal now baseDir st "data").
    pose proof (pruneRoot_faults baseDir st "data") as (Hf & _). fold st1 in Hf.
    rewrite pruneRoot_disk.
    apply (candidates_spared _ _ (disk st)); [assumption | |].
    + destruct (os.ReadDir _ _).2; simpl;
        apply (pruneRoot_other_root baseDir "temp" "data");
        try discriminate; apply prefix_app_r; reflexivity.
    + destruct (os.ReadDir _ _).2; exact Hf.
Qed.

(** C5. A sweep over the roots [data] and [temp]: a partition directory
    that the listing of its root delivers, whose metadata reads and decodes
    and whose expiry is at or before the time of the clock, is removed with
    all it holds, unless the removal itself fails; a partition whose expiry
    is after the time of the clock is left as it was; so is one whose
    metadata does not read, and one whose metadata does not decode.  All of
    this holds whatever becomes of the other partitions, whose failures are
    logged and passed over. *)
Theorem Prune_sweep baseDir st dir name :
  dir = "data" \/ dir = "temp" ->
  let part := baseDir ++ [dir; name] in
  let metadataPath := part ++ [cachePartitionMetadataFileName] in
  let st' := Prune Unmarshal now baseDir st in
  (expired Unmarshal now metadataPath (disk st) ->
   In {| os.Name := name; os.IsDir := true |} (os.ReadDir (baseDir ++ [dir]) (disk st)).1 ->
   os.removeFails (disk st) part = false ->
   forall q, part `prefix_of` q -> os.lookup q (os.root (disk st')) = None)
  /\ (fresh Unmarshal now metadataPath (disk st) ->
      os.lookup part (os.root (disk st')) = os.lookup part (os.root (disk st)))
  /\ (unreadable metadataPath (disk st) ->
      os.lookup part (os.root (disk st')) = os.lookup part (os.root (disk st)))
  /\ (undecodable Unmarshal metadataPath (disk st) ->
      os.lookup part (os.root (disk st')) = os.lookup part (os.root (disk st))).
Proof.
  intros Hdir. cbv zeta.
  replace ((baseDir ++ [dir; name]) ++ [cachePartitionMetadataFileName])
    with (baseDir ++ [dir; name; cachePartitionMetadataFileName])
    by (rewrite <- app_assoc; reflexivity).
  split; [|split; [|split]].
  - intros Hex Hin Hrm q [rest ->]. rewrite lookup_app.
    rewrite Prune_expired by assumption. reflexivity.
  - intros Hfr. apply Prune_spared; [assumption | left; assumption].
  - intros Hun. apply Prune_spared; [assumption | right; left; assumption].
  - intros Hun. apply Prune_spared; [assumption | right; right; assumption].
Qed.

End PruneSweep.

Section PruneExamples.

(** [After] is "strictly later": it fails exactly when the expiry is at
    or before the time of the clock. *)
Lemma After_false t u :
  time.After t u = false
  <-> time.sec t < time.sec u \/ (time.sec t = time.sec u /\ time.nsec t <= time.nsec u).
Proof.
  unfold time.After. rewrite orb_false_iff, andb_false_iff.
  rewrite Z.ltb_ge, Z.eqb_neq, Z.ltb_ge. lia.
Qed.

Example After_same_instant t : time.After t t = false.
Proof. apply After_false. lia. Qed.

(** The sample sweep, evaluated: the expired partition is gone from both
    roots, the one that could not be removed is still there, as are the
    others, and the failure is in the log. *)
Example Prune_sample :
  let st' := Prune json_Unmarshal sample_now ["cache"] sample_sweep in
  os.ReadDir ["cache"; "data"] (disk st')
  = ([ {| os.Name := "README"; os.IsDir := false |};
       {| os.Name := "a-stuck"; os.IsDir := true |};
       {| os.Name := "bad"; os.IsDir := true |};
       {| os.Name := "new"; os.IsDir := true |};
       {| os.Name := "pat"; os.IsDir := true |} ], None)
  /\ os.ReadDir ["cache"; "temp"] (disk st') = ([], None)
  /\ map message (sweepLog st')
     = [ "Cleaning up expired cache parition";
         "failed to delete expired cache parition";
         "failed to deserialize metadata file";
         "Cleaning up expired cache parition";
         "Cleaning up expired cache parition" ]
  /\ nowCalls st' = 4%nat.
Proof. vm_compute. repeat split. Qed.

Lemma Prune_sweep_witness :
  let st' := Prune json_Unmarshal sample_now ["cache"] sample_sweep in
  (forall q, ["cache"; "data"; "old"] `prefix_of` q ->
             os.lookup q (os.root (disk st')) = None)
  /\ os.lookup ["cache"; "data"; "new"] (os.root (disk st'))
     = os.lookup ["cache"; "data"; "new"] sample_tree
  /\ os.lookup ["cache"; "data"; "pat"] (os.root (disk st'))
     = os.lookup ["cache"; "data"; "pat"] sample_tree
  /\ os.lookup ["cache"; "data"; "bad"] (os.root (disk st'))
     = os.lookup ["cache"; "data"; "bad"] sample_tree.
Proof.
  cbv zeta. split; [|split; [|split]].
  - destruct (Prune_sweep json_Unmarshal sample_now ["cache"] sample_sweep "data" "old"
                (or_introl eq_refl)) as (Hgone & _).
    apply Hgone.
    + exists expired_document, {| ExpiresAt := at_second 1500000000 |}.
      split; [reflexivity|]. split; [vm_compute; reflexivity | intros k; reflexivity].
    + vm_compute. tauto.
    + reflexivity.
  - destruct (Prune_sweep json_Unmarshal sample_now ["cache"] sample_sweep "data" "new"
                (or_introl eq_refl)) as (_ & Hfresh & _).
    apply Hfresh.
    exists fresh_document, {| ExpiresAt := at_second 1700000000 |}.
    split; [reflexivity|]. split; [vm_compute; reflexivity | intros k; reflexivity].
  - destruct (Prune_sweep json_Unmarshal sample_now ["cache"] sample_sweep "data" "pat"
                (or_introl eq_refl)) as (_ & _ & Hunreadable & _).
    apply Hunreadable. eexists. reflexivity.
  - destruct (Prune_sweep json_Unmarshal sample_now ["cache"] sample_sweep "data" "bad"
                (or_introl eq_refl)) as (_ & _ & _ & Hundecodable).
    apply Hundecodable. eexists _, _. split; reflexivity.
Defined.

End PruneExamples.

(** ** Part III: further properties of the code *)

Section UpstreamMore.

Implicit Types (u : upstreamTransport) (req : Request) (w : World) (resp : Response)
  (h : http.Header).

Lemma Get_Set_eq h k v : http.Get (http.Set_ h k v) k = v.
Proof. unfold http.Get, http.Set_. rewrite lookup_insert_eq. reflexivity. Qed.

Lemma Get_Set_ne h k k' v :
  textproto.CanonicalMIMEHeaderKey k <> textproto.CanonicalMIMEHeaderKey k' ->
  http.Get (http.Set_ h k v) k' = http.Get h k'.
Proof. intros Hne. unfold http.Get, http.Set_. rewrite lookup_insert_ne by exact Hne. reflexivity. Qed.

(** A round trip that gets a response, in full: the response handed on,
    the clock readings, the metrics, the call of the delegate. *)
Lemma upstream_round_trip u req w resp :
  u_delegate u req (length (calls w)) = (Some resp, None) ->
  let stamped := negb (400 <=? StatusCode resp)
                 && negb (StatusCode resp =? http.StatusNotModified) in
  let resp' := leaving req (time.Unix (clock w (2 + ticks w)%nat)) resp in
  let w' := (upstreamTransport_RoundTrip u req w).2 in
  (upstreamTransport_RoundTrip u req w).1 = Returns (Some resp', None)
  /\ calls w' = calls w ++ [req]
  /\ logs w' = logs w
  /\ ticks w' = ((if stamped then 3 else 2) + ticks w)%nat
  /\ metrics w' = metrics w ++
       [GitHubTokenMetrics (tokenBudgetName u req) (if isGraphQL req then "v4" else "v3")
          (resp_Header resp') (clock w (ticks w)) (clock w (S (ticks w)));
        GitHubRequestMetrics (tokenBudgetName u req) (Path (req_URL req))
          (strconv.Itoa (StatusCode resp)) (http.Get (req_Header req) "User-Agent")
          (time.Sub (clock w (S (ticks w))) (clock w (ticks w)))].
Proof.
  intros Hd. cbv zeta.
  unfold upstreamTransport_RoundTrip, leaving, tokenBudgetName, bind, time_Now, invoke,
    ghmetrics, ret.
  simpl. rewrite Hd. simpl.
  destruct (400 <=? StatusCode resp); simpl;
    [| destruct (StatusCode resp =? http.StatusNotModified); simpl ];
    destruct (negb (String.eqb (http.Get (req_Header req) "if-none-match") ""));
    destruct (isGraphQL req); simpl;
    rewrite <- ?app_assoc; repeat split.
Qed.

Lemma leaving_StatusCode req stamp resp :
  StatusCode (leaving req stamp resp) = StatusCode resp.
Proof.
  unfold leaving. cbv zeta.
  destruct (isGraphQL req),
    (negb (String.eqb (http.Get (req_Header req) "if-none-match") "")),
    (400 <=? StatusCode resp), (StatusCode resp =? http.StatusNotModified);
    reflexivity.
Qed.

Lemma leaving_Body req stamp resp : Body (leaving req stamp resp) = Body resp.
Proof.
  unfold leaving. cbv zeta.
  destruct (isGraphQL req),
    (negb (String.eqb (http.Get (req_Header req) "if-none-match") "")),
    (400 <=? StatusCode resp), (StatusCode resp =? http.StatusNotModified);
    reflexivity.
Qed.

(** The three header keys the transport writes, in canonical form. *)
Lemma leaving_other_keys req stamp resp k :
  k <> "Cache-Control" -> k <> "X-Prow-Request-Date" -> k <> "X-Conditional-Request" ->
  resp_Header (leaving req stamp resp) !! k = resp_Header resp !! k.
Proof.
  intros H1 H2 H3. unfold leaving. cbv zeta.
  destruct (isGraphQL req),
    (negb (String.eqb (http.Get (req_Header req) "if-none-match") "")),
    (400 <=? StatusCode resp), (StatusCode resp =? http.StatusNotModified);
    cbn [negb]; unfold Header_Set, http.Set_; cbn [resp_Header];
    rewrite ?canonical_Cache_Control, ?canonical_Conditional_Request, ?canonical_Request_Date;
    repeat (rewrite lookup_insert_ne by congruence); reflexivity.
Qed.

Lemma leaving_Cache_Control req stamp resp :
  resp_Header (leaving req stamp resp) !! "Cache-Control" =
  Some [if (400 <=? StatusCode resp) || isGraphQL req then "no-store" else "no-cache"].
Proof.
  unfold leaving. cbv zeta.
  destruct (isGraphQL req),
    (negb (String.eqb (http.Get (req_Header req) "if-none-match") "")),
    (400 <=? StatusCode resp), (StatusCode resp =? http.StatusNotModified);
    cbn [negb]; unfold Header_Set, http.Set_; cbn [resp_Header orb];
    rewrite ?canonical_Cache_Control, ?canonical_Conditional_Request, ?canonical_Request_Date;
    repeat first [ rewrite lookup_insert_eq | rewrite lookup_insert_ne by discriminate ];
    reflexivity.
Qed.

Lemma leaving_Conditional_Request req stamp resp :
  resp_Header (leaving req stamp resp) !! "X-Conditional-Request" =
  if negb (String.eqb (http.Get (req_Header req) "if-none-match") "")
  then Some [http.Get (req_Header req) "if-none-match"]
  else resp_Header resp !! "X-Conditional-Request".
Proof.
  unfold leaving. cbv zeta.
  destruct (isGraphQL req),
    (negb (String.eqb (http.Get (req_Header req) "if-none-match") "")),
    (400 <=? StatusCode resp), (StatusCode resp =? http.StatusNotModified);
    cbn [negb]; unfold Header_Set, http.Set_; cbn [resp_Header];
    rewrite ?canonical_Cache_Control, ?canonical_Conditional_Request, ?canonical_Request_Date;
    repeat first [ rewrite lookup_insert_eq | rewrite lookup_insert_ne by discriminate ];
    reflexivity.
Qed.

Lemma Get_lookup h k :
  http.Get h k = match h !! textproto.CanonicalMIMEHeaderKey k with
                 | Some (v :: _) => v
                 | _ => ""
                 end.
Proof. reflexivity. Qed.

Lemma Get_leaving_Cache_Control req stamp resp :
  http.Get (resp_Header (leaving req stamp resp)) "Cache-Control" =
  if (400 <=? StatusCode resp) || isGraphQL req then "no-store" else "no-cache".
Proof.
  etrans; [apply Get_lookup|].
  change (textproto.CanonicalMIMEHeaderKey "Cache-Control") with "Cache-Control".
  rewrite leaving_Cache_Control. reflexivity.
Qed.

Lemma Get_leaving_Status req stamp resp :
  http.Get (resp_Header (leaving req stamp resp)) "Status" =
  http.Get (resp_Header resp) "Status".
Proof.
  etrans; [apply Get_lookup|].
  change (textproto.CanonicalMIMEHeaderKey "Status") with "Status".
  rewrite leaving_other_keys by discriminate. reflexivity.
Qed.

Lemma Get_leaving_Conditional_Request req stamp resp :
  http.Get (resp_Header (leaving req stamp resp)) "X-Conditional-Request" =
  if negb (String.eqb (http.Get (req_Header req) "if-none-match") "")
  then http.Get (req_Header req) "if-none-match"
  else http.Get (resp_Header resp) "X-Conditional-Request".
Proof.
  etrans; [apply Get_lookup|].
  change (textproto.CanonicalMIMEHeaderKey "X-Conditional-Request")
    with "X-Conditional-Request".
  rewrite leaving_Conditional_Request.
  destruct (negb (String.eqb (http.Get (req_Header req) "if-none-match") ""));
    reflexivity.
Qed.

(** How the classifier reads a response the transport hands on. *)
Lemma classify_leaving req stamp resp :
  cacheResponseMode (resp_Header (leaving req stamp resp)) =
  if (400 <=? StatusCode resp) || isGraphQL req then ModeNoStore
  else if strings.Contains (http.Get (resp_Header resp) "Status") "304 Not Modified"
       then ModeRevalidated
       else if negb (String.eqb (http.Get (req_Header req) "if-none-match") "")
               || negb (String.eqb (http.Get (resp_Header resp) "X-Conditional-Request") "")
            then ModeChanged
            else ModeMiss.
Proof.
  unfold cacheResponseMode.
  rewrite Get_leaving_Cache_Control, Get_leaving_Status, Get_leaving_Conditional_Request.
  destruct ((400 <=? StatusCode resp) || isGraphQL req); [reflexivity|].
  change (strings.Contains "no-cache" "no-store") with false. cbv iota.
  destruct (strings.Contains _ "304 Not Modified"); [reflexivity|].
  destruct (negb (String.eqb (http.Get (req_Header req) "if-none-match") "")) eqn:He;
    cbn [orb]; [rewrite He|]; reflexivity.
Qed.

(** X1. A mode read off response headers is free of charge exactly
    when it is REVALIDATED, that is when [Cache-Control] has no [no-store]
    and [Status] says [304 Not Modified]. *)
Theorem classified_free_iff_revalidated h :
  CacheModeIsFree (cacheResponseMode h) = true
  <-> strings.Contains (http.Get h "Cache-Control") "no-store" = false
      /\ strings.Contains (http.Get h "Status") "304 Not Modified" = true.
Proof.
  unfold cacheResponseMode.
  destruct (strings.Contains (http.Get h "Cache-Control") "no-store");
    [split; [discriminate | intros [? _]; discriminate]|].
  destruct (strings.Contains (http.Get h "Status") "304 Not Modified");
    [split; [split; reflexivity | reflexivity]|].
  destruct (negb _); (split; [discriminate | intros [_ ?]; discriminate]).
Qed.

(** X2. A response with a status of 400 or more, and any response on the
    graphql path, leaves the transport with headers that the classifier
    reads as NO-STORE. *)
Theorem upstream_errors_classified_no_store u req w resp :
  u_delegate u req (length (calls w)) = (Some resp, None) ->
  400 <= StatusCode resp \/ isGraphQL req = true ->
  exists resp',
    (upstreamTransport_RoundTrip u req w).1 = Returns (Some resp', None)
    /\ cacheResponseMode (resp_Header resp') = ModeNoStore.
Proof.
  intros Hd Hcase. destruct (upstream_round_trip u req w resp Hd) as (Hrt & _).
  eexists. split; [exact Hrt|]. rewrite classify_leaving.
  destruct Hcase as [Hs | Hg].
  - apply Z.leb_le in Hs. rewrite Hs. reflexivity.
  - rewrite Hg, orb_true_r. reflexivity.
Qed.

(** X3. Off the graphql path, a response with a status below 400 leaves
    with headers that the classifier reads as REVALIDATED when its [Status]
    header says [304 Not Modified]; otherwise as CHANGED when the request
    carried [If-None-Match] (or the response arrived with a conditional
    marker); otherwise as MISS. *)
Theorem upstream_success_classified u req w resp :
  u_delegate u req (length (calls w)) = (Some resp, None) ->
  StatusCode resp < 400 ->
  isGraphQL req = false ->
  exists resp',
    (upstreamTransport_RoundTrip u req w).1 = Returns (Some resp', None)
    /\ cacheResponseMode (resp_Header resp') =
       if strings.Contains (http.Get (resp_Header resp) "Status") "304 Not Modified"
       then ModeRevalidated
       else if negb (String.eqb (http.Get (req_Header req) "if-none-match") "")
               || negb (String.eqb (http.Get (resp_Header resp) "X-Conditional-Request") "")
            then ModeChanged
            else ModeMiss.
Proof.
  intros Hd Hs Hg. destruct (upstream_round_trip u req w resp Hd) as (Hrt & _).
  eexists. split; [exact Hrt|]. rewrite classify_leaving, Hg.
  apply Z.leb_gt in Hs. rewrite Hs. reflexivity.
Qed.

(** X4. The transport hands the response on with its status code and
    body as they came, and with every header as it came but the three it
    writes: [Cache-Control], the creation date and the conditional marker. *)
Theorem upstream_leaves_rest_alone u req w resp :
  u_delegate u req (length (calls w)) = (Some resp, None) ->
  exists resp',
    (upstreamTransport_RoundTrip u req w).1 = Returns (Some resp', None)
    /\ StatusCode resp' = StatusCode resp
    /\ Body resp' = Body resp
    /\ forall k, k <> "Cache-Control" -> k <> "X-Prow-Request-Date" ->
                 k <> "X-Conditional-Request" ->
                 resp_Header resp' !! k = resp_Header resp !! k.
Proof.
  intros Hd. destruct (upstream_round_trip u req w resp Hd) as (Hrt & _).
  eexists. split; [exact Hrt|].
  split; [apply leaving_StatusCode|]. split; [apply leaving_Body|].
  intros k. apply leaving_other_keys.
Qed.

(** X5. The conditional marker of the response handed on holds the
    [If-None-Match] value of the request when the request has one; when it
    has none the marker is as the delegate delivered it. *)
Theorem upstream_conditional_marker u req w resp :
  u_delegate u req (length (calls w)) = (Some resp, None) ->
  exists resp',
    (upstreamTransport_RoundTrip u req w).1 = Returns (Some resp', None)
    /\ (http.Get (req_Header req) "if-none-match" <> "" ->
        resp_Header resp' !! "X-Conditional-Request"
        = Some [http.Get (req_Header req) "if-none-match"])
    /\ (http.Get (req_Header req) "if-none-match" = "" ->
        resp_Header resp' !! "X-Conditional-Request"
        = resp_Header resp !! "X-Conditional-Request").
Proof.
  intros Hd. destruct (upstream_round_trip u req w resp Hd) as (Hrt & _).
  eexists. split; [exact Hrt|]. rewrite leaving_Conditional_Request.
  split; intros He.
  - apply String.eqb_neq in He. rewrite He. reflexivity.
  - rewrite He. reflexivity.
Qed.

(** X6. Whatever the delegate answers (a response, an error, both or
    neither), one round trip hands it the request once, unmodified. *)
Theorem upstream_calls_delegate_once u req w :
  calls (upstreamTransport_RoundTrip u req w).2 = calls w ++ [req].
Proof.
  destruct (u_delegate u req (length (calls w))) as [[resp|] [err|]] eqn:Hd.
  - destruct (upstream_failure_propagates u req w _ _ Hd) as (w' & Hrt & Hc & _).
    rewrite Hrt. exact Hc.
  - destruct (upstream_round_trip u req w resp Hd) as (_ & Hc & _). exact Hc.
  - destruct (upstream_failure_propagates u req w _ _ Hd) as (w' & Hrt & Hc & _).
    rewrite Hrt. exact Hc.
  - unfold upstreamTransport_RoundTrip, bind, time_Now, invoke, panic. simpl.
    rewrite Hd. reflexivity.
Qed.

(** X7. A delegate that answers with neither a response nor an error
    makes the round trip panic, at the first use of the response; no metric
    and no log entry has been written by then. *)
Theorem upstream_nil_answer_panics u req w :
  u_delegate u req (length (calls w)) = (None, None) ->
  (upstreamTransport_RoundTrip u req w).1 = Panics
  /\ metrics (upstreamTransport_RoundTrip u req w).2 = metrics w
  /\ logs (upstreamTransport_RoundTrip u req w).2 = logs w.
Proof.
  intros Hd. unfold upstreamTransport_RoundTrip, bind, time_Now, invoke, panic. simpl.
  rewrite Hd. repeat split.
Qed.

(** X8. For a round trip that gets a response the transport records two
    metrics, the token metric with the headers of the response handed on and
    then the request metric, both under the budget identifier of the request
    when the request names one and under the hash of the request otherwise;
    the API version recorded is v4 on the graphql path and v3 elsewhere;
    nothing is logged. *)
Theorem upstream_metrics_budget u req w resp :
  u_delegate u req (length (calls w)) = (Some resp, None) ->
  let w' := (upstreamTransport_RoundTrip u req w).2 in
  let budget := http.Get (req_Header req) TokenBudgetIdentifierHeader in
  exists name resp',
    (upstreamTransport_RoundTrip u req w).1 = Returns (Some resp', None)
    /\ metrics w' = metrics w ++
      [GitHubTokenMetrics name (if isGraphQL req then "v4" else "v3") (resp_Header resp')
         (clock w (ticks w)) (clock w (S (ticks w)));
       GitHubRequestMetrics name (Path (req_URL req)) (strconv.Itoa (StatusCode resp))
         (http.Get (req_Header req) "User-Agent")
         (time.Sub (clock w (S (ticks w))) (clock w (ticks w)))]
    /\ (budget <> "" -> name = budget)
    /\ (budget = "" -> name = u_hasher u req)
    /\ logs w' = logs w.
Proof.
  intros Hd. cbv zeta.
  destruct (upstream_round_trip u req w resp Hd) as (Hrt & _ & Hl & _ & Hm).
  exists (tokenBudgetName u req). eexists.
  split; [exact Hrt|]. split; [exact Hm|]. unfold tokenBudgetName. cbv zeta.
  split; [|split].
  - intros He. apply String.eqb_neq in He. rewrite He. reflexivity.
  - intros He. rewrite He. reflexivity.
  - exact Hl.
Qed.

End UpstreamMore.

Section UpstreamMoreExamples.

Lemma upstream_errors_classified_no_store_witness :
  exists resp',
    (upstreamTransport_RoundTrip (sample_upstream (Some (sample_response 404), None))
       sample_conditional_request sample_world).1 = Returns (Some resp', None)
    /\ cacheResponseMode (resp_Header resp') = ModeNoStore.
Proof.
  apply (upstream_errors_classified_no_store
           (sample_upstream (Some (sample_response 404), None))
           sample_conditional_request sample_world (sample_response 404));
    [reflexivity | left; simpl; lia].
Defined.

Lemma upstream_success_classified_witness :
  exists resp',
    (upstreamTransport_RoundTrip (sample_upstream (Some (sample_response 200), None))
       sample_conditional_request sample_world).1 = Returns (Some resp', None)
    /\ cacheResponseMode (resp_Header resp') = ModeChanged.
Proof.
  apply (upstream_success_classified
           (sample_upstream (Some (sample_response 200), None))
           sample_conditional_request sample_world (sample_response 200));
    [reflexivity | simpl; lia | reflexivity].
Defined.

Lemma upstream_leaves_rest_alone_witness :
  exists resp',
    (upstreamTransport_RoundTrip (sample_upstream (Some sample_stale_404, None))
       sample_conditional_request sample_world).1 = Returns (Some resp', None)
    /\ StatusCode resp' = StatusCode sample_stale_404
    /\ Body resp' = Body sample_stale_404
    /\ forall k, k <> "Cache-Control" -> k <> "X-Prow-Request-Date" ->
                 k <> "X-Conditional-Request" ->
                 resp_Header resp' !! k = resp_Header sample_stale_404 !! k.
Proof.
  apply (upstream_leaves_rest_alone (sample_upstream (Some sample_stale_404, None))
           sample_conditional_request sample_world sample_stale_404).
  reflexivity.
Defined.

Lemma upstream_conditional_marker_witness :
  exists resp',
    (upstreamTransport_RoundTrip (sample_upstream (Some (sample_response 200), None))
       sample_conditional_request sample_world).1 = Returns (Some resp', None)
    /\ (http.Get (req_Header sample_conditional_request) "if-none-match" <> "" ->
        resp_Header resp' !! "X-Conditional-Request"
        = Some [http.Get (req_Header sample_conditional_request) "if-none-match"])
    /\ (http.Get (req_Header sample_conditional_request) "if-none-match" = "" ->
        resp_Header resp' !! "X-Conditional-Request"
        = resp_Header (sample_response 200) !! "X-Conditional-Request").
Proof.
  apply (upstream_conditional_marker (sample_upstream (Some (sample_response 200), None))
           sample_conditional_request sample_world (sample_response 200)).
  reflexivity.
Defined.

Lemma upstream_nil_answer_panics_witness :
  (upstreamTransport_RoundTrip (sample_upstream (None, None))
     sample_conditional_request sample_world).1 = Panics
  /\ metrics (upstreamTransport_RoundTrip (sample_upstream (None, None))
                sample_conditional_request sample_world).2 = metrics sample_world
  /\ logs (upstreamTransport_RoundTrip (sample_upstream (None, None))
             sample_conditional_request sample_world).2 = logs sample_world.
Proof.
  apply (upstream_nil_answer_panics (sample_upstream (None, None))
           sample_conditional_request sample_world).
  reflexivity.
Defined.

Lemma upstream_metrics_budget_witness :
  let u := sample_upstream (Some (sample_response 200), None) in
  let w' := (upstreamTransport_RoundTrip u sample_conditional_request sample_world).2 in
  let budget := http.Get (req_Header sample_conditional_request) TokenBudgetIdentifierHeader in
  exists name resp',
    (upstreamTransport_RoundTrip u sample_conditional_request sample_world).1
    = Returns (Some resp', None)
    /\ metrics w' = metrics sample_world ++
      [GitHubTokenMetrics name (if isGraphQL sample_conditional_request then "v4" else "v3")
         (resp_Header resp')
         (clock sample_world (ticks sample_world)) (clock sample_world (S (ticks sample_world)));
       GitHubRequestMetrics name (Path (req_URL sample_conditional_request))
         (strconv.Itoa (StatusCode (sample_response 200)))
         (http.Get (req_Header sample_conditional_request) "User-Agent")
         (time.Sub (clock sample_world (S (ticks sample_world)))
                   (clock sample_world (ticks sample_world)))]
    /\ (budget <> "" -> name = budget)
    /\ (budget = "" -> name = u_hasher u sample_conditional_request)
    /\ logs w' = logs sample_world.
Proof.
  apply (upstream_metrics_budget (sample_upstream (Some (sample_response 200), None))
           sample_conditional_request sample_world (sample_response 200)).
  reflexivity.
Defined.

Example budget_of_sample_request :
  tokenBudgetName (sample_upstream (None, None)) sample_conditional_request = "bot".
Proof. reflexivity. Qed.

End UpstreamMoreExamples.

Section ThrottlingMore.

Implicit Types (s : semaphore.Weighted) (delegate : RoundTripper) (req : Request) (w : World).

(** X9. With weight to spare on the semaphore and nobody queued, the
    round trip is the delegate's: its answer comes back as it is, the
    request reached it once, and semaphore, gauges and log are afterwards as
    they were before. *)
Theorem throttle_admits_when_free s delegate req w :
  0 <= semaphore.cur s ->
  semaphore.cur s + 1 <= semaphore.size s ->
  semaphore.waiters s = [] ->
  exists w',
    throttlingTransport_RoundTrip {| c_sem := s; c_delegate := delegate |} req w
    = (Returns (delegate req (length (calls w))),
       {| c_sem := s; c_delegate := delegate |}, w')
    /\ calls w' = calls w ++ [req]
    /\ pendingOutboundConnectionsGauge w' = pendingOutboundConnectionsGauge w
    /\ outboundConcurrencyGauge w' = outboundConcurrencyGauge w
    /\ logs w' = logs w.
Proof.
  intros Hcur Hfree Hq. destruct s as [size cur waiters]. simpl in *. subst waiters.
  unfold throttlingTransport_RoundTrip. simpl.
  unfold semaphore.Weighted_Acquire. simpl.
  assert (H1 : (1 <=? size - cur) = true) by (apply Z.leb_le; lia).
  rewrite H1. simpl.
  unfold semaphore.Weighted_Release. simpl.
  replace (cur + 1 - 1) with cur by lia.
  assert (H2 : (cur <? 0) = false) by (apply Z.ltb_ge; lia).
  rewrite H2. unfold with_sem. simpl.
  eexists. split; [reflexivity|]. simpl. repeat split; lia.
Qed.

(** X10. A transport made by [newThrottlingTransport] with room for at
    least one call serves requests that come one after the other all the
    way: each reaches the delegate, in order, and the transport and both
    gauges end as they began. *)
Theorem throttle_fresh_serves_all maxConcurrency delegate reqs w :
  1 <= maxConcurrency ->
  let '(c', w') := serve (newThrottlingTransport maxConcurrency delegate) reqs w in
  c' = newThrottlingTransport maxConcurrency delegate
  /\ calls w' = calls w ++ reqs
  /\ pendingOutboundConnectionsGauge w' = pendingOutboundConnectionsGauge w
  /\ outboundConcurrencyGauge w' = outboundConcurrencyGauge w.
Proof.
  intros Hmax. revert w. induction reqs as [| req reqs IH]; intros w.
  - simpl. rewrite app_nil_r. repeat split.
  - simpl serve.
    destruct (throttle_admits_when_free (semaphore.NewWeighted maxConcurrency)
                delegate req w) as (w1 & Hrt & Hc & Hp & Ho & _);
      [simpl; lia | simpl; lia | reflexivity |].
    unfold newThrottlingTransport in *. rewrite Hrt.
    specialize (IH w1).
    destruct (serve _ reqs w1) as [c' w'].
    destruct IH as (-> & Hc' & Hp' & Ho').
    rewrite Hc', Hc, Hp', Hp, Ho', Ho, <- app_assoc. repeat split.
Qed.

(** X12. A transport made with a maximum concurrency of zero or less
    lets nothing through: of requests coming one after the other none
    reaches the delegate, and each leaves the pending gauge one higher. *)
Theorem throttle_without_capacity maxConcurrency delegate reqs w :
  maxConcurrency <= 0 ->
  let '(c', w') := serve (newThrottlingTransport maxConcurrency delegate) reqs w in
  calls w' = calls w
  /\ pendingOutboundConnectionsGauge w'
     = pendingOutboundConnectionsGauge w + Z.of_nat (length reqs)
  /\ outboundConcurrencyGauge w' = outboundConcurrencyGauge w.
Proof.
  intros Hmax. unfold newThrottlingTransport.
  assert (Hgen : forall reqs s w,
            semaphore.size s <= 0 -> 0 <= semaphore.cur s ->
            let '(c', w') := serve {| c_sem := s; c_delegate := delegate |} reqs w in
            calls w' = calls w
            /\ pendingOutboundConnectionsGauge w'
               = pendingOutboundConnectionsGauge w + Z.of_nat (length reqs)
            /\ outboundConcurrencyGauge w' = outboundConcurrencyGauge w).
  { clear. induction reqs as [| req reqs IH]; intros s w Hsize Hcur.
    - simpl. repeat split. lia.
    - simpl serve. unfold throttlingTransport_RoundTrip. simpl.
      unfold semaphore.Weighted_Acquire. simpl.
      assert (H1 : (1 <=? semaphore.size s - semaphore.cur s) = false)
        by (apply Z.leb_gt; lia).
      rewrite H1. simpl. unfold with_sem. simpl.
      assert (H2 : (semaphore.size s <? 1) = true) by (apply Z.ltb_lt; lia).
      rewrite H2.
      match goal with |- context [serve _ reqs ?w1] => specialize (IH s w1 Hsize Hcur) end.
      destruct (serve _ reqs _) as [c' w']. simpl in IH.
      destruct IH as (Hc & Hp & Ho). rewrite Hc, Hp, Ho. repeat split.
      rewrite Nat2Z.inj_succ. lia. }
  apply Hgen; simpl; lia.
Qed.

End ThrottlingMore.

Section ThrottlingMoreExamples.

Lemma throttle_admits_when_free_witness :
  exists w',
    throttlingTransport_RoundTrip
      {| c_sem := semaphore.NewWeighted 2; c_delegate := fun _ _ => (None, Some "refused") |}
      (sample_request "/user" context.Background) sample_world
    = (Returns (None, Some "refused"),
       {| c_sem := semaphore.NewWeighted 2; c_delegate := fun _ _ => (None, Some "refused") |},
       w')
    /\ calls w' = calls sample_world ++ [sample_request "/user" context.Background]
    /\ pendingOutboundConnectionsGauge w' = pendingOutboundConnectionsGauge sample_world
    /\ outboundConcurrencyGauge w' = outboundConcurrencyGauge sample_world
    /\ logs w' = logs sample_world.
Proof.
  apply (throttle_admits_when_free (semaphore.NewWeighted 2)
           (fun _ _ => (None, Some "refused"))
           (sample_request "/user" context.Background) sample_world);
    [simpl; lia | simpl; lia | reflexivity].
Defined.

Lemma throttle_fresh_serves_all_witness :
  let '(c', w') :=
    serve (newThrottlingTransport 1 (fun _ _ => (None, Some "refused")))
      [sample_request "/user" context.Background; sample_request "/repos" context.Background]
      sample_world in
  c' = newThrottlingTransport 1 (fun _ _ => (None, Some "refused"))
  /\ calls w' = calls sample_world ++
       [sample_request "/user" context.Background; sample_request "/repos" context.Background]
  /\ pendingOutboundConnectionsGauge w' = pendingOutboundConnectionsGauge sample_world
  /\ outboundConcurrencyGauge w' = outboundConcurrencyGauge sample_world.
Proof.
  apply (throttle_fresh_serves_all 1 (fun _ _ => (None, Some "refused"))
           [sample_request "/user" context.Background;
            sample_request "/repos" context.Background] sample_world).
  lia.
Defined.

Lemma throttle_without_capacity_witness :
  let '(c', w') :=
    serve (newThrottlingTransport 0 (fun _ _ => (None, None)))
      [sample_request "/user" context.Background; sample_request "/repos" context.Background]
      sample_world in
  calls w' = calls sample_world
  /\ pendingOutboundConnectionsGauge w'
     = pendingOutboundConnectionsGauge sample_world
       + Z.of_nat (length [sample_request "/user" context.Background;
                           sample_request "/repos" context.Background])
  /\ outboundConcurrencyGauge w' = outboundConcurrencyGauge sample_world.
Proof.
  apply (throttle_without_capacity 0 (fun _ _ => (None, None))
           [sample_request "/user" context.Background;
            sample_request "/repos" context.Background] sample_world).
  lia.
Defined.

End ThrottlingMoreExamples.

Section SideBySideMore.

(** X11. A caller parked at the head of the queue is let in by the next
    [Release]: the deferred [Release(1)] of a caller on its way out hands it
    the weight.  The caller then comes out of [Acquire], takes itself off
    the pending gauge and hands its request to the delegate. *)
Theorem throttle_release_admits_parked maxConcurrency delegate w events i j rest reqi r :
  let p := run (pool (newThrottlingTransport maxConcurrency delegate) w) events in
  p_goroutines p !! i = Some (reqi, Releasing r) ->
  p_queue p = j :: rest ->
  exists reqj,
    p_goroutines p !! j = Some (reqj, Parked)
    /\ let p1 := happen p (Next i) in
       p_goroutines p1 !! i = Some (reqi, Returned r)
       /\ p_goroutines p1 !! j = Some (reqj, Granted)
       /\ p_queue p1 = rest
       /\ let p2 := run p1 [Next j; Next j; Next j] in
          p_goroutines p2 !! j
          = Some (reqj, Answered (delegate reqj (length (calls (p_world p)))))
          /\ calls (p_world p2) = calls (p_world p) ++ [reqj]
          /\ pendingOutboundConnectionsGauge (p_world p2)
             = pendingOutboundConnectionsGauge (p_world p) - 1.
Proof.
  intros p Hi Hqueue.
  pose proof (fresh_Sound maxConcurrency delegate w events) as HS. fold p in HS.
  pose proof (step_Releasing _ _ _ _ _ _ _ _ _ HS Hi Hqueue) as Hstep.
  destruct HS as [Hdel _ _ _ _ _ _ Hq _ _ _ _ _ _].
  destruct (Hq j ltac:(rewrite Hqueue; left)) as (reqj & Hj).
  assert (Hij : i <> j) by (intros ->; congruence).
  exists reqj. split; [exact Hj|].
  cbn zeta. cbn [happen]. rewrite Hstep. cbn [default from_option id].
  cbn [p_goroutines p_queue p_world p_transport].
  assert (Hj1 : place j Granted (place i (Returned r) (p_goroutines p)) !! j
                = Some (reqj, Granted)).
  { apply (lookup_place_eq _ _ _ _ Parked). rewrite lookup_place_ne by exact Hij. exact Hj. }
  split; [|split; [exact Hj1 | split; [reflexivity|]]].
  { rewrite lookup_place_ne by congruence. apply (lookup_place_eq _ _ _ _ _ Hi). }
  unfold run. cbn [foldl happen].
  erewrite step_Granted by exact Hj1. cbn [default from_option id].
  erewrite step_Counted
    by (cbn [moved p_goroutines]; apply (lookup_place_eq _ _ _ _ _ Hj1)).
  cbn [default from_option id].
  erewrite step_Calling
    by (cbn [moved p_goroutines];
        apply (lookup_place_eq _ _ _ _ Counted), (lookup_place_eq _ _ _ _ _ Hj1)).
  cbn [default from_option id moved p_goroutines p_world p_transport with_sem c_delegate
       invoke pending_Add outbound_Add snd calls pendingOutboundConnectionsGauge].
  rewrite Hdel. split; [|split; [reflexivity | lia]].
  apply (lookup_place_eq _ _ _ _ Calling), (lookup_place_eq _ _ _ _ Counted),
    (lookup_place_eq _ _ _ _ _ Hj1).
Qed.

(** X23. The transport throttles: at no moment of any run do more
    callers hold weight of the semaphore than [maxConcurrency] allows, the
    gauge of outbound calls counts the callers inside the call of the
    delegate, and these are among the callers that hold weight. *)
Theorem throttle_bounds_outbound maxConcurrency delegate w events :
  let p := run (pool (newThrottlingTransport maxConcurrency delegate) w) events in
  standing holding (p_goroutines p) <= Z.max maxConcurrency 0
  /\ outboundConcurrencyGauge (p_world p)
     = outboundConcurrencyGauge w + standing outbound (p_goroutines p)
  /\ standing outbound (p_goroutines p) <= standing holding (p_goroutines p).
Proof.
  intros p.
  destruct (fresh_Sound maxConcurrency delegate w events)
    as [Hdel Hsize Hcur Hroom Hws Hfull Hnd Hq Hp Hf Hpend Hout Hlogs Hcalls].
  fold p in Hcur, Hroom, Hout.
  split; [lia|]. split; [exact Hout|].
  apply standing_le. intros [] H; try discriminate H; reflexivity.
Qed.

(** X24. The pending gauge stands above where it started by the number
    of callers that have added themselves and not yet come past admission:
    only an admitted caller takes itself off again. *)
Theorem pending_gauge_counts_waiting maxConcurrency delegate w events :
  let p := run (pool (newThrottlingTransport maxConcurrency delegate) w) events in
  pendingOutboundConnectionsGauge (p_world p)
  = pendingOutboundConnectionsGauge w + standing pending (p_goroutines p)
  /\ forall i p',
       step i p = Some p' ->
       pendingOutboundConnectionsGauge (p_world p')
       < pendingOutboundConnectionsGauge (p_world p) ->
       exists req, p_goroutines p !! i = Some (req, Granted).
Proof.
  intros p.
  destruct (fresh_Sound maxConcurrency delegate w events)
    as [Hdel Hsize Hcur Hroom Hws Hfull Hnd Hq Hp Hf Hpend Hout Hlogs Hcalls].
  fold p in Hpend. split; [exact Hpend|].
  intros i p' Hstep Hlt. unfold step in Hstep.
  destruct (p_goroutines p !! i) as [[req stage]|]; [|discriminate].
  unfold pending_Add, outbound_Add, logrus, invoke in Hstep.
  destruct stage; try discriminate; try (exists req; reflexivity);
    try match type of Hstep with
        | context [Acquire ?ctx ?n ?s] => destruct (Acquire ctx n s) as [[| err |] s']
        | context [Release ?n ?s] => destruct (Release n s) as [s'|]
        end;
    injection Hstep as <-; simpl in Hlt; lia.
Qed.

(** X25. With room for at least one call nobody waits in vain: whenever
    a caller is parked, some caller holds weight and has a statement to run
    on its way to [Release]. *)
Theorem throttle_parked_has_holder maxConcurrency delegate w events j req :
  1 <= maxConcurrency ->
  let p := run (pool (newThrottlingTransport maxConcurrency delegate) w) events in
  p_goroutines p !! j = Some (req, Parked) ->
  exists i reqi stage,
    p_goroutines p !! i = Some (reqi, stage)
    /\ holding stage = true
    /\ is_Some (step i p).
Proof.
  intros Hmax p Hj.
  destruct (fresh_Sound maxConcurrency delegate w events)
    as [Hdel Hsize Hcur Hroom Hws Hfull Hnd Hq Hp Hf Hpend Hout Hlogs Hcalls].
  fold p in Hcur, Hfull, Hp.
  pose proof (Hp Hmax j req Hj) as Hin.
  assert (Hne : p_queue p <> []) by (intros H0; rewrite H0 in Hin; inversion Hin).
  specialize (Hfull Hne).
  destruct (standing_some holding (p_goroutines p)) as (i & reqi & stage & Hi & Hh); [lia|].
  exists i, reqi, stage. split; [exact Hi|]. split; [exact Hh|].
  unfold step. rewrite Hi.
  destruct stage; try discriminate Hh; simpl; eauto.
  destruct (semaphore.Weighted_Release 1 (c_sem (p_transport p))); eauto.
Qed.

End SideBySideMore.

Section SideBySideExamples.

Example sample_events_stages :
  map snd (p_goroutines (run (pool (newThrottlingTransport 1 sample_delegate) sample_world)
                           sample_events))
  = [Releasing (None, Some "refused"); Parked].
Proof. reflexivity. Qed.

Lemma throttle_release_admits_parked_witness :
  let p := run (pool (newThrottlingTransport 1 sample_delegate) sample_world) sample_events in
  exists reqj,
    p_goroutines p !! 1%nat = Some (reqj, Parked)
    /\ let p1 := happen p (Next 0%nat) in
       p_goroutines p1 !! 0%nat
       = Some (sample_request "/user" context.Background, Returned (None, Some "refused"))
       /\ p_goroutines p1 !! 1%nat = Some (reqj, Granted)
       /\ p_queue p1 = []
       /\ let p2 := run p1 [Next 1%nat; Next 1%nat; Next 1%nat] in
          p_goroutines p2 !! 1%nat
          = Some (reqj, Answered (sample_delegate reqj (length (calls (p_world p)))))
          /\ calls (p_world p2) = calls (p_world p) ++ [reqj]
          /\ pendingOutboundConnectionsGauge (p_world p2)
             = pendingOutboundConnectionsGauge (p_world p) - 1.
Proof.
  apply (throttle_release_admits_parked 1 sample_delegate sample_world sample_events
           0%nat 1%nat [] (sample_request "/user" context.Background)
           (None, Some "refused")); reflexivity.
Defined.

Lemma throttle_parked_has_holder_witness :
  let p := run (pool (newThrottlingTransport 1 sample_delegate) sample_world) sample_events in
  exists i reqi stage,
    p_goroutines p !! i = Some (reqi, stage)
    /\ holding stage = true
    /\ is_Some (step i p).
Proof.
  apply (throttle_parked_has_holder 1 sample_delegate sample_world sample_events 1%nat
           (sample_request "/repos" (context.WithCancel true))); [lia | reflexivity].
Defined.

(** The cancelled caller of [sample_events] and the same caller with the
    background context stand at the same stage: parked. *)
Example cancelled_caller_parked :
  view (run (pool (newThrottlingTransport 1 sample_delegate) sample_world)
          (map (recontext (fun _ => context.Background)) sample_events))
  = view (run (pool (newThrottlingTransport 1 sample_delegate) sample_world) sample_events).
Proof. reflexivity. Qed.

End SideBySideExamples.

Section NoCapacity.

Implicit Types (p : Pool) (stage : Stage) (req : Request).

Lemma step_Shut p i p' :
  Shut p -> step i p = Some p' ->
  Shut p'
  /\ calls (p_world p') = calls (p_world p)
  /\ forall j req, p_goroutines p !! j = Some (req, Parked) ->
                   p_goroutines p' !! j = Some (req, Parked).
Proof.
  intros (Hsize & Hcur & Hlate) Hstep. unfold step in Hstep.
  destruct (p_goroutines p !! i) as [[req stage]|] eqn:Hi; [|discriminate].
  pose proof (standing_none _ i _ _ _ Hlate Hi) as Hout. simpl in Hout.
  destruct stage; try discriminate.
  - (* Entering *)
    injection Hstep as <-. unfold Shut. cbn [moved p_transport p_goroutines p_world].
    rewrite (standing_place _ i Acquiring _ req Entering Hi). simpl.
    repeat split; try assumption; try lia.
    intros j req' Hj. rewrite lookup_place_ne; [exact Hj|]. intros ->. congruence.
  - (* Acquiring *)
    cbn [Acquire Weighted_Semaphore] in Hstep.
    unfold semaphore.Weighted_Acquire in Hstep. cbn [context.Err context.Done] in Hstep.
    assert (Hno : (1 <=? semaphore.size (c_sem (p_transport p))
                         - semaphore.cur (c_sem (p_transport p))) = false)
      by (apply Z.leb_gt; lia).
    assert (Hsz : (semaphore.size (c_sem (p_transport p)) <? 1) = true)
      by (apply Z.ltb_lt; lia).
    rewrite Hno, Hsz in Hstep. cbn [andb] in Hstep. injection Hstep as <-.
    unfold Shut. cbn [p_transport p_goroutines p_world with_sem c_sem].
    rewrite (standing_place _ i Parked _ req Acquiring Hi). simpl.
    repeat split; try assumption; try lia.
    intros j req' Hj. rewrite lookup_place_ne; [exact Hj|]. intros ->. congruence.
Qed.

Lemma happen_Shut p e :
  Shut p ->
  Shut (happen p e)
  /\ calls (p_world (happen p e)) = calls (p_world p)
  /\ forall j req, p_goroutines p !! j = Some (req, Parked) ->
                   p_goroutines (happen p e) !! j = Some (req, Parked).
Proof.
  intros HS. destruct e as [req | i]; simpl.
  - destruct HS as (Hsize & Hcur & Hlate). unfold Shut. simpl.
    rewrite standing_app. simpl. repeat split; try assumption; try lia.
    intros j req' Hj. apply lookup_app_l_Some. exact Hj.
  - destruct (step i p) as [p'|] eqn:Hstep; simpl.
    + exact (step_Shut _ _ _ HS Hstep).
    + repeat split; try apply HS. intros j req' Hj. exact Hj.
Qed.

Lemma run_Shut events : forall p,
  Shut p ->
  Shut (run p events)
  /\ calls (p_world (run p events)) = calls (p_world p)
  /\ forall j req, p_goroutines p !! j = Some (req, Parked) ->
                   p_goroutines (run p events) !! j = Some (req, Parked).
Proof.
  induction events as [| e events IH]; intros p HS; simpl.
  - repeat split; try apply HS. intros j req Hj. exact Hj.
  - destruct (happen_Shut p e HS) as (HS' & Hc & Hp).
    destruct (IH _ HS') as (HS'' & Hc' & Hp').
    split; [exact HS''|]. split; [congruence|].
    intros j req Hj. apply Hp', Hp, Hj.
Qed.

(** X26. A transport made with a maximum concurrency of zero or less
    lets nobody through in any run of round trips side by side: the delegate
    is never called, no caller comes past [Acquire], and a caller that is
    parked stays parked whatever happens afterwards. *)
Theorem throttle_without_capacity_parks_all maxConcurrency delegate w events :
  maxConcurrency <= 0 ->
  let p := run (pool (newThrottlingTransport maxConcurrency delegate) w) events in
  calls (p_world p) = calls w
  /\ (forall i req stage, p_goroutines p !! i = Some (req, stage) -> outside stage = true)
  /\ (forall i req, p_goroutines p !! i = Some (req, Parked) ->
      forall later, p_goroutines (run p later) !! i = Some (req, Parked)).
Proof.
  intros Hmax p.
  assert (H0 : Shut (pool (newThrottlingTransport maxConcurrency delegate) w)).
  { unfold Shut. simpl. repeat split; lia. }
  destruct (run_Shut events _ H0) as (HS & Hc & _). fold p in HS, Hc.
  split; [exact Hc|]. split.
  - intros i req stage Hi. destruct HS as (_ & _ & Hlate).
    pose proof (standing_none _ i _ _ _ Hlate Hi) as Hout. simpl in Hout.
    apply negb_false_iff. exact Hout.
  - intros i req Hi later. destruct (run_Shut later _ HS) as (_ & _ & Hp).
    apply Hp, Hi.
Qed.

End NoCapacity.

Section NoCapacityExamples.

Lemma throttle_without_capacity_parks_all_witness :
  let p := run (pool (newThrottlingTransport 0 sample_delegate) sample_world) sample_events in
  calls (p_world p) = calls sample_world
  /\ (forall i req stage, p_goroutines p !! i = Some (req, stage) -> outside stage = true)
  /\ (forall i req, p_goroutines p !! i = Some (req, Parked) ->
      forall later, p_goroutines (run p later) !! i = Some (req, Parked)).
Proof.
  apply (throttle_without_capacity_parks_all 0 sample_delegate sample_world sample_events).
  lia.
Defined.

Example without_capacity_both_parked :
  map snd (p_goroutines (run (pool (newThrottlingTransport 0 sample_delegate) sample_world)
                           sample_events))
  = [Parked; Parked].
Proof. reflexivity. Qed.

(** The parked caller of [sample_events] after the release: granted its
    weight, it takes itself off the pending gauge. *)
Example pending_lowered_sample :
  let p := run (pool (newThrottlingTransport 1 sample_delegate) sample_world)
             (sample_events ++ [Next 0%nat]) in
  p_goroutines p !! 1%nat
  = Some (sample_request "/repos" (context.WithCancel true), Granted)
  /\ pendingOutboundConnectionsGauge (p_world p) = 1
  /\ pendingOutboundConnectionsGauge (p_world (happen p (Next 1%nat))) = 0.
Proof. repeat split. Qed.

End NoCapacityExamples.

Section FileSystemMore.

Implicit Types (p q : os.path) (n : os.Node) (entries : list (string * os.Node)).

Lemma find_app c c' m entries :
  os.find c' (entries ++ [(c, m)]) =
  match os.find c' entries with
  | Some x => Some x
  | None => if String.eqb c c' then Some m else None
  end.
Proof.
  induction entries as [| [k x] entries IH]; [reflexivity|].
  simpl. destruct (String.eqb k c'); [reflexivity | exact IH].
Qed.

Lemma find_In c m entries : os.find c entries = Some m -> In (c, m) entries.
Proof.
  induction entries as [| [k x] entries IH]; [discriminate|].
  simpl. destruct (String.eqb k c) eqn:Hk.
  - intros [= ->]. apply String.eqb_eq in Hk. subst. left. reflexivity.
  - intros H. right. apply IH, H.
Qed.

(** Removing creates nothing. *)
Lemma lookup_remove_None p : forall q n,
  os.lookup q n = None -> os.lookup q (os.remove p n) = None.
Proof.
  induction p as [| c p IH]; intros q n Hq; [exact Hq|].
  destruct q as [| c' q]; [discriminate|].
  rewrite lookup_cons in *.
  destruct p as [| c2 p2].
  - rewrite remove_single. destruct n as [content | entries]; [reflexivity|].
    destruct (decide (c = c')) as [<- | Hne].
    + rewrite find_without_eq. reflexivity.
    + rewrite find_without_ne by assumption. exact Hq.
  - rewrite remove_deeper. destruct n as [content | entries]; [reflexivity|].
    destruct (decide (c = c')) as [<- | Hne].
    + rewrite find_alter_eq. destruct (os.find c entries) as [m|]; [|reflexivity].
      cbn [fmap option_fmap option_map]. apply IH, Hq.
    + rewrite find_alter_ne by assumption. exact Hq.
Qed.

Lemma mkdirAll_nil n :
  os.mkdirAll [] n = match n with os.File _ => None | os.Dir _ => Some n end.
Proof. destruct n; reflexivity. Qed.

Lemma mkdirAll_cons c p n :
  os.mkdirAll (c :: p) n =
  match n with
  | os.File _ => None
  | os.Dir entries =>
      match os.find c entries with
      | Some m => m' ← os.mkdirAll p m; Some (os.Dir (os.alter c (fun _ => m') entries))
      | None => m' ← os.mkdirAll p (os.Dir []); Some (os.Dir (entries ++ [(c, m')]))
      end
  end.
Proof. destruct n; reflexivity. Qed.

Lemma writeFile_single c data n :
  os.writeFile [c] data n =
  match n with
  | os.Dir entries =>
      match os.find c entries with
      | Some (os.Dir _) => None
      | Some (os.File _) => Some (os.Dir (os.alter c (fun _ => os.File data) entries))
      | None => Some (os.Dir (entries ++ [(c, os.File data)]))
      end
  | os.File _ => None
  end.
Proof. destruct n; reflexivity. Qed.

Lemma writeFile_deeper c c' p data n :
  os.writeFile (c :: c' :: p) data n =
  match n with
  | os.Dir entries =>
      match os.find c entries with
      | Some m => m' ← os.writeFile (c' :: p) data m;
                  Some (os.Dir (os.alter c (fun _ => m') entries))
      | None => None
      end
  | os.File _ => None
  end.
Proof. destruct n; reflexivity. Qed.

Lemma kept_refl (a : option os.Node) : os.kept a a.
Proof. destruct a as [[content | entries]|]; simpl; eauto. Qed.

Lemma kept_trans (a b c : option os.Node) : os.kept a b -> os.kept b c -> os.kept a c.
Proof.
  destruct a as [[content | entries]|]; simpl; [| |trivial].
  - intros ->. simpl. trivial.
  - intros [es ->]. simpl. trivial.
Qed.

(** [mkdirAll] keeps what is there. *)
Lemma mkdirAll_kept p : forall n n' q,
  os.mkdirAll p n = Some n' -> os.kept (os.lookup q n) (os.lookup q n').
Proof.
  induction p as [| c p IH]; intros n n' q Hm.
  - rewrite mkdirAll_nil in Hm. destruct n; [discriminate|].
    injection Hm as <-. apply kept_refl.
  - rewrite mkdirAll_cons in Hm. destruct n as [content | entries]; [discriminate|].
    destruct q as [| c' q]; [destruct (os.find c entries);
      destruct (os.mkdirAll p _); try discriminate; injection Hm as <-; simpl; eauto|].
    rewrite !lookup_cons.
    destruct (os.find c entries) as [m|] eqn:Hf.
    + destruct (os.mkdirAll p m) as [m'|] eqn:Hm'; [|discriminate].
      injection Hm as <-.
      destruct (decide (c = c')) as [<- | Hne].
      * rewrite find_alter_eq, Hf. cbn [fmap option_fmap option_map].
        apply (IH _ _ _ Hm').
      * rewrite find_alter_ne by assumption. apply kept_refl.
    + destruct (os.mkdirAll p (os.Dir [])) as [m'|] eqn:Hm'; [|discriminate].
      injection Hm as <-. rewrite find_app.
      destruct (os.find c' entries); [apply kept_refl | exact I].
Qed.

(** [mkdirAll] leaves a directory at the end of the path. *)
Lemma mkdirAll_made p : forall n n',
  os.mkdirAll p n = Some n' -> exists entries, os.lookup p n' = Some (os.Dir entries).
Proof.
  induction p as [| c p IH]; intros n n' Hm.
  - rewrite mkdirAll_nil in Hm. destruct n; [discriminate|].
    injection Hm as <-. eauto.
  - rewrite mkdirAll_cons in Hm. destruct n as [content | entries]; [discriminate|].
    destruct (os.find c entries) as [m|] eqn:Hf.
    + destruct (os.mkdirAll p m) as [m'|] eqn:Hm'; [|discriminate].
      injection Hm as <-. rewrite lookup_cons, find_alter_eq, Hf.
      cbn [fmap option_fmap option_map]. apply (IH _ _ Hm').
    + destruct (os.mkdirAll p (os.Dir [])) as [m'|] eqn:Hm'; [|discriminate].
      injection Hm as <-. rewrite lookup_cons, find_app, Hf.
      rewrite (proj2 (String.eqb_eq c c) eq_refl). apply (IH _ _ Hm').
Qed.

(** [writeFile] leaves the file with the data. *)
Lemma writeFile_written p data : forall n n',
  os.writeFile p data n = Some n' -> os.lookup p n' = Some (os.File data).
Proof.
  induction p as [| c p IH]; intros n n' Hw; [destruct n; discriminate|].
  destruct p as [| c' p'].
  - rewrite writeFile_single in Hw. destruct n as [content | entries]; [discriminate|].
    rewrite lookup_cons.
    destruct (os.find c entries) as [[old | sub]|] eqn:Hf; [|discriminate|].
    + injection Hw as <-. rewrite find_alter_eq, Hf. reflexivity.
    + injection Hw as <-. rewrite find_app, Hf.
      rewrite (proj2 (String.eqb_eq c c) eq_refl). reflexivity.
  - rewrite writeFile_deeper in Hw. destruct n as [content | entries]; [discriminate|].
    destruct (os.find c entries) as [m|] eqn:Hf; [|discriminate].
    destruct (os.writeFile (c' :: p') data m) as [m'|] eqn:Hm'; [|discriminate].
    injection Hw as <-. rewrite lookup_cons, find_alter_eq, Hf.
    cbn [fmap option_fmap option_map]. apply (IH _ _ Hm').
Qed.

(** [writeFile] keeps what is there at every other path. *)
Lemma writeFile_kept p data : forall n n' q,
  os.writeFile p data n = Some n' -> q <> p ->
  os.kept (os.lookup q n) (os.lookup q n').
Proof.
  induction p as [| c p IH]; intros n n' q Hw Hne; [destruct n; discriminate|].
  destruct p as [| c' p'].
  - rewrite writeFile_single in Hw. destruct n as [content | entries]; [discriminate|].
    destruct q as [| c2 q]; [destruct (os.find c entries) as [[?|?]|];
      try discriminate; injection Hw as <-; simpl; eauto|].
    rewrite !lookup_cons.
    destruct (os.find c entries) as [[old | sub]|] eqn:Hf; [|discriminate|];
      injection Hw as <-.
    + destruct (decide (c = c2)) as [<- | Hc].
      * rewrite find_alter_eq, Hf. cbn [fmap option_fmap option_map].
        destruct q as [| c3 q]; [congruence|]. simpl. exact I.
      * rewrite find_alter_ne by assumption. apply kept_refl.
    + rewrite find_app.
      destruct (os.find c2 entries); [apply kept_refl | exact I].
  - rewrite writeFile_deeper in Hw. destruct n as [content | entries]; [discriminate|].
    destruct (os.find c entries) as [m|] eqn:Hf; [|discriminate].
    destruct (os.writeFile (c' :: p') data m) as [m'|] eqn:Hm'; [|discriminate].
    injection Hw as <-.
    destruct q as [| c2 q]; [simpl; eauto|].
    rewrite !lookup_cons.
    destruct (decide (c = c2)) as [<- | Hc].
    + rewrite find_alter_eq, Hf. cbn [fmap option_fmap option_map].
      apply (IH _ _ _ Hm'). congruence.
    + rewrite find_alter_ne by assumption. apply kept_refl.
Qed.

End FileSystemMore.

Section MetadataWrite.

Implicit Types (d : os.Disk) (basePath tempDir destBase : os.path) (errs : list error).

(** One turn of the loop of [writecachePartitionMetadata]. *)
Lemma write_turn doc destBase d errs :
  let dest := destBase ++ [cachePartitionMetadataFileName] in
  exists d' errs',
    (fun '(d, errs) destBase =>
       let '(d, err) := os.MkdirAll destBase d in
       let errs := match err with
                   | Some err => errs ++ ["failed to create dir " +:+
                                          os.path_String destBase +:+ ": " +:+ err]
                   | None => errs
                   end in
       let dest := destBase ++ [cachePartitionMetadataFileName] in
       let '(d, err) := os.WriteFile dest doc d in
       let errs := match err with
                   | Some err => errs ++ ["failed to write " +:+
                                          os.path_String dest +:+ ": " +:+ err]
                   | None => errs
                   end in
       (d, errs)) (d, errs) destBase = (d', errs')
    /\ (os.lookup dest (os.root d') = Some (os.File doc)
        \/ exists err, In ("failed to write " +:+ os.path_String dest +:+ ": " +:+ err) errs')
    /\ (forall e, In e errs -> In e errs')
    /\ (errs' = [] -> errs = [])
    /\ (forall q, q <> dest -> os.kept (os.lookup q (os.root d)) (os.lookup q (os.root d')))
    /\ (forall q, os.lookup q (os.root d) = Some (os.File doc) ->
                  os.lookup q (os.root d') = Some (os.File doc))
    /\ os.sameFaults d d' /\ os.writeFails d' = os.writeFails d.
Proof.
  cbv beta iota zeta. set (dest := destBase ++ [cachePartitionMetadataFileName]).
  assert (Hmk : forall q, os.kept (os.lookup q (os.root d))
                            (os.lookup q (os.root (os.MkdirAll destBase d).1))).
  { intros q. unfold os.MkdirAll. destruct (os.writeFails d destBase); [apply kept_refl|].
    destruct (os.mkdirAll destBase (os.root d)) as [n|] eqn:Hm; [|apply kept_refl].
    apply (mkdirAll_kept _ _ _ q Hm). }
  assert (Hmf : os.sameFaults d (os.MkdirAll destBase d).1
                /\ os.writeFails (os.MkdirAll destBase d).1 = os.writeFails d).
  { unfold os.MkdirAll. destruct (os.writeFails d destBase); [repeat split|].
    destruct (os.mkdirAll destBase (os.root d)); repeat split. }
  destruct (os.MkdirAll destBase d) as [d1 err1]. cbn [fst] in Hmk, Hmf.
  assert (Hwr : (forall q, q <> dest -> os.kept (os.lookup q (os.root d1))
                             (os.lookup q (os.root (os.WriteFile dest doc d1).1)))
                /\ (forall q, os.lookup q (os.root d1) = Some (os.File doc) ->
                      os.lookup q (os.root (os.WriteFile dest doc d1).1) = Some (os.File doc))
                /\ ((os.WriteFile dest doc d1).2 = None ->
                    os.lookup dest (os.root (os.WriteFile dest doc d1).1) = Some (os.File doc))
                /\ os.sameFaults d1 (os.WriteFile dest doc d1).1
                /\ os.writeFails (os.WriteFile dest doc d1).1 = os.writeFails d1).
  { unfold os.WriteFile. destruct (os.writeFails d1 dest);
      [repeat split; try discriminate; auto using kept_refl|].
    destruct (os.writeFile dest doc (os.root d1)) as [n|] eqn:Hwf;
      [|repeat split; try discriminate; auto using kept_refl].
    cbn [fst snd os.root os.with_root]. split; [|split; [|repeat split]].
    - intros q Hq. apply (writeFile_kept _ _ _ _ q Hwf Hq).
    - intros q Hq. destruct (decide (q = dest)) as [-> | Hne].
      + apply (writeFile_written _ _ _ _ Hwf).
      + pose proof (writeFile_kept _ _ _ _ q Hwf Hne) as Hb. rewrite Hq in Hb. exact Hb.
    - intros _. apply (writeFile_written _ _ _ _ Hwf). }
  destruct (os.WriteFile dest doc d1) as [d2 err2]. cbn [fst snd] in Hwr.
  destruct Hwr as (Hk2 & Hdoc2 & Hok2 & Hf2 & Hwf2). destruct Hmf as (Hf1 & Hwf1).
  eexists _, _. split; [reflexivity|].
  split; [|split; [|split; [|split; [|split; [|split]]]]].
  - destruct err2 as [err2|]; [right; exists err2; apply in_or_app; right; left; reflexivity|].
    left. apply Hok2. reflexivity.
  - intros msg Hmsg. destruct err1, err2; repeat (apply in_or_app; left); exact Hmsg.
  - destruct err1, err2; intros H; try (apply app_eq_nil in H as [H _]);
      try (apply app_eq_nil in H as [H _]); try exact H; try discriminate.
  - intros q Hq. eapply kept_trans; [apply Hmk | apply Hk2, Hq].
  - intros q Hq. apply Hdoc2. pose proof (Hmk q) as Ha. rewrite Hq in Ha. exact Ha.
  - destruct Hf1 as (A1 & A2 & A3), Hf2 as (B1 & B2 & B3). repeat split; congruence.
  - congruence.
Qed.

(** The two turns of [writecachePartitionMetadata]. *)
Lemma write_both basePath tempDir expiresAt d :
  let doc := json_Marshal {| ExpiresAt := expiresAt |} in
  let base := basePath ++ [cachePartitionMetadataFileName] in
  let temp := tempDir ++ [cachePartitionMetadataFileName] in
  exists d' errs,
    writecachePartitionMetadata basePath tempDir (Some expiresAt) d = (d', errs)
    /\ (os.lookup base (os.root d') = Some (os.File doc)
        \/ exists err, In ("failed to write " +:+ os.path_String base +:+ ": " +:+ err) errs)
    /\ (os.lookup temp (os.root d') = Some (os.File doc)
        \/ exists err, In ("failed to write " +:+ os.path_String temp +:+ ": " +:+ err) errs)
    /\ (forall q, q <> base -> q <> temp ->
                  os.kept (os.lookup q (os.root d)) (os.lookup q (os.root d')))
    /\ os.sameFaults d d'.
Proof.
  cbv zeta. unfold writecachePartitionMetadata.
  match goal with |- context [foldl ?f _ _] => set (turn := f) end.
  change (foldl turn (d, []) [basePath; tempDir])
    with (turn (turn (d, []) basePath) tempDir).
  destruct (write_turn (json_Marshal {| ExpiresAt := expiresAt |}) basePath d [])
    as (d1 & errs1 & Heq1 & Hw1 & _ & _ & Hk1 & _ & Hf1 & _).
  change (turn (d, []) basePath = (d1, errs1)) in Heq1. rewrite Heq1.
  destruct (write_turn (json_Marshal {| ExpiresAt := expiresAt |}) tempDir d1 errs1)
    as (d2 & errs2 & Heq2 & Hw2 & Hin2 & _ & Hk2 & Hdoc2 & Hf2 & _).
  change (turn (d1, errs1) tempDir = (d2, errs2)) in Heq2. rewrite Heq2.
  exists d2, errs2. split; [reflexivity|].
  split; [|split; [exact Hw2|split]].
  - destruct Hw1 as [Hfile | [err Herr]]; [left; apply Hdoc2, Hfile | right; eauto].
  - intros q Hb Ht. eapply kept_trans; [apply Hk1, Hb | apply Hk2, Ht].
  - destruct Hf1 as (A1 & A2 & A3), Hf2 as (B1 & B2 & B3). repeat split; congruence.
Qed.

(** X13. No silent failure: for each of the two directories, once
    [writecachePartitionMetadata] is through either the metadata file of the
    directory holds the document written for the expiry, or the errors
    returned say that writing that file failed. *)
Theorem metadata_written_or_reported basePath tempDir expiresAt d :
  let doc := json_Marshal {| ExpiresAt := expiresAt |} in
  let '(d', errs) := writecachePartitionMetadata basePath tempDir (Some expiresAt) d in
  forall destBase, In destBase [basePath; tempDir] ->
    let dest := destBase ++ [cachePartitionMetadataFileName] in
    os.lookup dest (os.root d') = Some (os.File doc)
    \/ exists err, In ("failed to write " +:+ os.path_String dest +:+ ": " +:+ err) errs.
Proof.
  cbv zeta.
  destruct (write_both basePath tempDir expiresAt d) as (d' & errs & -> & Hb & Ht & _).
  intros destBase [<- | [<- | []]]; assumption.
Qed.

(** X14. When [writecachePartitionMetadata] returns no error, the
    metadata files of both directories exist and hold the document written
    for the expiry. *)
Theorem metadata_written_when_no_error basePath tempDir expiresAt d d' :
  writecachePartitionMetadata basePath tempDir (Some expiresAt) d = (d', []) ->
  os.lookup (basePath ++ [cachePartitionMetadataFileName]) (os.root d')
  = Some (os.File (json_Marshal {| ExpiresAt := expiresAt |}))
  /\ os.lookup (tempDir ++ [cachePartitionMetadataFileName]) (os.root d')
     = Some (os.File (json_Marshal {| ExpiresAt := expiresAt |})).
Proof.
  intros Heq.
  destruct (write_both basePath tempDir expiresAt d) as (d2 & errs & Heq' & Hb & Ht & _).
  rewrite Heq in Heq'. injection Heq' as <- <-.
  split; [destruct Hb as [H | [err []]] | destruct Ht as [H | [err []]]]; exact H.
Qed.

(** X15. [writecachePartitionMetadata] removes nothing and overwrites
    nothing but the two metadata files: at any other path a file is still
    there with its content and a directory is still a directory, with or
    without an expiry, with or without errors. *)
Theorem metadata_write_keeps_rest basePath tempDir (expiresAt : option time.Time) d :
  let '(d', errs) := writecachePartitionMetadata basePath tempDir expiresAt d in
  forall q,
    q <> basePath ++ [cachePartitionMetadataFileName] ->
    q <> tempDir ++ [cachePartitionMetadataFileName] ->
    os.kept (os.lookup q (os.root d)) (os.lookup q (os.root d')).
Proof.
  destruct expiresAt as [expiresAt|].
  - destruct (write_both basePath tempDir expiresAt d) as (d' & errs & -> & _ & _ & Hk & _).
    exact Hk.
  - simpl. intros q _ _. apply kept_refl.
Qed.

End MetadataWrite.

Section MetadataWriteExamples.

Example write_on_empty_disk :
  writecachePartitionMetadata ["cache"; "data"; "k"] ["cache"; "temp"; "k"]
    (Some sample_expiry) empty_disk
  = (os.with_root empty_disk
       (os.Dir [("cache", os.Dir [
          ("data", os.Dir [("k", os.Dir [
             (cachePartitionMetadataFileName,
              os.File (json_Marshal {| ExpiresAt := sample_expiry |}))])]);
          ("temp", os.Dir [("k", os.Dir [
             (cachePartitionMetadataFileName,
              os.File (json_Marshal {| ExpiresAt := sample_expiry |}))])])])]),
     []).
Proof. vm_compute. reflexivity. Qed.

(** A file where the data directory should be: two errors, and the
    temporary directory gets its file all the same. *)
Example write_with_file_in_the_way :
  let d := os.with_root empty_disk (os.Dir [("cache", os.Dir [("data", os.File "x")])]) in
  let '(d', errs) :=
    writecachePartitionMetadata ["cache"; "data"; "k"] ["cache"; "temp"; "k"]
      (Some sample_expiry) d in
  errs = ["failed to create dir /cache/data/k: not a directory";
          "failed to write /cache/data/k/.cache_metadata.json: no such file or directory"]
  /\ os.lookup ["cache"; "temp"; "k"; cachePartitionMetadataFileName] (os.root d')
     = Some (os.File (json_Marshal {| ExpiresAt := sample_expiry |}))
  /\ os.lookup ["cache"; "data"] (os.root d') = Some (os.File "x").
Proof. vm_compute. repeat split. Qed.

Lemma metadata_written_when_no_error_witness :
  exists d',
    writecachePartitionMetadata ["cache"; "data"; "k"] ["cache"; "temp"; "k"]
      (Some sample_expiry) empty_disk = (d', [])
    /\ os.lookup (["cache"; "data"; "k"] ++ [cachePartitionMetadataFileName]) (os.root d')
       = Some (os.File (json_Marshal {| ExpiresAt := sample_expiry |}))
    /\ os.lookup (["cache"; "temp"; "k"] ++ [cachePartitionMetadataFileName]) (os.root d')
       = Some (os.File (json_Marshal {| ExpiresAt := sample_expiry |})).
Proof.
  eexists. split; [apply write_on_empty_disk|].
  apply (metadata_written_when_no_error ["cache"; "data"; "k"] ["cache"; "temp"; "k"]
           sample_expiry empty_disk _ write_on_empty_disk).
Defined.

End MetadataWriteExamples.

Section PruneMore.

Variable Unmarshal : string -> cachePartitionMetadata + error.
Variable now : nat -> time.Time.

Implicit Types (st : Sweep) (base baseDir q : os.path) (c : os.DirEntry).

(** A listing that is not cut short delivers every directory of the
    listed directory. *)
Lemma ReadDir_lists base (d : os.Disk) entries name sub :
  os.lookup base (os.root d) = Some (os.Dir entries) ->
  os.find name entries = Some (os.Dir sub) ->
  os.readDirCut d base = None ->
  In {| os.Name := name; os.IsDir := true |} (os.ReadDir base d).1.
Proof.
  intros Hl Hf Hc. unfold os.ReadDir. rewrite Hl, Hc. cbn [fst].
  apply (Permutation_in _ (Permutation_sym (merge_sort_Permutation _ _))).
  change {| os.Name := name; os.IsDir := true |} with (os.dirEntry (name, os.Dir sub)).
  apply in_map, find_In, Hf.
Qed.


Lemma candidates_create_nothing base q cands : forall st,
  os.lookup q (os.root (disk st)) = None ->
  os.lookup q (os.root (disk (foldl (pruneCandidate Unmarshal now base) st cands))) = None.
Proof.
  induction cands as [| c cands IH]; intros st Hq; simpl; [exact Hq|].
  apply IH.
  destruct (pruneCandidate_root Unmarshal now base st c) as [-> | ->]; [exact Hq|].
  apply lookup_remove_None, Hq.
Qed.

Lemma pruneRoot_lookup (P : option os.Node -> Prop) baseDir dir q :
  (forall cands st, P (os.lookup q (os.root (disk st))) ->
     P (os.lookup q (os.root (disk
          (foldl (pruneCandidate Unmarshal now (baseDir ++ [dir])) st cands))))) ->
  forall st, P (os.lookup q (os.root (disk st))) ->
             P (os.lookup q (os.root (disk (pruneRoot Unmarshal now baseDir st dir)))).
Proof.
  intros Hfold st HP. rewrite pruneRoot_disk. apply Hfold.
  destruct (os.ReadDir _ _).2; exact HP.
Qed.

(** X16. A sweep creates nothing: a path that led nowhere before the
    sweep leads nowhere after it. *)
Theorem Prune_creates_nothing baseDir st q :
  os.lookup q (os.root (disk st)) = None ->
  os.lookup q (os.root (disk (Prune Unmarshal now baseDir st))) = None.
Proof.
  intros Hq. rewrite Prune_roots.
  apply (pruneRoot_lookup (fun o => o = None)); [intros; apply candidates_create_nothing; assumption|].
  apply (pruneRoot_lookup (fun o => o = None)); [intros; apply candidates_create_nothing; assumption|].
  exact Hq.
Qed.


(** X18. A plain file that sits where a partition directory would, right
    under [data] or [temp], is never removed. *)
Theorem Prune_keeps_files baseDir st dir name content :
  dir = "data" \/ dir = "temp" ->
  os.lookup (baseDir ++ [dir; name]) (os.root (disk st)) = Some (os.File content) ->
  os.lookup (baseDir ++ [dir; name]) (os.root (disk (Prune Unmarshal now baseDir st)))
  = Some (os.File content).
Proof.
  intros Hdir Hfile. rewrite <- Hfile. apply Prune_spared; [exact Hdir|].
  right. left. unfold unreadable, os.ReadFile.
  destruct (os.readFails _ _); [eexists; reflexivity|].
  change (baseDir ++ [dir; name; cachePartitionMetadataFileName])
    with (baseDir ++ [dir; name] ++ [cachePartitionMetadataFileName]).
  rewrite app_assoc, lookup_app, Hfile. eexists. reflexivity.
Qed.

(** X19. When neither root can be listed, because [data] and [temp] are
    not there, the sweep leaves the tree as it is, does not read the clock,
    and logs one warning for each root. *)
Theorem Prune_missing_roots baseDir st :
  os.lookup (baseDir ++ ["data"]) (os.root (disk st)) = None ->
  os.lookup (baseDir ++ ["temp"]) (os.root (disk st)) = None ->
  let st' := Prune Unmarshal now baseDir st in
  disk st' = disk st
  /\ nowCalls st' = nowCalls st
  /\ map level (sweepLog st') = map level (sweepLog st) ++ ["warning"; "warning"]
  /\ map message (sweepLog st') = map message (sweepLog st)
       ++ ["os.ReadDir failed"; "os.ReadDir failed"].
Proof.
  intros Hd Ht. cbv zeta. rewrite Prune_roots.
  unfold pruneRoot, os.ReadDir. rewrite Hd. cbn [foldl sweep_log disk]. rewrite Ht.
  cbn [foldl sweep_log disk nowCalls sweepLog].
  rewrite !map_app, <- !app_assoc. repeat split.
Qed.

End PruneMore.

Section Paths.

Example split_nested : path.split "org/app" = ["org"; "app"].
Proof. reflexivity. Qed.

Example Join_nested : path.Join ["cache"] ["data"; "org/app"] = ["cache"; "data"; "org"; "app"].
Proof. reflexivity. Qed.

Example Join_climbs : path.Join ["cache"] ["data"; "../../etc"] = ["etc"].
Proof. reflexivity. Qed.

Example Join_empty_key : path.Join ["cache"] ["data"; ""] = ["cache"; "data"].
Proof. reflexivity. Qed.

Lemma split_cons s : exists h t, path.split s = h :: t.
Proof.
  destruct s as [| c s]; simpl; [eauto|].
  destruct (Ascii.eqb c "/"); [eauto|]. destruct (path.split s); eauto.
Qed.

Lemma split_component s : path.component s = true -> path.split s = [s].
Proof.
  unfold path.component. intros H. apply andb_true_iff in H as [_ H].
  revert H. induction s as [| c s IH]; simpl; [reflexivity|].
  destruct (split_cons s) as (h & t & Hs). rewrite Hs in *.
  destruct (Ascii.eqb c "/"); [discriminate|].
  destruct t; [|discriminate]. intros _. specialize (IH eq_refl). congruence.
Qed.

Lemma clean_components cs : forall seen,
  Forall (fun c => path.component c = true) cs ->
  path.clean seen cs = rev seen ++ cs.
Proof.
  induction cs as [| c cs IH]; intros seen Hcs; simpl.
  - rewrite app_nil_r. reflexivity.
  - apply Forall_cons in Hcs as [Hc Hcs]. unfold path.component in Hc.
    apply andb_true_iff in Hc as [Hc _]. apply andb_true_iff in Hc as [Hc H2].
    apply andb_true_iff in Hc as [H0 H1].
    apply negb_true_iff in H0, H1, H2. rewrite H0, H1, H2. simpl.
    rewrite (IH _ Hcs). simpl. rewrite <- app_assoc. reflexivity.
Qed.

(** [path.Join] of clean components puts them one after the other. *)
Lemma Join_components dir elem :
  Forall (fun c => path.component c = true) dir ->
  Forall (fun c => path.component c = true) elem ->
  path.Join dir elem = dir ++ elem.
Proof.
  intros Hd He. unfold path.Join, path.Clean.
  assert (Hsplit : concat (map path.split elem) = elem).
  { induction He as [| c elem Hc _ IH]; simpl; [reflexivity|].
    rewrite (split_component c Hc), IH. reflexivity. }
  rewrite Hsplit. apply clean_components. apply Forall_app. split; assumption.
Qed.

End Paths.

Section PartitionLife.

Variable now : nat -> time.Time.

Implicit Types (st : Sweep) (d : os.Disk) (cacheDir baseDir base : os.path).

Lemma lookup_single_inv c (n m : os.Node) :
  os.lookup [c] n = Some m -> exists entries, n = os.Dir entries /\ os.find c entries = Some m.
Proof.
  rewrite lookup_cons. destruct n as [content | entries]; [discriminate|].
  destruct (os.find c entries) as [x|] eqn:Hf; [|discriminate].
  intros [= ->]. eauto.
Qed.

(** A partition with a metadata file is a directory its root lists. *)
Lemma partition_listed base name file content d :
  os.lookup (base ++ [name; file]) (os.root d) = Some (os.File content) ->
  os.readDirCut d base = None ->
  In {| os.Name := name; os.IsDir := true |} (os.ReadDir base d).1.
Proof.
  intros Hl Hc.
  change (base ++ [name; file]) with (base ++ [name] ++ [file]) in Hl.
  rewrite lookup_app in Hl.
  destruct (os.lookup base (os.root d)) as [n0|] eqn:Hb; [|discriminate Hl].
  cbn [mbind option_bind] in Hl. rewrite lookup_app in Hl.
  destruct (os.lookup [name] n0) as [n1|] eqn:Hn; [|discriminate Hl].
  cbn [mbind option_bind] in Hl.
  destruct (lookup_single_inv _ _ _ Hn) as (entries & -> & Hf).
  destruct (lookup_single_inv _ _ _ Hl) as (sub & -> & _).
  apply (ReadDir_lists base d entries name sub); assumption.
Qed.

(** X20. Metadata that says [null] for the expiry, or says nothing at
    all, decodes to the zero time and so counts as expired at any time from
    year 1 on: the sweep removes such a partition. *)
Theorem Prune_null_expiry baseDir st dir name raw :
  dir = "data" \/ dir = "temp" ->
  raw = json_Marshal {| ExpiresAt := time.zero |} \/ raw = "{}" ->
  os.ReadFile (baseDir ++ [dir; name; cachePartitionMetadataFileName]) (disk st) = inl raw ->
  In {| os.Name := name; os.IsDir := true |} (os.ReadDir (baseDir ++ [dir]) (disk st)).1 ->
  os.removeFails (disk st) (baseDir ++ [dir; name]) = false ->
  (forall k, time.sec time.zero <= time.sec (now k) /\ 0 <= time.nsec (now k)) ->
  os.lookup (baseDir ++ [dir; name])
    (os.root (disk (Prune json_Unmarshal now baseDir st))) = None.
Proof.
  intros Hdir Hraw Hread Hin Hrm Hclock.
  apply Prune_expired; try assumption.
  exists raw, {| ExpiresAt := time.zero |}. split; [exact Hread|]. split.
  - destruct Hraw as [-> | ->]; vm_compute; reflexivity.
  - intros k. apply After_false. cbn [ExpiresAt].
    destruct (Hclock k) as [Hs Hn]. change (time.nsec time.zero) with 0. lia.
Qed.

(** The disk after [diskPartition] has made a partition without error. *)
Lemma diskPartition_made cacheDir key expiresAt d d1 dir :
  Forall (fun c => path.component c = true) cacheDir ->
  path.component key = true ->
  diskPartition cacheDir key (Some expiresAt) d = (d1, []) ->
  dir = "data" \/ dir = "temp" ->
  os.lookup (cacheDir ++ [dir; key; cachePartitionMetadataFileName]) (os.root d1)
  = Some (os.File (json_Marshal {| ExpiresAt := expiresAt |}))
  /\ os.sameFaults d d1.
Proof.
  unfold diskPartition. cbv zeta. intros Hclean Hkey.
  rewrite !Join_components by (try assumption; repeat constructor; assumption).
  intros Heq Hdir.
  destruct (metadata_written_when_no_error _ _ _ _ _ Heq) as [Hb Ht].
  destruct (write_both (cacheDir ++ ["data"; key]) (cacheDir ++ ["temp"; key]) expiresAt d)
    as (d2 & errs & Heq' & _ & _ & _ & Hf).
  rewrite Heq in Heq'. injection Heq' as <- <-.
  rewrite <- !app_assoc in Hb, Ht. split; [|exact Hf].
  destruct Hdir as [-> | ->]; assumption.
Qed.

(** X21. A partition made by [diskPartition] without error under a key
    that is one clean path component, for an expiry whose year has four
    digits, on a healthy disk: a sweep whose clock is at or past the expiry
    removes the directories of the partition under [data] and under
    [temp]. *)
Theorem partition_pruned_after_expiry cacheDir key expiresAt d d1 st :
  Forall (fun c => path.component c = true) cacheDir ->
  path.component key = true ->
  diskPartition cacheDir key (Some expiresAt) d = (d1, []) ->
  0 <= time.Year (time.civil expiresAt) <= 9999 ->
  os.healthy d ->
  (forall k, time.sec expiresAt <= time.sec (now k) /\ 0 <= time.nsec (now k)) ->
  disk st = d1 ->
  let st' := Prune json_Unmarshal now cacheDir st in
  os.lookup (cacheDir ++ ["data"; key]) (os.root (disk st')) = None
  /\ os.lookup (cacheDir ++ ["temp"; key]) (os.root (disk st')) = None.
Proof.
  intros Hclean Hkey Heq Hy Hh Hclock Hst. cbv zeta.
  assert (Hone : forall dir, dir = "data" \/ dir = "temp" ->
            os.lookup (cacheDir ++ [dir; key])
              (os.root (disk (Prune json_Unmarshal now cacheDir st))) = None).
  { intros dir Hdir.
    destruct (diskPartition_made _ _ _ _ _ dir Hclean Hkey Heq Hdir)
      as (Hfile & Hr & Hm & Hc).
    destruct (metadata_roundtrip expiresAt Hy) as (metadata & Hdec & Hunix & Hns).
    apply Prune_expired; rewrite ?Hst; try assumption.
    - exists (json_Marshal {| ExpiresAt := expiresAt |}), metadata.
      split; [|split; [exact Hdec|]].
      + unfold os.ReadFile. rewrite Hr, (proj1 (Hh _)), Hfile. reflexivity.
      + intros k. apply After_false. destruct (Hclock k) as [Hs Hn].
        unfold time.Unix in Hunix. rewrite Hunix, Hns. lia.
    - rewrite partition_metadataPath in Hfile.
      apply (partition_listed _ _ _ _ _ Hfile). rewrite Hc. apply Hh.
    - rewrite Hm. apply Hh. }
  split; apply Hone; [left | right]; reflexivity.
Qed.

(** X22. The same partition, its key one clean path component, under a
    sweep whose clock is before the expiry by a second or more: both
    directories are left as they were, their metadata files included. *)
Theorem partition_kept_before_expiry cacheDir key expiresAt d d1 st :
  Forall (fun c => path.component c = true) cacheDir ->
  path.component key = true ->
  diskPartition cacheDir key (Some expiresAt) d = (d1, []) ->
  0 <= time.Year (time.civil expiresAt) <= 9999 ->
  os.healthy d ->
  (forall k, time.sec (now k) < time.sec expiresAt) ->
  disk st = d1 ->
  let st' := Prune json_Unmarshal now cacheDir st in
  forall dir, dir = "data" \/ dir = "temp" ->
    os.lookup (cacheDir ++ [dir; key]) (os.root (disk st'))
    = os.lookup (cacheDir ++ [dir; key]) (os.root d1)
    /\ os.lookup (cacheDir ++ [dir; key; cachePartitionMetadataFileName]) (os.root (disk st'))
       = Some (os.File (json_Marshal {| ExpiresAt := expiresAt |})).
Proof.
  intros Hclean Hkey Heq Hy Hh Hclock Hst. cbv zeta. intros dir Hdir.
  destruct (diskPartition_made _ _ _ _ _ dir Hclean Hkey Heq Hdir)
    as (Hfile & Hr & Hm & Hc).
  destruct (metadata_roundtrip expiresAt Hy) as (metadata & Hdec & Hunix & Hns).
  assert (Hkept : os.lookup (cacheDir ++ [dir; key])
                    (os.root (disk (Prune json_Unmarshal now cacheDir st)))
                  = os.lookup (cacheDir ++ [dir; key]) (os.root d1)).
  { rewrite <- Hst. apply Prune_spared; [exact Hdir|]. left.
    exists (json_Marshal {| ExpiresAt := expiresAt |}), metadata.
    split; [|split; [exact Hdec|]].
    - rewrite Hst. unfold os.ReadFile. rewrite Hr, (proj1 (Hh _)), Hfile. reflexivity.
    - intros k. unfold time.After. unfold time.Unix in Hunix. rewrite Hunix.
      apply orb_true_iff. left. apply Z.ltb_lt, Hclock. }
  split; [exact Hkept|].
  assert (Hp : cacheDir ++ [dir; key; cachePartitionMetadataFileName]
               = (cacheDir ++ [dir; key]) ++ [cachePartitionMetadataFileName])
    by (rewrite <- app_assoc; reflexivity).
  rewrite Hp in *.
  rewrite (lookup_app (cacheDir ++ [dir; key]) [cachePartitionMetadataFileName]) in *.
  rewrite Hkept. exact Hfile.
Qed.

End PartitionLife.

Section PruneMoreExamples.

Lemma Prune_creates_nothing_witness :
  os.lookup ["cache"; "data"; "gone"]
    (os.root (disk (Prune json_Unmarshal sample_now ["cache"] sample_sweep))) = None.
Proof.
  apply (Prune_creates_nothing json_Unmarshal sample_now ["cache"] sample_sweep
           ["cache"; "data"; "gone"]).
  reflexivity.
Defined.


Lemma Prune_keeps_files_witness :
  os.lookup (["cache"] ++ ["data"; "README"])
    (os.root (disk (Prune json_Unmarshal sample_now ["cache"] sample_sweep)))
  = Some (os.File "not a partition").
Proof.
  apply (Prune_keeps_files json_Unmarshal sample_now ["cache"] sample_sweep "data" "README"
           "not a partition"); [left; reflexivity | reflexivity].
Defined.

Lemma Prune_missing_roots_witness :
  let st := {| disk := empty_disk; nowCalls := 0; sweepLog := [] |} in
  let st' := Prune json_Unmarshal sample_now ["cache"] st in
  disk st' = disk st
  /\ nowCalls st' = nowCalls st
  /\ map level (sweepLog st') = map level (sweepLog st) ++ ["warning"; "warning"]
  /\ map message (sweepLog st') = map message (sweepLog st)
       ++ ["os.ReadDir failed"; "os.ReadDir failed"].
Proof.
  apply (Prune_missing_roots json_Unmarshal sample_now ["cache"]
           {| disk := empty_disk; nowCalls := 0; sweepLog := [] |}); reflexivity.
Defined.

Lemma Prune_null_expiry_witness :
  os.lookup (["cache"] ++ ["data"; "p"])
    (os.root (disk (Prune json_Unmarshal sample_now ["cache"] sample_null_sweep))) = None.
Proof.
  apply (Prune_null_expiry sample_now ["cache"] sample_null_sweep "data" "p" "{}").
  - left. reflexivity.
  - right. reflexivity.
  - reflexivity.
  - vm_compute. tauto.
  - reflexivity.
  - intros k. vm_compute. split; discriminate.
Defined.

Lemma healthy_empty_disk : os.healthy empty_disk.
Proof. intros p. repeat split. Qed.

Lemma sample_partition_made :
  diskPartition ["cache"] "k" (Some sample_expiry) empty_disk = (sample_partition_disk, []).
Proof. vm_compute. reflexivity. Qed.

Lemma partition_pruned_after_expiry_witness :
  let st := {| disk := sample_partition_disk; nowCalls := 0; sweepLog := [] |} in
  let st' := Prune json_Unmarshal (fun _ => at_second 1700000000) ["cache"] st in
  os.lookup (["cache"] ++ ["data"; "k"]) (os.root (disk st')) = None
  /\ os.lookup (["cache"] ++ ["temp"; "k"]) (os.root (disk st')) = None.
Proof.
  apply (partition_pruned_after_expiry (fun _ => at_second 1700000000) ["cache"] "k"
           sample_expiry empty_disk sample_partition_disk
           {| disk := sample_partition_disk; nowCalls := 0; sweepLog := [] |}).
  - repeat constructor.
  - reflexivity.
  - exact sample_partition_made.
  - vm_compute. split; discriminate.
  - exact healthy_empty_disk.
  - intros k. vm_compute. split; discriminate.
  - reflexivity.
Defined.

Lemma partition_kept_before_expiry_witness :
  let st := {| disk := sample_partition_disk; nowCalls := 0; sweepLog := [] |} in
  let st' := Prune json_Unmarshal (fun _ => at_second 1500000000) ["cache"] st in
  os.lookup (["cache"] ++ ["temp"; "k"]) (os.root (disk st'))
  = os.lookup (["cache"] ++ ["temp"; "k"]) (os.root sample_partition_disk)
  /\ os.lookup (["cache"] ++ ["temp"; "k"; cachePartitionMetadataFileName]) (os.root (disk st'))
     = Some (os.File (json_Marshal {| ExpiresAt := sample_expiry |})).
Proof.
  apply (partition_kept_before_expiry (fun _ => at_second 1500000000) ["cache"] "k"
           sample_expiry empty_disk sample_partition_disk
           {| disk := sample_partition_disk; nowCalls := 0; sweepLog := [] |}
           ltac:(repeat constructor) eq_refl
           sample_partition_made
           ltac:(vm_compute; split; discriminate)
           healthy_empty_disk
           (fun k => eq_refl)
           eq_refl "temp" (or_intror eq_refl)).
Defined.

(** A key with a slash makes its partition two levels below [data] and
    [temp], where the sweep does not look: the metadata outlives the
    expiry. *)
Example partition_nested_key_outlives :
  os.lookup ["cache"; "data"; "org"; "app"; cachePartitionMetadataFileName]
    (os.root (disk (Prune json_Unmarshal (fun _ => at_second 1700000000) ["cache"]
                      {| disk := (diskPartition ["cache"] "org/app" (Some sample_expiry)
                                    empty_disk).1;
                         nowCalls := 0; sweepLog := [] |})))
  = Some (os.File (json_Marshal {| ExpiresAt := sample_expiry |})).
Proof. vm_compute. reflexivity. Qed.

(** A key that leads into another partition shares that partition's
    fate: made inside the expired [old] of [sample_disk] with an expiry
    still to come, it goes when [old] goes. *)
Example partition_nested_key_swept :
  let d1 := (diskPartition ["cache"] "old/sub" (Some (at_second 1700000000)) sample_disk).1 in
  os.lookup ["cache"; "data"; "old"; "sub"; cachePartitionMetadataFileName] (os.root d1)
  = Some (os.File fresh_document)
  /\ os.lookup ["cache"; "data"; "old"; "sub"]
       (os.root (disk (Prune json_Unmarshal sample_now ["cache"]
                         {| disk := d1; nowCalls := 0; sweepLog := [] |})))
     = None.
Proof. vm_compute. split; reflexivity. Qed.

Example partition_pruned_sample :
  os.root (disk (Prune json_Unmarshal (fun _ => at_second 1700000000) ["cache"]
                   {| disk := sample_partition_disk; nowCalls := 0; sweepLog := [] |}))
  = os.Dir [("cache", os.Dir [("data", os.Dir []); ("temp", os.Dir [])])].
Proof. vm_compute. reflexivity. Qed.

End PruneMoreExamples.
